(** * retryablehttp: a shallow embedding of [client.go]

    The development follows the source file top to bottom: machine
    integers and durations, the float64 arithmetic used by the backoff
    policies, the retry policy, the configuration defaults, request
    construction with replayable bodies, and the retry loop of
    [Client.Do].  Definitions come first, theorems afterwards. *)

From Stdlib Require Import ZArith Lia Bool List String.
From stdpp Require Import base option list gmap strings pretty.
Import ListNotations.

Set Warnings "-clear-no-such-hyp".

Local Open Scope string_scope.
Local Open Scope Z_scope.

(** ** Machine integers

    Go's [int] and [int64] are 64-bit two's complement on the platforms
    the package targets; [time.Duration] is an [int64] counting
    nanoseconds.  Values are carried as [Z] and every arithmetic
    operation of the source wraps explicitly. *)

Module Int64.

Definition min_int : Z := - 2 ^ 63.
Definition max_int : Z := 2 ^ 63 - 1.

Definition wrap (z : Z) : Z := (z + 2 ^ 63) mod 2 ^ 64 - 2 ^ 63.

Definition in_range (z : Z) : Prop := min_int <= z <= max_int.

Definition in_rangeb (z : Z) : bool := (min_int <=? z) && (z <=? max_int).

Definition add (a b : Z) : Z := wrap (a + b).
Definition sub (a b : Z) : Z := wrap (a - b).
Definition mul (a b : Z) : Z := wrap (a * b).

End Int64.

(** Durations, in nanoseconds. *)
Definition Nanosecond : Z := 1.
Definition Millisecond : Z := 1000000.
Definition Second : Z := 1000000000.

(** ** Errors

    A Go [error] is carried by its message; a nil error is [None]. *)

Inductive error : Type := Err (msg : string).

Definition Error (e : error) : string := match e with Err m => m end.

Definition context_Canceled : error := Err "context canceled".
Definition context_DeadlineExceeded : error := Err "context deadline exceeded".

(** A call either yields a value or panics (a nil dereference, for
    instance). *)
Inductive res (A : Type) : Type :=
| Val (a : A)
| Panic.
Arguments Val {A} a.
Arguments Panic {A}.

(** ** float64

    [DefaultBackoff] and [LinearJitterBackoff] compute in float64.  A
    float64 is NaN, an infinity, or a finite dyadic [m * 2^e]; the sign of
    zero is not tracked, no operation below observes it.  [round64]
    rounds an exact dyadic to the nearest binary64 value, ties to even,
    with gradual underflow (smallest unit [2^-1074]) and overflow to
    infinity from [2^1024]. *)

Module F64.

Inductive float64 : Type :=
| FNaN
| FInf (neg : bool)
| FFin (m e : Z).

Definition round64 (m e : Z) : float64 :=
  if m =? 0 then FFin 0 0 else
  let d := Z.log2 (Z.abs m) in
  let u := Z.max (d + e - 52) (-1074) in
  if u <=? e then
    if d + e <? 1024 then FFin m e else FInf (m <? 0)
  else
    let k := u - e in
    let q := Z.abs m / 2 ^ k in
    let r := Z.abs m mod 2 ^ k in
    let h := 2 ^ (k - 1) in
    let q' := if (h <? r) || ((r =? h) && Z.odd q) then q + 1 else q in
    if q' =? 0 then FFin 0 0
    else if 1024 <=? Z.log2 q' + u then FInf (m <? 0)
    else FFin (Z.sgn m * q') u.

(** [float64(z)] for an integer [z]. *)
Definition of_int (z : Z) : float64 := round64 z 0.

(** [x * y]. *)
Definition mul (x y : float64) : float64 :=
  match x, y with
  | FNaN, _ | _, FNaN => FNaN
  | FInf s, FInf t => FInf (xorb s t)
  | FInf s, FFin m _ | FFin m _, FInf s =>
      if m =? 0 then FNaN else FInf (xorb s (m <? 0))
  | FFin m1 e1, FFin m2 e2 => round64 (m1 * m2) (e1 + e2)
  end.

(** [x == y]: NaN equals nothing, finite values compare by value. *)
Definition eqb (x y : float64) : bool :=
  match x, y with
  | FInf s, FInf t => Bool.eqb s t
  | FFin m1 e1, FFin m2 e2 =>
      let c := Z.min e1 e2 in
      m1 * 2 ^ (e1 - c) =? m2 * 2 ^ (e2 - c)
  | _, _ => false
  end.

(** [math.Pow(2, y)] at the integral [y] that [float64(attemptNum)]
    produces: the power of two itself, rounded, so [+Inf] from [2^1024]
    and zero below [2^-1075].  A float64 made from an integer never has a
    negative exponent field; that case is outside what the source can
    reach and yields NaN here. *)
Definition pow2 (y : float64) : float64 :=
  match y with
  | FNaN => FNaN
  | FInf false => FInf false
  | FInf true => FFin 0 0
  | FFin m e => if 0 <=? e then round64 1 (m * 2 ^ e) else FNaN
  end.

(** Truncation towards zero of a finite value. *)
Definition trunc (m e : Z) : Z :=
  if 0 <=? e then m * 2 ^ e else Z.quot m (2 ^ (- e)).

(** [int64(x)].  When the truncated value does not fit, Go leaves the
    result to the implementation; [oor] is that choice. *)
Definition to_int64 (oor : float64 -> Z) (x : float64) : Z :=
  match x with
  | FFin m e =>
      let t := trunc m e in
      if Int64.in_rangeb t then t else oor x
  | _ => oor x
  end.

(** The two behaviours of the main targets: amd64 yields the "integer
    indefinite" value, arm64 saturates and sends NaN to zero. *)
Definition oor_amd64 (x : float64) : Z := Int64.min_int.

Definition oor_arm64 (x : float64) : Z :=
  match x with
  | FNaN => 0
  | FInf neg => if neg then Int64.min_int else Int64.max_int
  | FFin m _ => if m <? 0 then Int64.min_int else Int64.max_int
  end.

(** A well-formed finite float64: at most 53 significant bits, exponent
    field within the binary64 range. *)
Definition finite64 (m e : Z) : Prop :=
  Z.abs m < 2 ^ 53 /\ -1074 <= e /\ (m <> 0 -> Z.log2 (Z.abs m) + e < 1024).

End F64.
Export F64(float64, FNaN, FInf, FFin).

(** ** Responses *)

Definition loc := nat.

(** [http.Response], as far as the package looks at it: the status code
    and the body, a handle on a stream owned by the transport. *)
Record Response : Type := mkResponse {
  StatusCode : Z;
  RespBody : loc;
}.

(** ** Backoff policies (client.go, 363-411) *)

Section Backoff.

Variable oor : float64 -> Z.

(** [DefaultBackoff]. *)
Definition DefaultBackoff (min max : Z) (attemptNum : Z)
    (resp : option Response) : Z :=
  let mult := F64.mul (F64.pow2 (F64.of_int attemptNum)) (F64.of_int min) in
  let sleep := F64.to_int64 oor mult in
  if negb (F64.eqb (F64.of_int sleep) mult) || (max <? sleep)
  then max
  else sleep.

(** [LinearJitterBackoff].  The source seeds a generator from the clock
    and draws [rand.Float64()]; the draw is the argument [rnd]. *)
Definition LinearJitterBackoff (rnd : float64) (min max : Z)
    (attemptNum : Z) (resp : option Response) : Z :=
  let attemptNum := Int64.add attemptNum 1 in
  if max <=? min then
    Int64.mul min attemptNum
  else
    let jitter := F64.mul rnd (F64.of_int (Int64.sub max min)) in
    let jitterMin := Int64.add (F64.to_int64 oor jitter) min in
    Int64.mul jitterMin attemptNum.

End Backoff.

(** ** Contexts and the default retry policy (client.go, 341-361) *)

(** What the policy reads of a [context.Context]: the value of [Err()]
    when the policy runs.  [Err] is stable once it is non-nil, so the two
    reads in the source see the same value. *)
Record Context : Type := mkContext {
  ctx_Err : option error;
}.

(** [DefaultRetryPolicy].  With neither a cancellation nor an error the
    source dereferences [resp]; a nil response panics there. *)
Definition DefaultRetryPolicy (ctx : Context) (resp : option Response)
    (err : option error) : res (bool * option error) :=
  match ctx_Err ctx with
  | Some _ => Val (false, ctx_Err ctx)
  | None =>
      match err with
      | Some _ => Val (true, err)
      | None =>
          match resp with
          | None => Panic
          | Some r =>
              if (StatusCode r =? 0)
                 || ((500 <=? StatusCode r) && negb (StatusCode r =? 501))
              then Val (true, None)
              else Val (false, None)
          end
      end
  end.

(** ** Readers

    An [io.Reader] value is a reference to a stream object together with
    what its dynamic type offers to a type assertion, or the wrapper made
    by [ioutil.NopCloser] over another reader or over nil. *)

Record caps : Type := mkCaps {
  is_Closer : bool;
  is_LenReader : bool;
}.

Inductive Reader : Type :=
| Direct (l : loc) (k : caps)
| NopCloser (r : Reader)
| NopCloserNil.

(** [_, ok := r.(io.ReadCloser)] *)
Definition is_ReadCloser (r : Reader) : bool :=
  match r with
  | Direct _ k => is_Closer k
  | NopCloser _ | NopCloserNil => true
  end.

(** Handles on contexts: a root context, or one derived with
    [context.WithValue], which shares the cancellation of its parent. *)
Inductive Ctx : Type :=
| CtxRoot (id : nat)
| CtxWithValue (parent : Ctx) (key : string) (val : nat).

Definition context_Background : Ctx := CtxRoot 0.

(** A collaborator call: it reads and changes the outside world, and
    returns or panics. *)
Definition ext (W A : Type) : Type := W -> res A * W.

Definition pure_call {W A : Type} (r : res A) : ext W A := fun w => (r, w).

(** ** Requests, configuration and client (client.go, 58-339) *)

Inductive Logger : Type :=
| nlogger_New (prefix : string)
| UserLogger (id : nat).

Definition defaultRetryWaitMin : Z := 1 * Second.
Definition defaultRetryWaitMax : Z := 30 * Second.
Definition defaultRetryMax : Z := 4.
Definition respReadLimit : Z := 4096.

Section Types.

Variable W : Type.

(** [ReaderFunc]: [func() (io.Reader, error)]. *)
Definition ReaderFunc : Type := ext W (option Reader * option error).

(** The embedded [*http.Request]. *)
Record HttpRequest : Type := mkHttpRequest {
  Method : string;
  URL : string;
  ReqContext : Ctx;
  Body : option Reader;
  ContentLength : Z;
}.

(** A [Request] as [NewRequest] builds it, with its [http.Request].  A
    pointer to a [Request] is an [option]: [None] is the nil pointer, and
    stands also for a [Request] whose [http.Request] is nil, on which
    [Context()] dereferences nil all the same. *)
Record Request : Type := mkRequest {
  body : option ReaderFunc;
  Request_ : HttpRequest;
}.

(** [Request.WithContext] *)
Definition WithContext (r : Request) (ctx : Ctx) : Request :=
  {| body := body r;
     Request_ :=
       {| Method := Method (Request_ r); URL := URL (Request_ r);
          ReqContext := ctx; Body := Body (Request_ r);
          ContentLength := ContentLength (Request_ r) |} |}.

Definition with_Body (h : HttpRequest) (b : option Reader) : HttpRequest :=
  {| Method := Method h; URL := URL h; ReqContext := ReqContext h;
     Body := b; ContentLength := ContentLength h |}.

(** [http.Client.Do] *)
Definition HttpClient : Type :=
  HttpRequest -> ext W (option Response * option error).

(** A function from request pointer to request pointer: either may be
    nil. *)
Definition RequestModifier : Type := option Request -> ext W (option Request).
Definition RequestLogHook : Type := Logger -> HttpRequest -> Z -> ext W unit.
Definition ResponseLogHook : Type := Logger -> option Response -> ext W unit.
Definition CheckRetry : Type :=
  Ctx -> option Response -> option error -> ext W (bool * option error).
Definition Backoff : Type := Z -> Z -> Z -> option Response -> ext W Z.
Definition ErrorHandler : Type :=
  option Response -> option error -> Z ->
  ext W (option Response * option error).

Record Config : Type := mkConfig {
  Metrics : bool;
  RetryMax : Z;
  RetryWaitMin : Z;
  RetryWaitMax : Z;
  Logger_ : option Logger;
  HttpClient_ : option HttpClient;
  RequestModifier_ : option RequestModifier;
  RequestLogHook_ : option RequestLogHook;
  ResponseLogHook_ : option ResponseLogHook;
  CheckRetry_ : option CheckRetry;
  Backoff_ : option Backoff;
  ErrorHandler_ : option ErrorHandler;
}.

(** [Client]: the configuration and whether metrics were set up. *)
Record Client : Type := mkClient {
  Config_ : Config;
  metrics : bool;
}.

(** What the package takes from elsewhere. *)
Record Env : Type := mkEnv {
  (** [ctx.Err()] of a root context, in the current world *)
  root_Err : nat -> W -> option error;
  (** [ntracing.NewChildSpanFromContext] *)
  NewChildSpanFromContext : Ctx -> string -> option nat;
  (** [time.Sleep] *)
  time_Sleep : Z -> W -> W;
  (** [io.Copy(ioutil.Discard, io.LimitReader(body, n))] on a response body *)
  body_discard : loc -> Z -> W -> option error * W;
  (** [Close] of a response body *)
  body_Close : loc -> W -> W;
  (** [cleanhttp.DefaultClient()] *)
  cleanhttp_DefaultClient : HttpClient;
  (** [initMetrics], defined outside client.go *)
  initMetrics : W -> option error * W;
  (** out-of-range float64 to int64 conversion of the platform *)
  float_oor : float64 -> Z;
}.

Variable env : Env.

Fixpoint ctx_now (c : Ctx) (w : W) : Context :=
  match c with
  | CtxRoot id => {| ctx_Err := root_Err env id w |}
  | CtxWithValue p _ _ => ctx_now p w
  end.

(** The package's policies as values of the callback types. *)
Definition DefaultRetryPolicy_cb : CheckRetry :=
  fun ctx resp err w => (DefaultRetryPolicy (ctx_now ctx w) resp err, w).

Definition DefaultBackoff_cb : Backoff :=
  fun min max n resp =>
    pure_call (Val (DefaultBackoff (float_oor env) min max n resp)).

Definition LinearJitterBackoff_cb (draw : W -> float64 * W) : Backoff :=
  fun min max n resp w =>
    let '(rnd, w') := draw w in
    (Val (LinearJitterBackoff (float_oor env) rnd min max n resp), w').

(** [PassthroughErrorHandler] *)
Definition PassthroughErrorHandler : ErrorHandler :=
  fun resp err _ => pure_call (Val (resp, err)).

(** [Config.init]: the statements of the source in their order. *)
Definition Config_init (c : Config) : Config :=
  let logger :=
    match Logger_ c with
    | None => Some (nlogger_New "[HTTP CLIENT]")
    | l => l
    end in
  let client :=
    match HttpClient_ c with
    | None => Some (cleanhttp_DefaultClient env)
    | h => h
    end in
  let waitMin :=
    if RetryMax c <=? 0 then defaultRetryWaitMin else RetryWaitMin c in
  let waitMax :=
    if RetryWaitMax c <=? 0 then defaultRetryWaitMax else RetryWaitMax c in
  let check :=
    match CheckRetry_ c with
    | None => Some DefaultRetryPolicy_cb
    | p => p
    end in
  let backoff :=
    match Backoff_ c with
    | None => Some DefaultBackoff_cb
    | b => b
    end in
  let retryMax :=
    if RetryMax c <=? 0 then defaultRetryMax else RetryMax c in
  {| Metrics := Metrics c;
     RetryMax := retryMax;
     RetryWaitMin := waitMin;
     RetryWaitMax := waitMax;
     Logger_ := logger;
     HttpClient_ := client;
     RequestModifier_ := RequestModifier_ c;
     RequestLogHook_ := RequestLogHook_ c;
     ResponseLogHook_ := ResponseLogHook_ c;
     CheckRetry_ := check;
     Backoff_ := backoff;
     ErrorHandler_ := ErrorHandler_ c |}.

(** [New] *)
Definition New (c : Config) (w : W) : (Client + error) * W :=
  let c := Config_init c in
  if Metrics c then
    match initMetrics env w with
    | (Some e, w') => (inr e, w')
    | (None, w') => (inl {| Config_ := c; metrics := true |}, w')
    end
  else (inl {| Config_ := c; metrics := false |}, w).

End Types.

Arguments mkRequest {W}.
Arguments body {W}.
Arguments Request_ {W}.
Arguments WithContext {W}.
Arguments mkConfig {W}.
Arguments Metrics {W}.
Arguments RetryMax {W}.
Arguments RetryWaitMin {W}.
Arguments RetryWaitMax {W}.
Arguments Logger_ {W}.
Arguments HttpClient_ {W}.
Arguments RequestModifier_ {W}.
Arguments RequestLogHook_ {W}.
Arguments ResponseLogHook_ {W}.
Arguments CheckRetry_ {W}.
Arguments Backoff_ {W}.
Arguments ErrorHandler_ {W}.
Arguments mkClient {W}.
Arguments Config_ {W}.
Arguments metrics {W}.
Arguments mkEnv {W}.
Arguments root_Err {W}.
Arguments NewChildSpanFromContext {W}.
Arguments time_Sleep {W}.
Arguments body_discard {W}.
Arguments body_Close {W}.
Arguments cleanhttp_DefaultClient {W}.
Arguments initMetrics {W}.
Arguments float_oor {W}.
Arguments ctx_now {W}.
Arguments DefaultRetryPolicy_cb {W}.
Arguments DefaultBackoff_cb {W}.
Arguments LinearJitterBackoff_cb {W}.
Arguments PassthroughErrorHandler {W}.
Arguments Config_init {W}.
Arguments New {W}.

(** ** The store of payload objects

    Request bodies are built over objects the caller owns: byte arrays,
    [bytes.Buffer]s, [bytes.Reader]s and arbitrary streams.  The body
    functions made by [NewRequest] keep references to them, so the
    objects live in a store and readers alias them. *)

Definition byte := Byte.byte.

(** A [[]byte]: a window on a stored array. *)
Record slice : Type := mkSlice {
  base : loc;
  lo : nat;
  len : nat;
}.

(** Any other implementation of [io.Reader] (a file, a pipe, a
    [strings.Reader]): its bytes, the read position, the error [Read]
    reports after the last byte in place of [io.EOF], whether [Seek]
    works, and whether it was closed. *)
Record stream : Type := mkStream {
  s_data : list byte;
  s_pos : nat;
  s_err : option error;
  s_seekable : bool;
  s_closed : bool;
}.

Inductive obj : Type :=
| OArray (data : list byte)
| OBuffer (buf : list byte) (off : nat)
| OBytesReader (s : slice) (i : nat)
| OStream (g : stream).

Definition heap : Type := gmap loc obj.

Definition ErrClosed : error := Err "read on closed stream".

Module Store.

(** The bytes a location stores, for arrays and buffers. *)
Definition storage (h : heap) (l : loc) : list byte :=
  match h !! l with
  | Some (OArray d) => d
  | Some (OBuffer b _) => b
  | _ => []
  end.

Definition slice_bytes (h : heap) (s : slice) : list byte :=
  take (len s) (drop (lo s) (storage h (base s))).

Definition alloc (o : obj) (h : heap) : loc * heap :=
  let l := fresh (dom h) in (l, <[l := o]> h).

Definition bytesReaderCaps : caps :=
  {| is_Closer := false; is_LenReader := true |}.

(** [bytes.NewReader(b)] *)
Definition bytes_NewReader (b : slice) (h : heap) : Reader * heap :=
  let '(l, h') := alloc (OBytesReader b 0) h in
  (Direct l bytesReaderCaps, h').

(** [buf.Bytes()] and [buf.Len()] of a [bytes.Buffer] *)
Definition Buffer_Bytes (l : loc) (h : heap) : option slice :=
  match h !! l with
  | Some (OBuffer b off) =>
      Some {| base := l; lo := off; len := length b - off |}
  | _ => None
  end.

(** What is left to read at a location, and the error that ends it. *)
Definition remaining (h : heap) (l : loc) : list byte * option error :=
  match h !! l with
  | Some (OBytesReader s i) => (drop i (slice_bytes h s), None)
  | Some (OBuffer b off) => (drop off b, None)
  | Some (OStream g) =>
      if s_closed g then ([], Some ErrClosed)
      else (drop (s_pos g) (s_data g), s_err g)
  | _ => ([], None)
  end.

(** Moving the read position [n] bytes on, at most to the end. *)
Definition advance (l : loc) (n : nat) (h : heap) : heap :=
  match h !! l with
  | Some (OBytesReader s i) =>
      <[l := OBytesReader s (Nat.min (i + n) (len s))]> h
  | Some (OBuffer b off) =>
      <[l := OBuffer b (Nat.min (off + n) (length b))]> h
  | Some (OStream g) =>
      if s_closed g then h
      else <[l := OStream {| s_data := s_data g;
                            s_pos := Nat.min (s_pos g + n) (length (s_data g));
                            s_err := s_err g;
                            s_seekable := s_seekable g;
                            s_closed := false |}]> h
  | _ => h
  end.

(** [ioutil.ReadAll] on the object at [l]; a dangling reference is a nil
    dereference. *)
Definition ReadAll (l : loc) (h : heap)
    : res (list byte * option error) * heap :=
  match h !! l with
  | Some (OArray _) | None => (Panic, h)
  | Some _ =>
      let out := remaining h l in
      (Val out, advance l (length (fst out)) h)
  end.

(** [Len()] of a reader that has it: the unread bytes. *)
Definition Len (h : heap) (l : loc) : Z :=
  Z.of_nat (length (fst (remaining h l))).

(** [raw.Seek(0, 0)]; the source drops the result. *)
Definition Seek0 (l : loc) (h : heap) : heap :=
  match h !! l with
  | Some (OBytesReader s _) => <[l := OBytesReader s 0]> h
  | Some (OStream g) =>
      if s_seekable g && negb (s_closed g) then
        <[l := OStream {| s_data := s_data g; s_pos := 0; s_err := s_err g;
                          s_seekable := true; s_closed := false |}]> h
      else h
  | _ => h
  end.

(** [Close()] through an interface value. *)
Definition Close (r : Reader) (h : heap) : heap :=
  match r with
  | NopCloser _ | NopCloserNil => h
  | Direct l k =>
      match h !! l with
      | Some (OStream g) =>
          if is_Closer k then
            <[l := OStream {| s_data := s_data g; s_pos := s_pos g;
                              s_err := s_err g; s_seekable := s_seekable g;
                              s_closed := true |}]> h
          else h
      | _ => h
      end
  end.

(** The object a reader value reads from. *)
Fixpoint target (r : Reader) : option loc :=
  match r with
  | Direct l _ => Some l
  | NopCloser r' => target r'
  | NopCloserNil => None
  end.

(** What a consumer gets from reader [r] when it reads it to the end in
    store [h]. *)
Definition content (h : heap) (r : Reader) : list byte * option error :=
  match target r with
  | Some l => remaining h l
  | None => ([], None)
  end.

(** Reading [n] bytes through a reader value. *)
Definition Read (r : Reader) (n : nat) (h : heap) : heap :=
  match target r with
  | Some l => advance l n h
  | None => h
  end.

End Store.

(** ** NewRequest (client.go, 107-207) *)

(** The dynamic type of [rawBody], in the order of the type switch. *)
Inductive payload : Type :=
| PReaderFunc (f : ReaderFunc heap)
| PFunc (f : ReaderFunc heap)
| PBytes (s : slice)
| PBuffer (l : loc)
| PBytesReader (l : loc)
| PReadSeeker (l : loc) (k : caps)
| PReader (l : loc) (k : caps)
| POther (type : string).

Section NewRequest.

(** [http.NewRequest(method, url, nil)]: validation of the method and
    parsing of the URL belong to net/http. *)
Variable http_NewRequest : string -> string -> HttpRequest + error.

Definition set_ContentLength (h : HttpRequest) (n : Z) : HttpRequest :=
  {| Method := Method h; URL := URL h; ReqContext := ReqContext h;
     Body := Body h; ContentLength := n |}.

(** The closure of the [[]byte], [*bytes.Reader] and [io.Reader] cases. *)
Definition body_of_slice (buf : slice) : ReaderFunc heap :=
  fun h =>
    let '(r, h') := Store.bytes_NewReader buf h in
    (Val (Some r, None), h').

(** The closure of the [*bytes.Buffer] case. *)
Definition body_of_Buffer (buf : loc) : ReaderFunc heap :=
  fun h =>
    match Store.Buffer_Bytes buf h with
    | Some b =>
        let '(r, h') := Store.bytes_NewReader b h in
        (Val (Some r, None), h')
    | None => (Panic, h)
    end.

(** The closure of the [io.ReadSeeker] case. *)
Definition body_of_ReadSeeker (raw : loc) (k : caps) : ReaderFunc heap :=
  fun h =>
    let h' := Store.Seek0 raw h in
    (Val (Some (NopCloser (Direct raw k)), None), h').

(** The probe of a caller's function: call it once, take the length if
    the stream has one, close the stream if it can be closed. *)
Definition probe (f : ReaderFunc heap) (h : heap)
    : res (Z + error) * heap :=
  match f h with
  | (Panic, h') => (Panic, h')
  | (Val (_, Some err), h') => (Val (inr err), h')
  | (Val (tmp, None), h') =>
      let contentLength :=
        match tmp with
        | Some (Direct l k) => if is_LenReader k then Store.Len h' l else 0
        | _ => 0
        end in
      let h'' :=
        match tmp with
        | Some r => if is_ReadCloser r then Store.Close r h' else h'
        | None => h'
        end in
      (Val (inl contentLength), h'')
  end.

(** Reading a one-shot payload into a fresh array. *)
Definition buffer_all (l : loc) (h : heap) : res (slice + error) * heap :=
  match Store.ReadAll l h with
  | (Panic, h') => (Panic, h')
  | (Val (_, Some err), h') => (Val (inr err), h')
  | (Val (data, None), h') =>
      let '(a, h'') := Store.alloc (OArray data) h' in
      (Val (inl {| base := a; lo := 0; len := length data |}), h'')
  end.

(** The type switch: the body function and the content length, or the
    error returned. *)
Definition classify (rawBody : option payload) (h : heap)
    : res ((option (ReaderFunc heap) * Z) + error) * heap :=
  match rawBody with
  | None => (Val (inl (None, 0)), h)
  | Some (PReaderFunc f) | Some (PFunc f) =>
      match probe f h with
      | (Panic, h') => (Panic, h')
      | (Val (inr err), h') => (Val (inr err), h')
      | (Val (inl n), h') => (Val (inl (Some f, n)), h')
      end
  | Some (PBytes buf) =>
      (Val (inl (Some (body_of_slice buf), Z.of_nat (len buf))), h)
  | Some (PBuffer buf) =>
      match Store.Buffer_Bytes buf h with
      | Some b => (Val (inl (Some (body_of_Buffer buf), Z.of_nat (len b))), h)
      | None => (Panic, h)
      end
  | Some (PBytesReader l) | Some (PReader l _) =>
      match buffer_all l h with
      | (Panic, h') => (Panic, h')
      | (Val (inr err), h') => (Val (inr err), h')
      | (Val (inl buf), h') =>
          (Val (inl (Some (body_of_slice buf), Z.of_nat (len buf))), h')
      end
  | Some (PReadSeeker raw k) =>
      let contentLength := if is_LenReader k then Store.Len h raw else 0 in
      (Val (inl (Some (body_of_ReadSeeker raw k), contentLength)), h)
  | Some (POther type) =>
      (Val (inr (Err ("cannot handle type " ++ type))), h)
  end.

Definition NewRequest (method url : string) (rawBody : option payload)
    (h : heap) : res (Request heap + error) * heap :=
  match classify rawBody h with
  | (Panic, h') => (Panic, h')
  | (Val (inr err), h') => (Val (inr err), h')
  | (Val (inl (body, contentLength)), h') =>
      match http_NewRequest method url with
      | inr err => (Val (inr err), h')
      | inl httpReq =>
          (Val (inl {| body := body;
                       Request_ := set_ContentLength httpReq contentLength |}),
           h')
      end
  end.

(** [Request.BodyBytes] *)
Definition BodyBytes (r : Request heap) (h : heap)
    : res (option (list byte) * option error) * heap :=
  match body r with
  | None => (Val (None, None), h)
  | Some f =>
      match f h with
      | (Panic, h') => (Panic, h')
      | (Val (_, Some err), h') => (Val (None, Some err), h')
      | (Val (None, None), h') => (Panic, h')
      | (Val (Some rd, None), h') =>
          match Store.content h' rd with
          | (_, Some err) =>
              (Val (None, Some err),
               Store.Read rd (length (fst (Store.content h' rd))) h')
          | (data, None) => (Val (Some data, None), Store.Read rd (length data) h')
          end
      end
  end.

End NewRequest.

(** ** Client.Do (client.go, 420-592)

    [Do] runs against the outside world [W] through its collaborators and
    leaves a trace of what it called, in order. *)

Inductive counter : Type :=
| doTotal | doRetries | doSuccess | doFailure | doRetriesFailure.

Inductive histogram : Type :=
| doDuration | doRetryDuration.

Inductive event : Type :=
| EvInc (c : counter)
| EvNewTimer (h : histogram)
| EvObserveDuration (h : histogram)
| EvSpanFinish (span : nat)
| EvDebug (msg : string)
| EvError (msg : string)
| EvRequestModifier
| EvBody (i : Z)
| EvRequestLogHook (i : Z)
| EvTransport (i : Z)
| EvCheckRetry (i : Z)
| EvResponseLogHook (i : Z)
| EvDiscard (b : loc) (limit : Z)
| EvClose (b : loc)
| EvBackoff (i : Z)
| EvSleep (d : Z)
| EvErrorHandler (numTries : Z).

Definition is_transport (e : event) : bool :=
  match e with EvTransport _ => true | _ => false end.

Definition is_check (e : event) : bool :=
  match e with EvCheckRetry _ => true | _ => false end.

Definition is_body (e : event) : bool :=
  match e with EvBody _ => true | _ => false end.

Definition is_wait (e : event) : bool :=
  match e with EvBackoff _ | EvSleep _ => true | _ => false end.

Definition is_handler (e : event) : bool :=
  match e with EvErrorHandler _ => true | _ => false end.

Definition count (p : event -> bool) (t : list event) : nat :=
  length (List.filter p t).

Section Do.

Variable W : Type.
Variable env : Env W.

Record State : Type := mkState {
  world : W;
  trace : list event;
}.

Inductive outcome (A : Type) : Type :=
| Ok (a : A) (s : State)
| Panicked (s : State)
| OutOfFuel.
Arguments Ok {A} a s.
Arguments Panicked {A} s.
Arguments OutOfFuel {A}.

Definition M (A : Type) : Type := State -> outcome A.

Definition ret {A : Type} (a : A) : M A := fun s => Ok a s.

Definition bind {A B : Type} (m : M A) (k : A -> M B) : M B :=
  fun s =>
    match m s with
    | Ok a s' => k a s'
    | Panicked s' => Panicked s'
    | OutOfFuel => OutOfFuel
    end.

Notation "'let*' x := m 'in' k" := (bind m (fun x => k))
  (at level 10, x pattern, m at level 100, k at level 200).
Notation "m ;;; k" := (bind m (fun _ => k))
  (at level 100, right associativity).

Definition emit (e : event) : M unit :=
  fun s => Ok tt {| world := world s; trace := trace s ++ [e] |}.

Definition panic {A : Type} : M A := fun s => Panicked s.

(** A call of a collaborator, recorded as [e]. *)
Definition call {A : Type} (e : event) (f : ext W A) : M A :=
  fun s =>
    let s1 := {| world := world s; trace := trace s ++ [e] |} in
    match f (world s) with
    | (Val a, w) => Ok a {| world := w; trace := trace s1 |}
    | (Panic, w) => Panicked {| world := w; trace := trace s1 |}
    end.

(** An effect of the runtime or of a library that returns. *)
Definition effect {A : Type} (e : event) (f : W -> A * W) : M A :=
  fun s =>
    let '(a, w) := f (world s) in
    Ok a {| world := w; trace := trace s ++ [e] |}.

Definition when (b : bool) (m : M unit) : M unit :=
  if b then m else ret tt.

(** [defer]: the event is recorded when the body returns or panics. *)
Definition defer {A : Type} (e : event) (m : M A) : M A :=
  fun s =>
    match m s with
    | Ok a s' => Ok a {| world := world s'; trace := trace s' ++ [e] |}
    | Panicked s' => Panicked {| world := world s'; trace := trace s' ++ [e] |}
    | OutOfFuel => OutOfFuel
    end.

(** [defer f()] where [f] acts on the world: it runs when the body
    returns or panics. *)
Definition defer_effect {A : Type} (e : event) (f : W -> W) (m : M A) : M A :=
  fun s =>
    match m s with
    | Ok a s' => Ok a {| world := f (world s'); trace := trace s' ++ [e] |}
    | Panicked s' =>
        Panicked {| world := f (world s'); trace := trace s' ++ [e] |}
    | OutOfFuel => OutOfFuel
    end.

(** A pointer that must not be nil when used. *)
Definition deref {A : Type} (o : option A) : M A :=
  match o with
  | Some a => ret a
  | None => panic
  end.

Variable c : Client W.

Definition cfg : Config W := Config_ c.

(** Logger methods; the structured fields are not recorded. *)
Definition Logger_Debug (msg : string) : M unit :=
  deref (Logger_ cfg) ;;; emit (EvDebug msg).

Definition Logger_Error (msg : string) : M unit :=
  deref (Logger_ cfg) ;;; emit (EvError msg).

(** [retryTimer.ObserveDuration(); retryTimer = nil] when it is set. *)
Definition observe_retryTimer (retryTimer : bool) : M unit :=
  when retryTimer (emit (EvObserveDuration doRetryDuration)).

(** [drainBody] (client.go, 583-592) *)
Definition drainBody (b : loc) : M unit :=
  defer_effect (EvClose b) (body_Close env b)
    (let* err := effect (EvDiscard b respReadLimit)
              (body_discard env b respReadLimit) in
     match err with
     | Some e =>
         match Logger_ cfg with
         | Some _ => emit (EvError (Error e))
         | None => ret tt
         end
     | None => ret tt
     end).

(** The [ReadCloser] bound to the outgoing request. *)
Definition as_ReadCloser (b : option Reader) : Reader :=
  match b with
  | Some r => if is_ReadCloser r then r else NopCloser r
  | None => NopCloserNil
  end.

(** How one turn of the loop ends. *)
Inductive control : Type :=
| Return (resp : option Response) (err : option error)
| Break (resp : option Response) (err : option error)
| Continue (hreq : HttpRequest) (resp : option Response) (err : option error).

(** What the first half of a turn yields: the body function failed, or
    the request went out and the policy was asked. *)
Inductive exchanged : Type :=
| BodyFailed (err : error)
| Exchanged (hreq : HttpRequest) (resp : option Response)
    (err : option error) (checkOK : bool) (checkErr : option error).

(** Lines 451-516: metrics of a retry, rewinding the body, the request
    hook, the attempt, the policy, logging and the response hook. *)
Definition exchange (req : Request W) (hreq : HttpRequest) (i : Z)
    (retryTimer : bool) : M exchanged :=
  let* retryTimer := (if metrics c && (0 <? i) then
       (emit (EvNewTimer doRetryDuration) ;;;
        emit (EvInc doRetries) ;;;
        ret true)
     else ret retryTimer) in
  let* rewound := match body req with
    | Some f =>
        let* (b, err) := call (EvBody i) f in
        match err with
        | Some e =>
            observe_retryTimer retryTimer ;;;
            when (metrics c)
              (emit (EvInc doFailure) ;;;
               when (0 <? i) (emit (EvInc doRetriesFailure))) ;;;
            ret (inl e)
        | None => ret (inr (with_Body hreq (Some (as_ReadCloser b))))
        end
    | None => ret (inr hreq)
    end in
  match rewound with
  | inl e => ret (BodyFailed e)
  | inr hreq =>
      match RequestLogHook_ cfg with
      | Some hook =>
          let* l := deref (Logger_ cfg) in
          call (EvRequestLogHook i) (hook l hreq i)
      | None => ret tt
      end ;;;
      let* client := deref (HttpClient_ cfg) in
      let* (resp, err) := call (EvTransport i) (client hreq) in
      let* check := deref (CheckRetry_ cfg) in
      let* (checkOK, checkErr) := call (EvCheckRetry i) (check (ReqContext hreq) resp err) in
      observe_retryTimer retryTimer ;;;
      match err with
      | Some e =>
          when (metrics c && (0 <? i)) (emit (EvInc doRetriesFailure)) ;;;
          Logger_Error (Error e)
      | None =>
          match ResponseLogHook_ cfg with
          | Some hook =>
              let* l := deref (Logger_ cfg) in
              call (EvResponseLogHook i) (hook l resp)
          | None => ret tt
          end
      end ;;;
      ret (Exchanged hreq resp err checkOK checkErr)
  end.

(** Lines 518-563: return, leave the loop, or wait and go round again. *)
Definition decide (i : Z) (hreq : HttpRequest) (resp : option Response)
    (err : option error) (checkOK : bool) (checkErr : option error)
    : M control :=
  if negb checkOK then
    let err := match checkErr with Some _ => checkErr | None => err end in
    when (metrics c)
      (emit (EvInc (if err is Some _ then doFailure else doSuccess))) ;;;
    ret (Return resp err)
  else
    let remain := Int64.sub (RetryMax cfg) i in
    if remain <=? 0 then
      when (metrics c && (if err is Some _ then true else false))
        (emit (EvInc doFailure)) ;;;
      ret (Break resp err)
    else
      match err, resp with
      | None, Some r => drainBody (RespBody r)
      | _, _ => ret tt
      end ;;;
      let* backoff := deref (Backoff_ cfg) in
      let* wait := call (EvBackoff i)
                (backoff (RetryWaitMin cfg) (RetryWaitMax cfg) i resp) in
      Logger_Debug "retrying http request" ;;;
      effect (EvSleep wait) (fun w => (tt, time_Sleep env wait w)) ;;;
      ret (Continue hreq resp err).

(** One turn of the loop, from the values [resp] and [err] hold when it
    starts. *)
Definition turn (req : Request W) (hreq : HttpRequest) (i : Z)
    (resp : option Response) (retryTimer : bool) : M control :=
  let* x := exchange req hreq i retryTimer in
  match x with
  | BodyFailed e => ret (Return resp (Some e))
  | Exchanged hreq resp err checkOK checkErr =>
      decide i hreq resp err checkOK checkErr
  end.

(** After the loop (client.go, 566-580). *)
Definition exhausted (hreq : HttpRequest) (resp : option Response)
    (err : option error) : M (option Response * option error) :=
  match ErrorHandler_ cfg with
  | Some handler =>
      let numTries := Int64.add (RetryMax cfg) 1 in
      call (EvErrorHandler numTries) (handler resp err numTries)
  | None =>
      match resp with
      | Some r =>
          effect (EvClose (RespBody r))
            (fun w => (tt, body_Close env (RespBody r) w))
      | None => ret tt
      end ;;;
      when (metrics c) (emit (EvInc doFailure)) ;;;
      ret (None,
           Some (Err (Method hreq ++ " " ++ URL hreq ++ " giving up after "
                      ++ pretty (Int64.add (RetryMax cfg) 1) ++ " attempts")))
  end.

(** [for i := 0; ; i++].  The source loop has no bound of its own; [fuel]
    counts the turns the model may take. *)
Fixpoint loop (fuel : nat) (req : Request W) (hreq : HttpRequest) (i : Z)
    (resp : option Response) (err : option error)
    : M (option Response * option error) :=
  match fuel with
  | O => fun _ => OutOfFuel
  | S fuel =>
      let* r := turn req hreq i resp false in
      match r with
      | Return resp err => ret (resp, err)
      | Break resp err => exhausted hreq resp err
      | Continue hreq resp err =>
          loop fuel req hreq (Int64.add i 1) resp err
      end
  end.

(** [Do].  The request is a pointer; [req.Context()] is its first use
    and panics on a request that has no context to give. *)
Definition Do (fuel : nat) (req : option (Request W))
    : M (option Response * option error) :=
  (if metrics c then
     fun m => emit (EvInc doTotal) ;;; emit (EvNewTimer doDuration) ;;;
              defer (EvObserveDuration doDuration) m
   else fun m => m)
  (let* req := match RequestModifier_ cfg with
          | Some modify => call EvRequestModifier (modify req)
          | None => ret req
          end in
   let* req := deref req in
   let ctx := ReqContext (Request_ req) in
   let traced (k : Request W -> M (option Response * option error)) :=
     match NewChildSpanFromContext env ctx "HttpClient.Do" with
     | Some span =>
         defer (EvSpanFinish span)
           (k (WithContext req (CtxWithValue ctx "span" span)))
     | None => k req
     end in
   traced (fun req =>
     Logger_Debug "Sending request for method" ;;;
     loop fuel req (Request_ req) 0 None None)).

End Do.

Local Close Scope string_scope.

Arguments mkState {W}.
Arguments world {W}.
Arguments trace {W}.
Arguments Ok {W A}.
Arguments Panicked {W A}.
Arguments OutOfFuel {W A}.
Arguments ret {W A}.
Arguments bind {W A B}.
Arguments emit {W}.
Arguments panic {W A}.
Arguments call {W A}.
Arguments effect {W A}.
Arguments when {W}.
Arguments defer {W A}.
Arguments defer_effect {W A}.
Arguments deref {W A}.
Arguments cfg {W}.
Arguments Logger_Debug {W}.
Arguments Logger_Error {W}.
Arguments observe_retryTimer {W}.
Arguments drainBody {W}.
Arguments exchange {W}.
Arguments decide {W}.
Arguments turn {W}.
Arguments exhausted {W}.
Arguments loop {W}.
Arguments Do {W}.

(** ** Vocabulary of the properties *)

(** The retry condition in the words of the specification: a transport
    error with the context not cancelled, or a status that is 0 or in
    [500, 600) other than 501. *)
Definition spec_shouldRetry (ctx : Context) (resp : option Response)
    (err : option error) : bool :=
  (bool_decide (is_Some err) && negb (bool_decide (is_Some (ctx_Err ctx))))
  || match resp with
     | Some r =>
         (StatusCode r =? 0)
         || ((500 <=? StatusCode r) && (StatusCode r <? 600)
             && negb (StatusCode r =? 501))
     | None => false
     end.

Definition bg : Context := {| ctx_Err := None |}.

Definition status (code : Z) : option Response :=
  Some {| StatusCode := code; RespBody := 0%nat |}.

(** A configuration that sets only [RetryMax]. *)
Definition only_RetryMax {W : Type} (n : Z) : Config W :=
  {| Metrics := false; RetryMax := n; RetryWaitMin := 0; RetryWaitMax := 0;
     Logger_ := None; HttpClient_ := None; RequestModifier_ := None;
     RequestLogHook_ := None; ResponseLogHook_ := None; CheckRetry_ := None;
     Backoff_ := None; ErrorHandler_ := None |}.

(** Events of the state [s'] that came after those of [s]. *)
Definition extends {W : Type} (s s' : State W) (new : list event) : Prop :=
  trace s' = trace s ++ new.

(** [m] always comes to an end, and what it adds to the trace holds at
    most [n] events of kind [p]. *)
Definition adds {W A : Type} (p : event -> bool) (n : nat) (m : M W A) : Prop :=
  forall s,
    match m s with
    | Ok _ s' | Panicked s' =>
        exists new, extends s s' new /\ (count p new <= n)%nat
    | OutOfFuel => False
    end.

(** What the trace of a run may not hold when no attempt is made. *)
Definition quiet (new : list event) : Prop :=
  count is_transport new = 0%nat /\ count is_check new = 0%nat /\
  count is_wait new = 0%nat /\ count is_handler new = 0%nat.


(** The events of the metrics collaborator. *)
Definition is_metric (e : event) : bool :=
  match e with
  | EvInc _ | EvNewTimer _ | EvObserveDuration _ => true
  | _ => false
  end.

(** [overrideError ?? error] *)
Definition override (checkErr err : option error) : option error :=
  match checkErr with
  | Some _ => checkErr
  | None => err
  end.

(** The message of the error returned when the loop gives up. *)
Definition giving_up (method url : string) (attempts : Z) : error :=
  Err (method ++ " " ++ url ++ " giving up after " ++ pretty attempts
       ++ " attempts")%string.

(** ** A test bench

    A world that counts the requests the transport has served, in the
    manner of the end-to-end tests: every request is answered with the
    same status, on a body numbered after the request. *)

Module Bench.

Definition env : Env nat :=
  {| root_Err := fun _ _ => None;
     NewChildSpanFromContext := fun _ _ => None;
     time_Sleep := fun _ w => w;
     body_discard := fun _ _ w => (None, w);
     body_Close := fun _ w => w;
     cleanhttp_DefaultClient :=
       fun _ w => (Val (None, Some (Err "no transport")), w);
     initMetrics := fun w => (None, w);
     float_oor := F64.oor_amd64 |}.

Definition always (code : Z) : HttpClient nat :=
  fun _ w => (Val (Some {| StatusCode := code; RespBody := S w |}, None), S w).

Definition config (code retryMax : Z)
    (handler : option (ErrorHandler nat)) : Config nat :=
  {| Metrics := false; RetryMax := retryMax;
     RetryWaitMin := 0; RetryWaitMax := 0;
     Logger_ := None; HttpClient_ := Some (always code);
     RequestModifier_ := None; RequestLogHook_ := None;
     ResponseLogHook_ := None; CheckRetry_ := None; Backoff_ := None;
     ErrorHandler_ := handler |}.

(** A client as [New] makes it. *)
Definition client (code retryMax : Z)
    (handler : option (ErrorHandler nat)) : Client nat :=
  {| Config_ := Config_init env (config code retryMax handler);
     metrics := false |}.

Definition answer (code : Z) (n : nat) : option Response :=
  Some {| StatusCode := code; RespBody := n |}.

Definition get_x : HttpRequest :=
  {| Method := "GET"; URL := "http://x/"; ReqContext := context_Background;
     Body := None; ContentLength := 0 |}.

Definition get : Request nat := {| body := None; Request_ := get_x |}.

(** A body function that works until the first request was served. *)
Definition once : ReaderFunc nat :=
  fun w =>
    match w with
    | O => (Val (Some NopCloserNil, None), w)
    | S _ => (Val (None, Some (Err "payload gone")), w)
    end.

Definition post : Request nat := {| body := Some once; Request_ := get_x |}.

Definition start (w : nat) : State nat := {| world := w; trace := [] |}.

(** The state after the third exchange of [get] on a 503 transport. *)
Definition after_third_exchange : State nat :=
  {| world := 3%nat; trace := [EvTransport 2; EvCheckRetry 2] |}.

End Bench.

(** More of the bench: a transport that refuses every connection, behind
    a client with metrics on. *)
Module Bench2.

Definition refuse : HttpClient nat :=
  fun _ w => (Val (None, Some (Err "connection refused")), S w).

Definition down : Client nat :=
  {| Config_ :=
       Config_init Bench.env
         {| Metrics := true; RetryMax := 1;
            RetryWaitMin := 0; RetryWaitMax := 0;
            Logger_ := None; HttpClient_ := Some refuse;
            RequestModifier_ := None; RequestLogHook_ := None;
            ResponseLogHook_ := None; CheckRetry_ := None; Backoff_ := None;
            ErrorHandler_ := None |};
     metrics := true |}.

(** A transport that answers 503 every time, behind a client with
    metrics on and [PassthroughErrorHandler]. *)
Definition busy : Client nat :=
  {| Config_ :=
       Config_init Bench.env
         {| Metrics := true; RetryMax := 1;
            RetryWaitMin := 0; RetryWaitMax := 0;
            Logger_ := None; HttpClient_ := Some (Bench.always 503);
            RequestModifier_ := None; RequestLogHook_ := None;
            ResponseLogHook_ := None; CheckRetry_ := None; Backoff_ := None;
            ErrorHandler_ := Some PassthroughErrorHandler |};
     metrics := true |}.

(** The state after the second exchange of [Bench.get] with [busy]. *)
Definition after_second_503 : State nat :=
  {| world := 2%nat;
     trace := [EvNewTimer doRetryDuration; EvInc doRetries; EvTransport 1;
               EvCheckRetry 1; EvObserveDuration doRetryDuration] |}.

(** The state after the second exchange of [Bench.get] with [down]. *)
Definition after_second_refusal : State nat :=
  {| world := 2%nat;
     trace := [EvNewTimer doRetryDuration; EvInc doRetries; EvTransport 1;
               EvCheckRetry 1; EvObserveDuration doRetryDuration;
               EvInc doRetriesFailure; EvError "connection refused"] |}.

End Bench2.

(** A bench whose world keeps books: how many requests were served,
    which bodies were read by [drainBody] and which were closed, latest
    first. *)
Module Ledger.

Record books : Type := mkBooks {
  served : nat;
  drained : list loc;
  closed : list loc;
}.

Definition env : Env books :=
  {| root_Err := fun _ _ => None;
     NewChildSpanFromContext := fun _ _ => None;
     time_Sleep := fun _ w => w;
     body_discard := fun b _ w =>
       (None, {| served := served w; drained := b :: drained w;
                 closed := closed w |});
     body_Close := fun b w =>
       {| served := served w; drained := drained w;
          closed := b :: closed w |};
     cleanhttp_DefaultClient :=
       fun _ w => (Val (None, Some (Err "no transport")), w);
     initMetrics := fun w => (None, w);
     float_oor := F64.oor_amd64 |}.

Definition serve (w : books) : books :=
  {| served := S (served w); drained := drained w; closed := closed w |}.

(** Every request is answered with status [code] on a fresh body. *)
Definition always (code : Z) : HttpClient books :=
  fun _ w =>
    (Val (Some {| StatusCode := code; RespBody := S (served w) |}, None),
     serve w).

(** A transport that hands back a response together with an error. *)
Definition torn : HttpClient books :=
  fun _ w =>
    (Val (Some {| StatusCode := 302; RespBody := S (served w) |},
          Some (Err "redirect refused")),
     serve w).

(** A client as [New] makes it from a transport and [RetryMax]. *)
Definition client (transport : HttpClient books) (retryMax : Z)
    : Client books :=
  {| Config_ :=
       Config_init env
         {| Metrics := false; RetryMax := retryMax;
            RetryWaitMin := 0; RetryWaitMax := 0;
            Logger_ := None; HttpClient_ := Some transport;
            RequestModifier_ := None; RequestLogHook_ := None;
            ResponseLogHook_ := None; CheckRetry_ := None; Backoff_ := None;
            ErrorHandler_ := None |};
     metrics := false |}.

(** A body function that works until the first request was served. *)
Definition once : ReaderFunc books :=
  fun w =>
    match served w with
    | O => (Val (Some NopCloserNil, None), w)
    | S _ => (Val (None, Some (Err "payload gone")), w)
    end.

Definition post : Request books :=
  {| body := Some once; Request_ := Bench.get_x |}.

Definition get : Request books :=
  {| body := None; Request_ := Bench.get_x |}.

Definition start : State books :=
  {| world := {| served := 0; drained := []; closed := [] |}; trace := [] |}.

End Ledger.

(** ** Vocabulary of further properties *)

Definition is_sleep (e : event) : bool :=
  match e with EvSleep _ => true | _ => false end.

Definition is_close (e : event) : bool :=
  match e with EvClose _ => true | _ => false end.

(** A collaborator call that returns, whatever the world. *)
Definition returns {W A : Type} (f : ext W A) : Prop :=
  forall w, exists a w', f w = (Val a, w').

(** A request whose body function returns. *)
Definition body_returns {W : Type} (r : Request W) : Prop :=
  forall f, body r = Some f -> returns f.

(** A client whose mandatory fields are set and whose callbacks return:
    the transport always, the policy on whatever the transport
    answered, the backoff, the hooks, the modifier (given a request it
    returns a request, not nil, whose body function returns when the
    given one's does) and the error handler. *)
Record polite {W : Type} (c : Client W) : Prop := mkPolite {
  polite_Logger : is_Some (Logger_ (cfg c));
  polite_HttpClient :
    exists client, HttpClient_ (cfg c) = Some client /\
      forall h, returns (client h);
  polite_CheckRetry :
    exists check, CheckRetry_ (cfg c) = Some check /\
      forall client h w r e w',
        HttpClient_ (cfg c) = Some client ->
        client h w = (Val (r, e), w') ->
        forall w1, exists v w2, check (ReqContext h) r e w1 = (Val v, w2);
  polite_Backoff :
    exists backoff, Backoff_ (cfg c) = Some backoff /\
      forall min max i r, returns (backoff min max i r);
  polite_RequestLogHook :
    forall hook, RequestLogHook_ (cfg c) = Some hook ->
      forall l h i, returns (hook l h i);
  polite_ResponseLogHook :
    forall hook, ResponseLogHook_ (cfg c) = Some hook ->
      forall l r, returns (hook l r);
  polite_RequestModifier :
    forall modify, RequestModifier_ (cfg c) = Some modify ->
      forall r, returns (modify (Some r)) /\
        forall w r' w', modify (Some r) w = (Val r', w') ->
          body_returns r -> exists q, r' = Some q /\ body_returns q;
  polite_ErrorHandler :
    forall handler, ErrorHandler_ (cfg c) = Some handler ->
      forall r e n, returns (handler r e n);
}.

(** [m] always ends; [Q] holds of its result ([None] when it panics) and
    of the events it added. *)
Definition post {W A : Type} (m : M W A)
    (Q : option A -> list event -> Prop) : Prop :=
  forall s,
    match m s with
    | Ok a s' => exists new, extends s s' new /\ Q (Some a) new
    | Panicked s' => exists new, extends s s' new /\ Q None new
    | OutOfFuel => False
    end.

(** Events with neither a transport call nor a sleep. *)
Definition still (new : list event) : Prop :=
  count is_transport new = 0%nat /\ count is_sleep new = 0%nat.

(** What [Do] records outside its loop. *)
Definition is_wrapper (e : event) : bool :=
  match e with
  | EvInc _ | EvNewTimer _ | EvObserveDuration _ | EvSpanFinish _
  | EvDebug _ | EvRequestModifier => true
  | _ => false
  end.

(** Whether a turn goes round again. *)
Definition continues (r : option control) : nat :=
  match r with
  | Some (Continue _ _ _) => 1%nat
  | _ => 0%nat
  end.

(** Events of the loop itself. *)
Definition is_core (e : event) : bool := negb (is_wrapper e).

(** The events of a call of [Do]: those of the loop, [mid], inside events
    of the wrapper. *)
Definition wrapped {A : Type} (Q : option A -> list event -> Prop)
    (r : option A) (new : list event) : Prop :=
  exists pre mid suf,
    new = pre ++ mid ++ suf /\
    count is_core pre = 0%nat /\ count is_core suf = 0%nat /\
    (Q r mid \/ (r = None /\ mid = [])).

Definition is_doFailure (e : event) : bool :=
  match e with EvInc doFailure => true | _ => false end.

(** The counters of the outcome of a call. *)
Definition is_outcome (e : event) : bool :=
  match e with EvInc doSuccess | EvInc doFailure => true | _ => false end.

(** ** Replaying a body

    What may happen to the store between two calls of a body function
    [f]: [f] is called and hands out a reader; a reader handed out
    earlier is read or closed (by the transport); the caller overwrites
    an object it is free to change, those of [own]. *)
Inductive step (f : ReaderFunc heap) (own : loc -> Prop)
    : heap * list Reader -> heap * list Reader -> Prop :=
| step_obtain h r h' rs :
    f h = (Val (Some r, None), h') ->
    step f own (h, rs) (h', r :: rs)
| step_read h rs r n :
    r ∈ rs -> step f own (h, rs) (Store.Read r n h, rs)
| step_close h rs r :
    r ∈ rs -> step f own (h, rs) (Store.Close r h, rs)
| step_caller h rs l o :
    own l -> step f own (h, rs) (<[l := o]> h, rs).

(** From store [h0] on, every call of [f] returns a reader that delivers
    [c]. *)
Definition replays (f : ReaderFunc heap) (own : loc -> Prop) (h0 : heap)
    (c : list byte * option error) : Prop :=
  forall h rs,
    rtc (step f own) (h0, []) (h, rs) ->
    exists r h', f h = (Val (Some r, None), h') /\ Store.content h' r = c.

(** A slice that lies within a stored array. *)
Definition slice_ok (h : heap) (s : slice) : Prop :=
  exists d, h !! base s = Some (OArray d) /\ (lo s + len s <= length d)%nat.

(** What the replay of a payload rests on, for a caller who may change
    the objects of [own]: the storage of a slice, a buffer or a seekable
    stream is out of the caller's reach, the slice lies within its
    array, [Seek] on the stream succeeds; after a one-shot reader was
    copied the caller holds only objects that were there before; a
    function of the caller's replays by itself. *)
Definition left_alone (p : payload) (own : loc -> Prop) (h0 h1 : heap)
    : Prop :=
  match p with
  | PReaderFunc f | PFunc f => exists c, replays f own h1 c
  | PBytes buf => slice_ok h0 buf /\ ~ own (base buf)
  | PBuffer l => ~ own l
  | PBytesReader l | PReader l _ => forall x, own x -> is_Some (h0 !! x)
  | PReadSeeker raw _ =>
      ~ own raw /\
      exists g, h0 !! raw = Some (OStream g) /\
                s_seekable g = true /\ s_closed g = false
  | POther _ => True
  end.

(** Payloads for trying out [NewRequest]. *)
Module Payloads.

Definition http (method url : string) : HttpRequest + error :=
  inl {| Method := method; URL := url; ReqContext := context_Background;
         Body := None; ContentLength := 0 |}.

Definition hi : list byte := [Byte.x68; Byte.x69].

Definition whole : slice := {| base := 0%nat; lo := 0%nat; len := 2%nat |}.

Definition with_array : heap := {[ 0%nat := OArray hi ]}.

Definition with_buffer : heap := {[ 0%nat := OBuffer hi 0%nat ]}.

(** A stream holding "hi", its first byte already read. *)
Definition half_read (seekable : bool) : stream :=
  {| s_data := hi; s_pos := 1%nat; s_err := None;
     s_seekable := seekable; s_closed := false |}.

Definition with_stream (seekable : bool) : heap :=
  {[ 0%nat := OStream (half_read seekable) ]}.

Definition plain : caps := {| is_Closer := false; is_LenReader := false |}.

(** A function of the caller's that hands out the same one-shot stream
    every time. *)
Definition shared : ReaderFunc heap :=
  fun h => (Val (Some (Direct 0%nat plain), None), h).

(** [http.NewRequest] on a URL that does not parse. *)
Definition bad_url (method url : string) : HttpRequest + error :=
  inr (Err "parse error").

End Payloads.

(** ** Vocabulary of the backoff properties *)

(** What a platform makes of a float64 that does not fit an int64: the
    least value (amd64), or saturation with NaN sent to zero (arm64), or
    saturation with NaN sent to the greatest value (riscv64). *)
Definition platform_oor (oor : float64 -> Z) : Prop :=
  forall x, oor x = Int64.min_int \/ oor x = 0 \/ oor x = Int64.max_int.

(** Exponential backoff in integers: [min * 2^n] cut off at [max], and
    [max] when the power leaves float64 or the product leaves int64. *)
Definition exponential (min max n : Z) : Z :=
  if (n <? 1024) && Int64.in_rangeb (min * 2 ^ n)
  then Z.min (min * 2 ^ n) max
  else max.

(** Exponential backoff as the specification words it:
    [min(minWait * 2^n, maxWait)]. *)
Definition spec_exponential (min max n : Z) : Z := Z.min (min * 2 ^ n) max.

(** What [rand.Float64] returns: a finite float64 in [[0, 1)]. *)
Definition unit_draw (x : float64) : bool :=
  match x with
  | FFin m e =>
      (0 <=? m) && (m <? 2 ^ 53) && (-1074 <=? e)
      && (m * 2 ^ (e + 1074) <? 2 ^ 1074)
  | _ => false
  end.
(** * Properties *)


(** ** The default retry policy *)


Example DefaultRetryPolicy_table :
  DefaultRetryPolicy bg (status 200) None = Val (false, None) /\
  DefaultRetryPolicy bg (status 404) None = Val (false, None) /\
  DefaultRetryPolicy bg (status 501) None = Val (false, None) /\
  DefaultRetryPolicy bg (status 500) None = Val (true, None) /\
  DefaultRetryPolicy bg (status 502) None = Val (true, None) /\
  DefaultRetryPolicy bg (status 503) None = Val (true, None) /\
  DefaultRetryPolicy bg (status 0) None = Val (true, None) /\
  DefaultRetryPolicy bg None (Some (Err "dial tcp")) =
    Val (true, Some (Err "dial tcp")).
Proof. repeat split. Qed.

(** C1, as stated, fails: status 999 lies outside [500, 600), the context
    is live and there is no error, yet the policy retries; and with the
    context cancelled a 500 is not retried although the status condition
    of the claim holds. *)
Lemma C1_counterexample :
  DefaultRetryPolicy bg (status 999) None = Val (true, None) /\
  spec_shouldRetry bg (status 999) None = false /\
  DefaultRetryPolicy {| ctx_Err := Some context_Canceled |} (status 500) None
    = Val (false, Some context_Canceled) /\
  spec_shouldRetry {| ctx_Err := Some context_Canceled |} (status 500) None
    = true.
Proof. repeat split. Qed.

(** C1, amended: the policy returns unless context, error and response
    are all nil; it asks for a retry exactly when the context is not
    cancelled and either there is a transport error or the status is 0 or
    at least 500 and not 501 (no upper bound: 999 is retried); statuses
    200, 404 and 501 are not retried; a cancelled context gives no retry
    and its own error, whatever the transport error. *)
Theorem C1_DefaultRetryPolicy (ctx : Context) (resp : option Response)
    (err : option error) :
  (DefaultRetryPolicy ctx resp err = Panic <->
     ctx_Err ctx = None /\ err = None /\ resp = None) /\
  (forall b e, DefaultRetryPolicy ctx resp err = Val (b, e) ->
     (b = true <->
        ctx_Err ctx = None /\
        (err <> None \/
         exists r, resp = Some r /\
           (StatusCode r = 0 \/ (500 <= StatusCode r /\ StatusCode r <> 501))))) /\
  (forall r, resp = Some r -> ctx_Err ctx = None -> err = None ->
     StatusCode r = 200 \/ StatusCode r = 404 \/ StatusCode r = 501 ->
     DefaultRetryPolicy ctx resp err = Val (false, None)) /\
  (forall e, ctx_Err ctx = Some e ->
     DefaultRetryPolicy ctx resp err = Val (false, Some e)).
Proof.
  unfold DefaultRetryPolicy.
  destruct ctx as [[ce|]], err as [e0|], resp as [[sc b]|]; simpl;
    try (destruct (Z.eqb_spec sc 0);
         destruct (Z.leb_spec 500 sc);
         destruct (Z.eqb_spec sc 501); simpl);
    split_and!; try naive_solver lia.
Qed.

(** ** Configuration defaults *)

Section InitFacts.

Context {W : Type} (env : Env W).

Lemma init_RetryMax (c : Config W) :
  RetryMax (Config_init env c) =
    if RetryMax c <=? 0 then 4 else RetryMax c.
Proof. reflexivity. Qed.

Lemma init_RetryWaitMax (c : Config W) :
  RetryWaitMax (Config_init env c) =
    if RetryWaitMax c <=? 0 then 30 * Second else RetryWaitMax c.
Proof. reflexivity. Qed.

Lemma init_CheckRetry (c : Config W) :
  CheckRetry_ (Config_init env c) =
    match CheckRetry_ c with
    | None => Some (DefaultRetryPolicy_cb env)
    | Some p => Some p
    end.
Proof. unfold Config_init; simpl. destruct (CheckRetry_ c); reflexivity. Qed.

Lemma init_Backoff (c : Config W) :
  Backoff_ (Config_init env c) =
    match Backoff_ c with
    | None => Some (DefaultBackoff_cb env)
    | Some b => Some b
    end.
Proof. unfold Config_init; simpl. destruct (Backoff_ c); reflexivity. Qed.

(** The minimum wait follows the test on [RetryMax], not one on
    [RetryWaitMin]. *)
Lemma init_RetryWaitMin (c : Config W) :
  RetryWaitMin (Config_init env c) =
    if RetryMax c <=? 0 then 1 * Second else RetryWaitMin c.
Proof. reflexivity. Qed.

Lemma init_RetryMax_pos (c : Config W) : 0 < RetryMax (Config_init env c).
Proof.
  rewrite init_RetryMax. destruct (Z.leb_spec (RetryMax c) 0); lia.
Qed.


(** C4: a configuration with [RetryMax = 3] and no minimum wait keeps a
    minimum wait of zero after [init], where the claim promises one
    second; the maximum wait next to it does get its default. *)
Theorem C4_init_min_wait_left_zero :
  RetryWaitMin (Config_init env (only_RetryMax 3)) = 0 /\
  RetryWaitMax (Config_init env (only_RetryMax 3)) = 30 * Second /\
  RetryMax (Config_init env (only_RetryMax 3)) = 3.
Proof. repeat split. Qed.

(** The same slip the other way round: a supplied minimum wait is
    overwritten when [RetryMax] is left out. *)
Lemma init_min_wait_overwritten (c : Config W) :
  RetryMax c <= 0 -> RetryWaitMin (Config_init env c) = 1 * Second.
Proof.
  intros H. rewrite init_RetryWaitMin.
  destruct (Z.leb_spec (RetryMax c) 0); [reflexivity | lia].
Qed.

End InitFacts.

(** ** The retry loop *)

Section DoFacts.

Context {W : Type} (env : Env W) (c : Client W).


Lemma count_nil p : count p [] = 0%nat.
Proof. reflexivity. Qed.

Lemma count_app p t1 t2 : count p (t1 ++ t2) = (count p t1 + count p t2)%nat.
Proof. unfold count. rewrite List.filter_app, length_app. reflexivity. Qed.

Lemma count_one p e : count p [e] = if p e then 1%nat else 0%nat.
Proof.
  unfold count. simpl. destruct (p e); reflexivity.
Qed.

Lemma adds_weaken {A} p n n' (m : M W A) :
  adds p n m -> (n <= n')%nat -> adds p n' m.
Proof.
  intros H Hn s. specialize (H s).
  destruct (m s); simpl in *; try done; destruct H as (new & ? & ?); exists new;
    (split; [done | lia]).
Qed.

Lemma adds_ret {A} p n (a : A) : adds p n (ret a : M W A).
Proof.
  intros s. simpl. exists []. split.
  - unfold extends. by rewrite app_nil_r.
  - rewrite count_nil. lia.
Qed.

Lemma adds_panic {A} p n : adds p n (@panic W A).
Proof.
  intros s. simpl. exists []. split.
  - unfold extends. by rewrite app_nil_r.
  - rewrite count_nil. lia.
Qed.

Lemma adds_bind {A B} p n1 n2 n (m : M W A) (k : A -> M W B) :
  adds p n1 m -> (forall a, adds p n2 (k a)) -> (n1 + n2 <= n)%nat ->
  adds p n (bind m k).
Proof.
  intros Hm Hk Hn s. unfold bind. specialize (Hm s).
  destruct (m s) as [a s1|s1|]; simpl in *; try done.
  - destruct Hm as (new1 & E1 & C1). specialize (Hk a s1).
    destruct (k a s1) as [b s2|s2|]; simpl in *; try done;
      destruct Hk as (new2 & E2 & C2); exists (new1 ++ new2);
      (split; [unfold extends in *; rewrite E2, E1, app_assoc; done
              | rewrite count_app; lia]).
  - destruct Hm as (new1 & E1 & C1). exists new1. split; [done | lia].
Qed.

Lemma adds_emit p n e : (p e = true -> (1 <= n)%nat) -> adds p n (emit e : M W unit).
Proof.
  intros H s. exists [e]. split; [done|].
  rewrite count_one. destruct (p e); [auto | lia].
Qed.

Lemma adds_call {A} p n e (f : ext W A) :
  (p e = true -> (1 <= n)%nat) -> adds p n (call e f).
Proof.
  intros H s. unfold call. destruct (f (world s)) as [[a|] w];
    (exists [e]; split; [done|]; rewrite count_one; destruct (p e); [auto | lia]).
Qed.

Lemma adds_effect {A} p n e (f : W -> A * W) :
  (p e = true -> (1 <= n)%nat) -> adds p n (effect e f).
Proof.
  intros H s. unfold effect. destruct (f (world s)) as [a w].
  exists [e]; split; [done|]; rewrite count_one; destruct (p e); [auto | lia].
Qed.

Lemma adds_defer {A} p n1 n e (m : M W A) :
  adds p n1 m -> ((if p e then 1 else 0) + n1 <= n)%nat ->
  adds p n (defer e m).
Proof.
  intros Hm Hn s. unfold defer. specialize (Hm s).
  destruct (m s) as [a s1|s1|]; simpl in *; try done;
    destruct Hm as (new & E & C); exists (new ++ [e]);
    (split; [unfold extends in *; simpl; rewrite E, app_assoc; done
            | rewrite count_app, count_one; destruct (p e); lia]).
Qed.

Lemma adds_defer_effect {A} p n1 n e (f : W -> W) (m : M W A) :
  adds p n1 m -> ((if p e then 1 else 0) + n1 <= n)%nat ->
  adds p n (defer_effect e f m).
Proof.
  intros Hm Hn s. unfold defer_effect. specialize (Hm s).
  destruct (m s) as [a s1|s1|]; simpl in *; try done;
    destruct Hm as (new & E & C); exists (new ++ [e]);
    (split; [unfold extends in *; simpl; rewrite E, app_assoc; done
            | rewrite count_app, count_one; destruct (p e); lia]).
Qed.

Lemma adds_when p n b (m : M W unit) : adds p n m -> adds p n (when b m).
Proof. destruct b; simpl; [done | intros; apply adds_ret]. Qed.

Lemma adds_deref {A} p n (o : option A) : adds p n (deref o : M W A).
Proof. destruct o; [apply adds_ret | apply adds_panic]. Qed.

(** Structural proof of an [adds] bound: follow the shape of the
    computation, giving the one countable event to whichever side of a
    [bind] holds it. *)
Ltac adds_tac :=
  lazymatch goal with
  | |- adds _ _ (ret _) => apply adds_ret
  | |- adds _ _ panic => apply adds_panic
  | |- adds _ _ (deref _) => apply adds_deref
  | |- adds _ _ (emit _) =>
      apply adds_emit; simpl; intros; first [discriminate | lia]
  | |- adds _ _ (call _ _) =>
      apply adds_call; simpl; intros; first [discriminate | lia]
  | |- adds _ _ (effect _ _) =>
      apply adds_effect; simpl; intros; first [discriminate | lia]
  | |- adds _ _ (when _ _) => apply adds_when; adds_tac
  | |- adds ?p ?n (defer _ _) =>
      apply (adds_defer p n n); [adds_tac | simpl; lia]
  | |- adds ?p ?n (defer_effect _ _ _) =>
      apply (adds_defer_effect p n n); [adds_tac | simpl; lia]
  | |- adds ?p ?n (bind _ _) =>
      first
        [ solve [apply (adds_bind p 0 n n); [adds_tac | intros; adds_tac | lia]]
        | solve [apply (adds_bind p n 0 n); [adds_tac | intros; adds_tac | lia]] ]
  | |- adds _ _ (match ?x with _ => _ end) => destruct x; adds_tac
  | |- adds _ _ (Logger_Debug _ _) => unfold Logger_Debug; adds_tac
  | |- adds _ _ (Logger_Error _ _) => unfold Logger_Error; adds_tac
  | |- adds _ _ (observe_retryTimer _) => unfold observe_retryTimer; adds_tac
  | |- adds _ _ (drainBody _ _ _) => unfold drainBody; adds_tac
  end.

Lemma exchange_adds_transport req hreq i t :
  adds is_transport 1 (exchange c req hreq i t).
Proof. unfold exchange. adds_tac. Qed.

Lemma decide_adds_transport i hreq resp err ok ce :
  adds is_transport 0 (decide env c i hreq resp err ok ce).
Proof. unfold decide. adds_tac. Qed.

Lemma exhausted_adds_transport hreq resp err :
  adds is_transport 0 (exhausted env c hreq resp err).
Proof. unfold exhausted. adds_tac. Qed.

Lemma turn_adds_transport req hreq i resp t :
  adds is_transport 1 (turn env c req hreq i resp t).
Proof.
  unfold turn. apply (adds_bind _ 1 0 1); [apply exchange_adds_transport| |lia].
  intros [e|h r e ok ce]; [adds_tac | apply decide_adds_transport].
Qed.

Lemma bind_Ok {A B} (m : M W A) (k : A -> M W B) s b s' :
  bind m k s = Ok b s' -> exists a s1, m s = Ok a s1 /\ k a s1 = Ok b s'.
Proof.
  unfold bind. destruct (m s) as [a s1| |]; try discriminate. eauto.
Qed.

Lemma ret_Ok {A} (a b : A) (s s' : State W) :
  ret a s = Ok b s' -> a = b /\ s = s'.
Proof. unfold ret. intros H. inversion H. auto. Qed.

Ltac inv_bind H :=
  let a := fresh "a" in
  let s1 := fresh "s" in
  let H1 := fresh "H" in
  apply bind_Ok in H; destruct H as (a & s1 & H1 & H).

Ltac inv_ret H :=
  apply ret_Ok in H; destruct H as [H ?]; try discriminate H.

(** A turn that goes on to the next one had budget left, and hands on the
    response and error of its attempt. *)
Lemma decide_Continue i hreq resp err ok ce s h r e s' :
  decide env c i hreq resp err ok ce s = Ok (Continue h r e) s' ->
  ok = true /\ 0 < Int64.sub (RetryMax (cfg c)) i /\
  h = hreq /\ r = resp /\ e = err.
Proof.
  unfold decide. destruct ok; simpl.
  - destruct (Z.leb_spec (Int64.sub (RetryMax (cfg c)) i) 0) as [Hr|Hr].
    + intros H. inv_bind H. inv_ret H.
    + intros H. do 5 inv_bind H. inv_ret H. inversion H. auto.
  - intros H. inv_bind H. inv_ret H.
Qed.

Lemma turn_Continue req hreq i resp t s h r e s' :
  turn env c req hreq i resp t s = Ok (Continue h r e) s' ->
  0 < Int64.sub (RetryMax (cfg c)) i.
Proof.
  unfold turn. intros H. inv_bind H. destruct a as [e0|h0 r0 e0 ok ce].
  - inv_ret H.
  - apply decide_Continue in H. tauto.
Qed.

Lemma wrap_small z : Int64.in_range z -> Int64.wrap z = z.
Proof.
  unfold Int64.in_range, Int64.min_int, Int64.max_int, Int64.wrap. intros H.
  rewrite Z.mod_small; lia.
Qed.

(** The loop from turn [i] on: it ends within the fuel that covers the
    remaining budget, after at most [RetryMax - i + 1] attempts. *)
Lemma loop_adds_transport fuel : forall req hreq i resp err,
  0 <= i <= RetryMax (cfg c) -> RetryMax (cfg c) <= Int64.max_int ->
  (Z.to_nat (RetryMax (cfg c) - i) + 1 <= fuel)%nat ->
  adds is_transport (Z.to_nat (RetryMax (cfg c) - i) + 1)
    (loop env c fuel req hreq i resp err).
Proof.
  induction fuel as [|fuel IH]; intros req hreq i resp err Hi Hm Hf; [lia|].
  intros s. simpl. unfold bind.
  pose proof (turn_adds_transport req hreq i resp false s) as Ht.
  destruct (turn env c req hreq i resp false s) as [r s1|s1|] eqn:Et;
    simpl in Ht; [| |done].
  - destruct Ht as (new1 & E1 & C1). destruct r as [r e|r e|h r e].
    + simpl. exists new1. split; [done|lia].
    + pose proof (exhausted_adds_transport hreq r e s1) as Hx.
      destruct (exhausted env c hreq r e s1) as [x s2|s2|]; simpl in Hx;
        [| |done]; destruct Hx as (new2 & E2 & C2); exists (new1 ++ new2);
        (split; [unfold extends in *; rewrite E2, E1, app_assoc; done
                | rewrite count_app; lia]).
    + apply turn_Continue in Et.
      assert (Hs : Int64.sub (RetryMax (cfg c)) i = RetryMax (cfg c) - i).
      { apply wrap_small. unfold Int64.in_range, Int64.min_int, Int64.max_int in *. lia. }
      rewrite Hs in Et.
      assert (Ha : Int64.add i 1 = i + 1).
      { apply wrap_small. unfold Int64.in_range, Int64.min_int, Int64.max_int in *. lia. }
      rewrite Ha.
      assert (Hn : Z.to_nat (RetryMax (cfg c) - i)
                   = S (Z.to_nat (RetryMax (cfg c) - (i + 1)))) by lia.
      specialize (IH req h (i + 1) r e ltac:(lia) Hm ltac:(lia) s1).
      destruct (loop env c fuel req h (i + 1) r e s1) as [x s2|s2|];
        simpl in IH; [| |done]; destruct IH as (new2 & E2 & C2);
        exists (new1 ++ new2);
        (split; [unfold extends in *; rewrite E2, E1, app_assoc; done
                | rewrite count_app; lia]).
  - destruct Ht as (new1 & E1 & C1). exists new1. split; [done|lia].
Qed.

(** The loop does not depend on fuel beyond what the budget needs. *)
Lemma loop_fuel_irrelevant fuel : forall fuel' req hreq i resp err s,
  (fuel <= fuel')%nat ->
  loop env c fuel req hreq i resp err s <> OutOfFuel ->
  loop env c fuel' req hreq i resp err s = loop env c fuel req hreq i resp err s.
Proof.
  induction fuel as [|fuel IH]; intros fuel' req hreq i resp err s Hle Hne.
  - simpl in Hne. congruence.
  - destruct fuel' as [|fuel']; [lia|]. simpl in *. unfold bind in *.
    destruct (turn env c req hreq i resp false s) as [r s1|s1|]; try done.
    destruct r as [r e|r e|h r e]; try done.
    apply IH; [lia | done].
Qed.

Lemma Do_adds_transport fuel req :
  0 <= RetryMax (cfg c) <= Int64.max_int ->
  (Z.to_nat (RetryMax (cfg c)) + 1 <= fuel)%nat ->
  adds is_transport (Z.to_nat (RetryMax (cfg c)) + 1) (Do env c fuel req).
Proof.
  intros Hm Hf.
  assert (Hl : forall r h, adds is_transport (Z.to_nat (RetryMax (cfg c)) + 1)
                        (loop env c fuel r h 0 None None)).
  { intros r h. pose proof (loop_adds_transport fuel r h 0 None None) as H.
    rewrite Z.sub_0_r in H. apply H; lia. }
  set (n := (Z.to_nat (RetryMax (cfg c)) + 1)%nat) in *.
  assert (Hk : forall r, adds is_transport n
      (bind (Logger_Debug c "Sending request for method")
         (fun _ => loop env c fuel r (Request_ r) 0 None None))).
  { intros r. apply (adds_bind _ 0 n n); [adds_tac | intros; apply Hl | lia]. }
  assert (Hb : adds is_transport n
    (bind (match RequestModifier_ (cfg c) with
           | Some modify => call EvRequestModifier (modify req)
           | None => ret req
           end)
       (fun req1 =>
          bind (deref req1) (fun req0 =>
          match NewChildSpanFromContext env (ReqContext (Request_ req0))
                  "HttpClient.Do" with
          | Some span =>
              defer (EvSpanFinish span)
                (bind (Logger_Debug c "Sending request for method")
                   (fun _ =>
                      loop env c fuel
                        (WithContext req0
                           (CtxWithValue (ReqContext (Request_ req0)) "span" span))
                        (Request_
                           (WithContext req0
                              (CtxWithValue (ReqContext (Request_ req0)) "span" span)))
                        0 None None))
          | None =>
              bind (Logger_Debug c "Sending request for method")
                (fun _ => loop env c fuel req0 (Request_ req0) 0 None None)
          end)))).
  { apply (adds_bind _ 0 n n); [adds_tac | | lia]. intros r1.
    apply (adds_bind _ 0 n n); [adds_tac | | lia].
    intros r. destruct (NewChildSpanFromContext _ _ _).
    - apply (adds_defer _ n n); [apply Hk | simpl; lia].
    - apply Hk. }
  unfold Do. destruct (metrics c).
  - apply (adds_bind _ 0 n n); [adds_tac | intros _ | lia].
    apply (adds_bind _ 0 n n); [adds_tac | intros _ | lia].
    apply (adds_defer _ n n); [apply Hb | simpl; lia].
  - apply Hb.
Qed.

(** The turn on which the body function fails. *)
Lemma loop_body_error (n : nat) (req : Request W)
    (hreq : HttpRequest) (i : Z) (resp0 : option Response)
    (err0 : option error) (s : State W) (f : ReaderFunc W)
    (b : option Reader) (e : error) (w' : W) :
  body req = Some f ->
  f (world s) = (Val (b, Some e), w') ->
  exists s' new,
    loop env c (S n) req hreq i resp0 err0 s = Ok (resp0, Some e) s' /\
    world s' = w' /\ extends s s' new /\
    count is_body new = 1%nat /\ quiet new.
Proof.
  intros Hb Hf. simpl. unfold turn, exchange, bind, call, observe_retryTimer.
  rewrite Hb.
  destruct (metrics c), (0 <? i); simpl; rewrite Hf; simpl;
    eexists; eexists; (split; [reflexivity|]); (split; [reflexivity|]);
    (split; [unfold extends; simpl; rewrite <- ?app_assoc; simpl; reflexivity|]);
    repeat split.
Qed.

(** C6: when the body function returns an error at turn [i], the loop
    returns at once what [resp] held with that error; the trace gains
    the one call of the body function and otherwise no transport call,
    no policy call, no backoff, no sleep and no error handler. *)
Theorem C6_body_error_returns_at_once (n : nat) (req : Request W)
    (hreq : HttpRequest) (i : Z) (resp0 : option Response)
    (err0 : option error) (s : State W) (f : ReaderFunc W)
    (b : option Reader) (e : error) (w' : W) :
  body req = Some f ->
  f (world s) = (Val (b, Some e), w') ->
  exists s' new,
    loop env c (S n) req hreq i resp0 err0 s = Ok (resp0, Some e) s' /\
    world s' = w' /\ extends s s' new /\
    count is_body new = 1%nat /\ quiet new.
Proof. apply loop_body_error. Qed.

(** C5: when the policy answers [shouldRetry = false] at turn [i], the
    loop returns the response of that attempt as the transport gave it,
    with the policy's error if it gave one and the transport's error
    otherwise; after the policy's answer only metrics are recorded, so
    the response body is neither read nor closed. *)
Theorem C5_no_retry_returns_attempt (n : nat) (req : Request W)
    (hreq hreq' : HttpRequest) (i : Z) (resp0 resp : option Response)
    (err0 err checkErr : option error) (s0 s1 : State W) :
  exchange c req hreq i false s0
    = Ok (Exchanged hreq' resp err false checkErr) s1 ->
  exists s2 new,
    loop env c (S n) req hreq i resp0 err0 s0
      = Ok (resp, override checkErr err) s2 /\
    world s2 = world s1 /\ extends s1 s2 new /\
    forallb is_metric new = true.
Proof.
  intros Hx. simpl. unfold turn, bind at 1. unfold bind at 1. rewrite Hx.
  unfold decide. simpl. unfold override, bind, when, emit, ret.
  destruct (metrics c); simpl.
  - eexists; eexists; (split; [reflexivity|]); (split; [reflexivity|]).
    split; [unfold extends; simpl; reflexivity|].
    destruct checkErr, err; reflexivity.
  - exists s1, []. split; [reflexivity|]. split; [reflexivity|].
    split; [unfold extends; by rewrite app_nil_r | reflexivity].
Qed.

Lemma call_Ok {A} e (f : ext W A) s a s' :
  call e f s = Ok a s' ->
  f (world s) = (Val a, world s') /\ trace s' = trace s ++ [e].
Proof.
  unfold call. destruct (f (world s)) as [[x|] w]; intros H; inversion H.
  auto.
Qed.

Lemma deref_Ok {A} (o : option A) (s : State W) a s' :
  deref o s = Ok a s' -> o = Some a /\ s' = s.
Proof. destruct o; simpl; intros H; inversion H; auto. Qed.

(** An exchange that reached the policy: the response and error are the
    transport's answer to the request that went out, the verdict is the
    policy's answer on exactly those. *)
Lemma exchange_Exchanged req hreq i t s0 hreq' resp err ok ce s1 :
  exchange c req hreq i t s0 = Ok (Exchanged hreq' resp err ok ce) s1 ->
  exists client check w w' w'',
    HttpClient_ (cfg c) = Some client /\
    CheckRetry_ (cfg c) = Some check /\
    client hreq' w = (Val (resp, err), w') /\
    check (ReqContext hreq') resp err w' = (Val (ok, ce), w'').
Proof.
  unfold exchange. intros H. inv_bind H. inv_bind H.
  destruct a0 as [e|h]; [inv_ret H|].
  inv_bind H. clear H2. inv_bind H. apply deref_Ok in H2 as [Hc ->].
  inv_bind H. destruct a2 as [r e]. apply call_Ok in H2 as [Ht _].
  inv_bind H. apply deref_Ok in H2 as [Hk ->].
  inv_bind H. destruct a3 as [ok' ce']. apply call_Ok in H2 as [Hp _].
  inv_bind H. inv_bind H. inv_ret H. inversion H; subst.
  eauto 10.
Qed.

(** What the loop does once the policy asked for a retry and no budget
    is left: one optional metric, then the exhausted path. *)
Lemma loop_breaks n req hreq hreq' i resp0 resp err0 err checkErr s0 s1 :
  exchange c req hreq i false s0
    = Ok (Exchanged hreq' resp err true checkErr) s1 ->
  Int64.sub (RetryMax (cfg c)) i <= 0 ->
  loop env c (S n) req hreq i resp0 err0 s0
    = exhausted env c hreq resp err
        {| world := world s1;
           trace := trace s1 ++
             (if metrics c && (if err is Some _ then true else false)
              then [EvInc doFailure] else []) |}.
Proof.
  intros Hx Hr. simpl. unfold turn, bind at 1. unfold bind at 1. rewrite Hx.
  unfold decide. simpl.
  destruct (Z.leb_spec (Int64.sub (RetryMax (cfg c)) i) 0); [|lia].
  unfold bind, when, emit, ret.
  destruct (metrics c), err; simpl; try reflexivity;
    rewrite app_nil_r; destruct s1; reflexivity.
Qed.

(** C3: with the budget used up and the policy still asking for a retry,
    a client without error handler closes the body of the last response,
    if there is one, and returns no response and the giving-up error made
    of the method, the URL and [RetryMax + 1]; a client with an error
    handler calls it once, on the last response, the last error and
    [RetryMax + 1], and what the handler does is what the loop does. *)
Theorem C3_budget_exhausted (n : nat) (req : Request W)
    (hreq hreq' : HttpRequest) (i : Z) (resp0 resp : option Response)
    (err0 err checkErr : option error) (s0 s1 : State W) :
  exchange c req hreq i false s0
    = Ok (Exchanged hreq' resp err true checkErr) s1 ->
  Int64.sub (RetryMax (cfg c)) i <= 0 ->
  Int64.min_int <= RetryMax (cfg c) < Int64.max_int ->
  let tries := RetryMax (cfg c) + 1 in
  let late :=
    if metrics c && (if err is Some _ then true else false)
    then [EvInc doFailure] else [] in
  let last := if metrics c then [EvInc doFailure] else [] in
  match ErrorHandler_ (cfg c) with
  | None =>
      exists s2,
        loop env c (S n) req hreq i resp0 err0 s0
          = Ok (None, Some (giving_up (Method hreq) (URL hreq) tries)) s2 /\
        match resp with
        | Some r =>
            world s2 = body_Close env (RespBody r) (world s1) /\
            extends s1 s2 (late ++ [EvClose (RespBody r)] ++ last)
        | None => world s2 = world s1 /\ extends s1 s2 (late ++ last)
        end
  | Some handler =>
      forall out w, handler resp err tries (world s1) = (out, w) ->
      exists s2,
        world s2 = w /\ extends s1 s2 (late ++ [EvErrorHandler tries]) /\
        loop env c (S n) req hreq i resp0 err0 s0
          = match out with Val x => Ok x s2 | Panic => Panicked s2 end
  end.
Proof.
  intros Hx Hr Hm tries late last.
  rewrite (loop_breaks n req hreq hreq' i resp0 resp err0 err checkErr s0 s1 Hx Hr).
  fold late. unfold exhausted.
  assert (Ht : Int64.add (RetryMax (cfg c)) 1 = tries).
  { apply wrap_small.
    unfold Int64.in_range, Int64.min_int, Int64.max_int in *. lia. }
  rewrite Ht.
  destruct (ErrorHandler_ (cfg c)) as [handler|].
  - intros out w Hh. unfold call. simpl. rewrite Hh.
    destruct out; eexists; (split; [|split; [|reflexivity]]);
      simpl; try reflexivity; unfold extends; simpl;
      by rewrite app_assoc.
  - unfold bind, effect, when, emit, ret, giving_up. subst last.
    destruct resp as [r|]; destruct (metrics c); simpl;
      eexists; (split; [reflexivity|]); (split; [reflexivity|]);
      unfold extends; simpl; rewrite <- ?app_assoc; simpl;
      rewrite ?app_nil_r; reflexivity.
Qed.

(** C2: with [0 <= RetryMax], [Do] ends, by returning or by a panic of a
    collaborator, whatever the collaborators do, as soon as the fuel
    covers [RetryMax + 1] turns, and its trace gains at most
    [RetryMax + 1] transport calls; and a turn [i] with
    [RetryMax - i <= 0] on which the policy asks for a retry goes
    straight to the exhausted path, the world untouched and no backoff
    computed nor slept. *)
Theorem C2_attempts_bounded (fuel : nat) (req : option (Request W))
    (s : State W) :
  0 <= RetryMax (cfg c) <= Int64.max_int ->
  (Z.to_nat (RetryMax (cfg c)) + 1 <= fuel)%nat ->
  match Do env c fuel req s with
  | Ok _ s' | Panicked s' =>
      exists new, extends s s' new /\
        (count is_transport new <= Z.to_nat (RetryMax (cfg c)) + 1)%nat
  | OutOfFuel => False
  end /\
  forall n req' hreq hreq' i resp0 resp err0 err checkErr s0 s1,
    0 <= i <= Int64.max_int ->
    RetryMax (cfg c) - i <= 0 ->
    exchange c req' hreq i false s0
      = Ok (Exchanged hreq' resp err true checkErr) s1 ->
    exists s2 new,
      loop env c (S n) req' hreq i resp0 err0 s0
        = exhausted env c hreq resp err s2 /\
      world s2 = world s1 /\ extends s1 s2 new /\
      count is_wait new = 0%nat /\ count is_transport new = 0%nat.
Proof.
  intros Hm Hf. split.
  - apply Do_adds_transport; assumption.
  - intros n req' hreq hreq' i resp0 resp err0 err checkErr s0 s1 Hi Hr Hx.
    assert (Hs : Int64.sub (RetryMax (cfg c)) i <= 0).
    { unfold Int64.sub. rewrite wrap_small; [lia|].
      unfold Int64.in_range, Int64.min_int, Int64.max_int in *. lia. }
    eexists; eexists. split; [eapply loop_breaks; eassumption|].
    simpl. split; [reflexivity|]. split; [reflexivity|].
    destruct (metrics c), err; simpl; split; reflexivity.
Qed.

Lemma adds_extends {A} p n (m : M W A) s a s' :
  adds p n m -> m s = Ok a s' -> exists new, extends s s' new.
Proof.
  intros H E. specialize (H s). rewrite E in H.
  destruct H as (new & ? & _). eauto.
Qed.

(** [drainBody] on any client: the read up to the limit, the error line
    if the read failed and there is a logger, then the close, each on
    the world the step before has left. *)
Lemma drainBody_Ok b (s : State W) :
  exists mid,
    drainBody env c b s
    = Ok tt {| world := body_Close env b
                          (snd (body_discard env b respReadLimit (world s)));
               trace := trace s ++ [EvDiscard b respReadLimit] ++ mid
                                ++ [EvClose b] |} /\
    (mid = [] \/ exists msg, mid = [EvError msg]).
Proof.
  unfold drainBody, defer_effect, bind, effect.
  destruct (body_discard env b respReadLimit (world s)) as [[e|] w]; simpl;
    [destruct (Logger_ (cfg c))|]; simpl;
    [exists [EvError (Error e)] | exists [] | exists []];
    (split; [rewrite <- !app_assoc; reflexivity|]); eauto.
Qed.

(** What a turn that goes round again has done after the exchange: the
    body of a response that came without error was drained and closed,
    anything else was left alone; then the backoff was asked, on the
    world this left, and the wait it gave was slept. *)
Lemma decide_Continue_world i hreq resp err ok ce (s : State W) h r e s' :
  decide env c i hreq resp err ok ce s = Ok (Continue h r e) s' ->
  exists backoff wait wb mid,
    Backoff_ (cfg c) = Some backoff /\
    backoff (RetryWaitMin (cfg c)) (RetryWaitMax (cfg c)) i resp
      (match err, resp with
       | None, Some x =>
           body_Close env (RespBody x)
             (snd (body_discard env (RespBody x) respReadLimit (world s)))
       | _, _ => world s
       end) = (Val wait, wb) /\
    world s' = time_Sleep env wait wb /\
    extends s s'
      (match err, resp with
       | None, Some x =>
           [EvDiscard (RespBody x) respReadLimit] ++ mid
             ++ [EvClose (RespBody x)]
       | _, _ => []
       end ++ [EvBackoff i; EvDebug "retrying http request"; EvSleep wait]) /\
    (mid = [] \/ exists msg, mid = [EvError msg]).
Proof.
  intros H.
  destruct (decide_Continue _ _ _ _ _ _ _ _ _ _ _ H) as (-> & Hr & _).
  unfold decide in H. simpl in H.
  destruct (Z.leb_spec (Int64.sub (RetryMax (cfg c)) i) 0); [lia|].
  apply bind_Ok in H as (u & sd & Hd & H).
  apply bind_Ok in H as (backoff & sb & Hb & H).
  apply deref_Ok in Hb as [Hb ->].
  apply bind_Ok in H as (wait & sw & Hw & H).
  apply call_Ok in Hw as [Hw Htw].
  apply bind_Ok in H as (u1 & sl & Hl & H).
  unfold Logger_Debug in Hl.
  apply bind_Ok in Hl as (l & sl0 & Hl0 & Hl).
  apply deref_Ok in Hl0 as [_ ->].
  unfold emit in Hl. inversion Hl; subst sl; clear Hl.
  apply bind_Ok in H as (u2 & ss & Hs & H).
  unfold effect in Hs. simpl in Hs. inversion Hs; subst ss; clear Hs.
  apply ret_Ok in H as [_ <-]. simpl.
  assert (Hdrain : exists mid,
    sd = {| world := match err, resp with
                     | None, Some x =>
                         body_Close env (RespBody x)
                           (snd (body_discard env (RespBody x) respReadLimit
                                   (world s)))
                     | _, _ => world s
                     end;
            trace := trace s ++
                     match err, resp with
                     | None, Some x =>
                         [EvDiscard (RespBody x) respReadLimit] ++ mid
                           ++ [EvClose (RespBody x)]
                     | _, _ => []
                     end |} /\
    (mid = [] \/ exists msg, mid = [EvError msg])).
  { destruct err as [e0|]; [|destruct resp as [x|]].
    - apply ret_Ok in Hd as [_ <-]. exists []. rewrite app_nil_r.
      destruct s; auto.
    - destruct (drainBody_Ok (RespBody x) s) as (mid & E & Hmid).
      rewrite E in Hd. inversion Hd. eauto.
    - apply ret_Ok in Hd as [_ <-]. exists []. rewrite app_nil_r.
      destruct s; auto. }
  destruct Hdrain as (mid & -> & Hmid). simpl in *.
  exists backoff, wait, (world sw), mid.
  split; [exact Hb|]. split; [exact Hw|]. split; [reflexivity|].
  split; [|exact Hmid].
  unfold extends. simpl. rewrite Htw. simpl.
  rewrite <- !app_assoc. reflexivity.
Qed.


End DoFacts.

(** ** The loop on the test bench *)

(** A transport answering 503 to everything, [RetryMax = 2]: three
    attempts, the first two bodies drained and closed, the last one
    closed, and the giving-up error. *)
Example Do_503_gives_up :
  Do Bench.env (Bench.client 503 2 None) 3 (Some Bench.get) (Bench.start 0)
  = Ok (None, Some (Err "GET http://x/ giving up after 3 attempts"))
      {| world := 3%nat;
         trace :=
           [EvDebug "Sending request for method";
            EvTransport 0; EvCheckRetry 0; EvDiscard 1%nat 4096;
            EvClose 1%nat; EvBackoff 0; EvDebug "retrying http request";
            EvSleep 0;
            EvTransport 1; EvCheckRetry 1; EvDiscard 2%nat 4096;
            EvClose 2%nat; EvBackoff 1; EvDebug "retrying http request";
            EvSleep 0;
            EvTransport 2; EvCheckRetry 2; EvClose 3%nat] |}.
Proof. vm_compute. reflexivity. Qed.

Example Do_200_returns :
  Do Bench.env (Bench.client 200 4 None) 5 (Some Bench.get) (Bench.start 0)
  = Ok (Bench.answer 200 1, None)
      {| world := 1%nat;
         trace := [EvDebug "Sending request for method";
                   EvTransport 0; EvCheckRetry 0] |}.
Proof. vm_compute. reflexivity. Qed.

Example Do_passthrough :
  Do Bench.env (Bench.client 503 1 (Some PassthroughErrorHandler)) 2
     (Some Bench.get) (Bench.start 0)
  = Ok (Bench.answer 503 2, None)
      {| world := 2%nat;
         trace :=
           [EvDebug "Sending request for method";
            EvTransport 0; EvCheckRetry 0; EvDiscard 1%nat 4096;
            EvClose 1%nat; EvBackoff 0; EvDebug "retrying http request";
            EvSleep 0;
            EvTransport 1; EvCheckRetry 1; EvErrorHandler 2] |}.
Proof. vm_compute. reflexivity. Qed.

Lemma C6_witness :
  body Bench.post = Some Bench.once /\
  Bench.once (world (Bench.start 1))
    = (Val (None, Some (Err "payload gone")), 1%nat) /\
  exists s' new,
    loop Bench.env (Bench.client 503 2 None) 1 Bench.post Bench.get_x 1
      (Bench.answer 503 1) None (Bench.start 1)
      = Ok (Bench.answer 503 1, Some (Err "payload gone")) s' /\
    world s' = 1%nat /\ extends (Bench.start 1) s' new /\
    count is_body new = 1%nat /\ quiet new.
Proof.
  refine (conj eq_refl (conj eq_refl _)).
  exact (C6_body_error_returns_at_once Bench.env (Bench.client 503 2 None) 0
           Bench.post Bench.get_x 1 (Bench.answer 503 1) None (Bench.start 1)
           Bench.once None (Err "payload gone") 1%nat eq_refl eq_refl).
Defined.

Lemma C5_witness :
  exchange (Bench.client 200 4 None) Bench.get Bench.get_x 0 false
    (Bench.start 0)
    = Ok (Exchanged Bench.get_x (Bench.answer 200 1) None false None)
        {| world := 1%nat; trace := [EvTransport 0; EvCheckRetry 0] |} /\
  exists s2 new,
    loop Bench.env (Bench.client 200 4 None) 1 Bench.get Bench.get_x 0
      None None (Bench.start 0)
      = Ok (Bench.answer 200 1, override None None) s2 /\
    world s2 = 1%nat /\
    extends {| world := 1%nat; trace := [EvTransport 0; EvCheckRetry 0] |}
      s2 new /\
    forallb is_metric new = true.
Proof.
  refine (conj eq_refl _).
  exact (C5_no_retry_returns_attempt Bench.env (Bench.client 200 4 None) 0
           Bench.get Bench.get_x Bench.get_x 0 None (Bench.answer 200 1)
           None None None (Bench.start 0)
           {| world := 1%nat; trace := [EvTransport 0; EvCheckRetry 0] |}
           eq_refl).
Defined.

Lemma C3_witness :
  exchange (Bench.client 503 2 None) Bench.get Bench.get_x 2 false
    (Bench.start 2)
    = Ok (Exchanged Bench.get_x (Bench.answer 503 3) None true None)
        Bench.after_third_exchange /\
  Int64.sub 2 2 <= 0 /\
  Int64.min_int <= 2 < Int64.max_int /\
  exists s2,
    loop Bench.env (Bench.client 503 2 None) 1 Bench.get Bench.get_x 2
      None None (Bench.start 2)
      = Ok (None, Some (giving_up "GET" "http://x/" 3)) s2 /\
    world s2 = 3%nat /\
    extends Bench.after_third_exchange
      s2 [EvClose 3%nat].
Proof.
  assert (H1 : Int64.sub 2 2 <= 0) by (vm_compute; discriminate).
  assert (H2 : Int64.min_int <= 2 < Int64.max_int) by (vm_compute; split; [discriminate|reflexivity]).
  refine (conj eq_refl (conj H1 (conj H2 _))).
  exact (C3_budget_exhausted Bench.env (Bench.client 503 2 None) 0
           Bench.get Bench.get_x Bench.get_x 2 None (Bench.answer 503 3)
           None None None (Bench.start 2)
           Bench.after_third_exchange
           eq_refl H1 H2).
Defined.

Lemma C2_witness :
  0 <= RetryMax (cfg (Bench.client 503 2 None)) <= Int64.max_int /\
  (Z.to_nat (RetryMax (cfg (Bench.client 503 2 None))) + 1 <= 3)%nat /\
  match Do Bench.env (Bench.client 503 2 None) 3 (Some Bench.get) (Bench.start 0) with
  | Ok _ s' | Panicked s' =>
      exists new, extends (Bench.start 0) s' new /\
        (count is_transport new
         <= Z.to_nat (RetryMax (cfg (Bench.client 503 2 None))) + 1)%nat
  | OutOfFuel => False
  end /\
  exists s2 new,
    loop Bench.env (Bench.client 503 2 None) 1 Bench.get Bench.get_x 2
      None None (Bench.start 2)
      = exhausted Bench.env (Bench.client 503 2 None) Bench.get_x
          (Bench.answer 503 3) None s2 /\
    world s2 = world Bench.after_third_exchange /\
    extends Bench.after_third_exchange s2 new /\
    count is_wait new = 0%nat /\ count is_transport new = 0%nat.
Proof.
  assert (H1 : 0 <= RetryMax (cfg (Bench.client 503 2 None)) <= Int64.max_int)
    by (vm_compute; split; discriminate).
  assert (H2 : (Z.to_nat (RetryMax (cfg (Bench.client 503 2 None))) + 1 <= 3)%nat)
    by (vm_compute; lia).
  assert (H3 : 0 <= 2 <= Int64.max_int) by (vm_compute; split; discriminate).
  assert (H4 : RetryMax (cfg (Bench.client 503 2 None)) - 2 <= 0)
    by (vm_compute; discriminate).
  refine (conj H1 (conj H2 _)).
  destruct (C2_attempts_bounded Bench.env (Bench.client 503 2 None) 3
              (Some Bench.get) (Bench.start 0) H1 H2) as [Ha Hb].
  split; [exact Ha|].
  exact (Hb 0%nat Bench.get Bench.get_x Bench.get_x 2 None (Bench.answer 503 3)
           None None None (Bench.start 2) Bench.after_third_exchange
           H3 H4 eq_refl).
Defined.



(** The whole call for the scenario of C10, through [Do] with the
    defaults of [Config.init]: a response and an error come back
    together, the context was never cancelled, and the books show the
    body of the response read and closed. *)
Example Do_stale_response :
  Do Ledger.env (Ledger.client (Ledger.always 503) 2) 3 (Some Ledger.post)
    Ledger.start
  = Ok (Some {| StatusCode := 503; RespBody := 1%nat |},
        Some (Err "payload gone"))
      {| world := {| Ledger.served := 1; Ledger.drained := [1%nat];
                     Ledger.closed := [1%nat] |};
         trace := [EvDebug "Sending request for method"; EvBody 0;
                   EvTransport 0; EvCheckRetry 0; EvDiscard 1%nat 4096;
                   EvClose 1%nat; EvBackoff 0;
                   EvDebug "retrying http request"; EvSleep 0; EvBody 1] |}.
Proof. vm_compute. reflexivity. Qed.

(** Three 503 answers with [RetryMax = 2]: every body is closed, the
    first two by [drainBody] after they were read, the last one on
    giving up. *)
Example Do_closes_every_body :
  exists r t,
    Do Ledger.env (Ledger.client (Ledger.always 503) 2) 3 (Some Ledger.get)
      Ledger.start
    = Ok r {| world := {| Ledger.served := 3;
                          Ledger.drained := [2%nat; 1%nat];
                          Ledger.closed := [3%nat; 2%nat; 1%nat] |};
              trace := t |}.
Proof. eexists; eexists. vm_compute. reflexivity. Qed.

(** ** When nothing panics *)

Section DoReturns.

Context {W : Type} (env : Env W) (c : Client W).

Hypothesis Hc : polite c.

Lemma Logger_Debug_returns (s : State W) msg :
  Logger_Debug c msg s
  = Ok tt {| world := world s; trace := trace s ++ [EvDebug msg] |}.
Proof.
  destruct (polite_Logger c Hc) as [l Hl].
  unfold Logger_Debug, bind. rewrite Hl. reflexivity.
Qed.

Lemma Logger_Error_returns (s : State W) msg :
  Logger_Error c msg s
  = Ok tt {| world := world s; trace := trace s ++ [EvError msg] |}.
Proof.
  destruct (polite_Logger c Hc) as [l Hl].
  unfold Logger_Error, bind. rewrite Hl. reflexivity.
Qed.

Lemma call_returns {A} e (f : ext W A) (s : State W) :
  returns f -> exists a s', call e f s = Ok a s'.
Proof.
  intros Hf. destruct (Hf (world s)) as (a & w' & E).
  unfold call. rewrite E. eauto.
Qed.

Lemma bind_returns {A B} (m : M W A) (k : A -> M W B) s :
  (exists a s1, m s = Ok a s1 /\ exists b s2, k a s1 = Ok b s2) ->
  exists b s2, bind m k s = Ok b s2.
Proof. intros (a & s1 & E & b & s2 & E'). unfold bind. rewrite E. eauto. Qed.

Lemma exchange_returns req hreq i t s :
  body_returns req ->
  exists x s', exchange c req hreq i t s = Ok x s'.
Proof.
  intros Hb. unfold exchange.
  apply bind_returns.
  assert (H1 : exists t' s1,
    (if metrics c && (0 <? i)
     then bind (emit (EvNewTimer doRetryDuration))
            (fun _ => bind (emit (EvInc doRetries)) (fun _ => ret true))
     else ret t) s = Ok t' s1).
  { destruct (metrics c && (0 <? i)); simpl; eauto. }
  destruct H1 as (t' & s1 & E1). exists t', s1. split; [exact E1|].
  apply bind_returns.
  assert (H2 : exists rw s2,
    match body req with
    | Some f =>
        bind (call (EvBody i) f)
          (fun '(b, err) =>
             match err with
             | Some e =>
                 bind (observe_retryTimer t')
                   (fun _ =>
                      bind (when (metrics c)
                              (bind (emit (EvInc doFailure))
                                 (fun _ => when (0 <? i)
                                             (emit (EvInc doRetriesFailure)))))
                        (fun _ => ret (inl e)))
             | None => ret (inr (with_Body hreq (Some (as_ReadCloser b))))
             end)
    | None => ret (inr hreq)
    end s1 = Ok rw s2).
  { destruct (body req) as [f|] eqn:Ef; [|simpl; eauto].
    destruct (call_returns (EvBody i) f s1 (Hb f Ef)) as ([b err] & s' & E).
    unfold bind at 1. rewrite E. destruct err as [e|]; [|simpl; eauto].
    unfold observe_retryTimer, when, bind, emit, ret.
    destruct t', (metrics c), (0 <? i); simpl; eauto. }
  destruct H2 as (rw & s2 & E2). exists rw, s2. split; [exact E2|].
  destruct rw as [e|h]; [simpl; eauto|].
  destruct (polite_HttpClient c Hc) as (client & Hcl & Hcr).
  destruct (polite_CheckRetry c Hc) as (check & Hck & Hkr).
  destruct (polite_Logger c Hc) as [l Hl].
  apply bind_returns.
  assert (H3 : exists u s3,
    match RequestLogHook_ (cfg c) with
    | Some hook =>
        bind (deref (Logger_ (cfg c)))
          (fun l => call (EvRequestLogHook i) (hook l h i))
    | None => ret tt
    end s2 = Ok u s3).
  { destruct (RequestLogHook_ (cfg c)) as [hook|] eqn:Eh; [|simpl; eauto].
    unfold bind. rewrite Hl. simpl.
    apply call_returns. apply (polite_RequestLogHook c Hc hook Eh). }
  destruct H3 as (u & s3 & E3). exists u, s3. split; [exact E3|].
  unfold bind at 1. rewrite Hcl. simpl.
  destruct (Hcr h (world s3)) as ([r e] & w4 & E4).
  unfold bind at 1, call at 1. rewrite E4. simpl.
  unfold bind at 1. rewrite Hck. simpl.
  destruct (Hkr client h (world s3) r e w4 Hcl E4 w4) as ([ok ce] & w5 & E5).
  unfold bind at 1, call at 1. simpl. rewrite E5. simpl.
  unfold bind at 1, observe_retryTimer, when.
  assert (H6 : forall s6 : State W, exists u6 s7,
    match e with
    | Some e0 =>
        bind (if metrics c && (0 <? i) then emit (EvInc doRetriesFailure)
              else ret tt)
          (fun _ => Logger_Error c (Error e0))
    | None =>
        match ResponseLogHook_ (cfg c) with
        | Some hook =>
            bind (deref (Logger_ (cfg c)))
              (fun l => call (EvResponseLogHook i) (hook l r))
        | None => ret tt
        end
    end s6 = Ok u6 s7).
  { intros s6. destruct e as [e0|].
    - unfold bind. destruct (metrics c && (0 <? i)); simpl;
        rewrite Logger_Error_returns; eauto.
    - destruct (ResponseLogHook_ (cfg c)) as [hook|] eqn:Eh; [|simpl; eauto].
      unfold bind. rewrite Hl. simpl.
      apply call_returns. apply (polite_ResponseLogHook c Hc hook Eh). }
  destruct t'; simpl.
  - destruct (H6 {| world := w5;
                    trace := (trace s3 ++ [EvTransport i] ++ [EvCheckRetry i])
                             ++ [EvObserveDuration doRetryDuration] |})
      as (u6 & s7 & E6).
    unfold when in E6.
    unfold bind at 1. rewrite <- app_assoc in E6. simpl in E6.
    rewrite <- !app_assoc. simpl. rewrite E6. simpl. eauto.
  - destruct (H6 {| world := w5;
                    trace := (trace s3 ++ [EvTransport i]) ++ [EvCheckRetry i] |})
      as (u6 & s7 & E6).
    unfold when in E6. unfold bind at 1. rewrite E6. simpl. eauto.
Qed.

(** [drainBody] needs nothing of the client: it returns even without a
    logger, asks for at most [respReadLimit] bytes, and closes the body
    whether or not the read failed. *)
Lemma drainBody_total b (s : State W) :
  exists mid,
    drainBody env c b s
    = Ok tt {| world := body_Close env b
                          (snd (body_discard env b respReadLimit (world s)));
               trace := trace s ++ [EvDiscard b respReadLimit] ++ mid
                                ++ [EvClose b] |} /\
    match fst (body_discard env b respReadLimit (world s)), Logger_ (cfg c) with
    | Some e, Some _ => mid = [EvError (Error e)]
    | _, _ => mid = []
    end.
Proof.
  unfold drainBody, defer_effect, bind, effect.
  destruct (body_discard env b respReadLimit (world s)) as [[e|] w]; simpl;
    [destruct (Logger_ (cfg c))|]; simpl; eexists;
    (split; [|reflexivity]); simpl; rewrite <- ?app_assoc; reflexivity.
Qed.

Lemma decide_returns i hreq resp err ok ce (s : State W) :
  exists x s', decide env c i hreq resp err ok ce s = Ok x s'.
Proof.
  unfold decide. destruct ok; simpl.
  - destruct (Int64.sub (RetryMax (cfg c)) i <=? 0).
    + unfold bind, when, emit, ret.
      destruct (metrics c && (if err is Some _ then true else false)); eauto.
    + destruct (polite_Backoff c Hc) as (backoff & Hb & Hr).
      apply bind_returns.
      assert (H1 : exists u s1,
        match err, resp with
        | None, Some r => drainBody env c (RespBody r)
        | _, _ => ret tt
        end s = Ok u s1).
      { destruct err, resp as [r|]; simpl; eauto.
        destruct (drainBody_total (RespBody r) s) as (mid & E & _).
        rewrite E. eauto. }
      destruct H1 as (u & s1 & E1). exists u, s1. split; [exact E1|].
      unfold bind at 1. rewrite Hb. simpl.
      destruct (call_returns (EvBackoff i)
                  (backoff (RetryWaitMin (cfg c)) (RetryWaitMax (cfg c)) i resp)
                  s1 (Hr _ _ _ _)) as (wait & s2 & E2).
      unfold bind at 1. rewrite E2.
      unfold bind at 1. rewrite Logger_Debug_returns.
      unfold bind, effect, ret. simpl. eauto.
  - unfold bind, when, emit, ret. destruct (metrics c); eauto.
Qed.

Lemma exhausted_returns hreq resp err (s : State W) :
  exists x s', exhausted env c hreq resp err s = Ok x s'.
Proof.
  unfold exhausted.
  destruct (ErrorHandler_ (cfg c)) as [handler|] eqn:Eh.
  - apply call_returns. apply (polite_ErrorHandler c Hc handler Eh).
  - unfold bind, effect, when, emit, ret.
    destruct resp, (metrics c); simpl; eauto.
Qed.

Lemma turn_returns req hreq i resp t (s : State W) :
  body_returns req ->
  exists x s', turn env c req hreq i resp t s = Ok x s'.
Proof.
  intros Hb. unfold turn.
  destruct (exchange_returns req hreq i t s Hb) as (x & s1 & E).
  unfold bind. rewrite E. destruct x; [simpl; eauto | apply decide_returns].
Qed.

Lemma loop_returns fuel : forall req hreq i resp err (s : State W),
  body_returns req ->
  0 <= i <= RetryMax (cfg c) -> RetryMax (cfg c) <= Int64.max_int ->
  (Z.to_nat (RetryMax (cfg c) - i) + 1 <= fuel)%nat ->
  exists x s', loop env c fuel req hreq i resp err s = Ok x s'.
Proof.
  induction fuel as [|fuel IH]; intros req hreq i resp err s Hb Hi Hm Hf; [lia|].
  simpl. destruct (turn_returns req hreq i resp false s Hb) as (x & s1 & E).
  unfold bind. rewrite E. destruct x as [r e|r e|h r e].
  - simpl; eauto.
  - apply exhausted_returns.
  - apply turn_Continue in E.
    assert (Hs : Int64.sub (RetryMax (cfg c)) i = RetryMax (cfg c) - i).
    { apply wrap_small.
      unfold Int64.in_range, Int64.min_int, Int64.max_int in *. lia. }
    rewrite Hs in E.
    assert (Ha : Int64.add i 1 = i + 1).
    { apply wrap_small.
      unfold Int64.in_range, Int64.min_int, Int64.max_int in *. lia. }
    rewrite Ha. apply IH; [assumption | lia | assumption | lia].
Qed.

Lemma defer_returns {A} e (m : M W A) s :
  (exists a s', m s = Ok a s') -> exists a s', defer e m s = Ok a s'.
Proof. intros (a & s' & E). unfold defer. rewrite E. eauto. Qed.

Lemma WithContext_body_returns (r : Request W) ctx :
  body_returns r -> body_returns (WithContext r ctx).
Proof. intros H f Hf. apply H. exact Hf. Qed.

(** X1: given a request, not nil, whose body function returns, a client
    with its mandatory fields set whose callbacks all return (the
    modifier, if there is one, returning a request and not nil) gives a
    call of [Do] that returns: with [0 <= RetryMax] the call does not
    panic, and [RetryMax + 1] turns are enough. *)
Theorem X1_Do_returns (fuel : nat) (req : Request W) (s : State W) :
  body_returns req ->
  0 <= RetryMax (cfg c) <= Int64.max_int ->
  (Z.to_nat (RetryMax (cfg c)) + 1 <= fuel)%nat ->
  exists r s', Do env c fuel (Some req) s = Ok r s'.
Proof.
  intros Hb Hm Hf.
  assert (Hl : forall r s0, body_returns r ->
            exists x s', bind (Logger_Debug c "Sending request for method")
                           (fun _ => loop env c fuel r (Request_ r) 0 None None) s0
                         = Ok x s').
  { intros r s0 Hr. unfold bind. rewrite Logger_Debug_returns.
    apply loop_returns; [assumption | lia | lia |].
    rewrite Z.sub_0_r. lia. }
  assert (Hk : forall s0, exists x s',
    bind (match RequestModifier_ (cfg c) with
          | Some modify => call EvRequestModifier (modify (Some req))
          | None => ret (Some req)
          end)
      (fun req1 =>
         bind (deref req1) (fun req0 =>
         match NewChildSpanFromContext env (ReqContext (Request_ req0))
                 "HttpClient.Do" with
         | Some span =>
             defer (EvSpanFinish span)
               (bind (Logger_Debug c "Sending request for method")
                  (fun _ =>
                     loop env c fuel
                       (WithContext req0
                          (CtxWithValue (ReqContext (Request_ req0)) "span" span))
                       (Request_
                          (WithContext req0
                             (CtxWithValue (ReqContext (Request_ req0)) "span" span)))
                       0 None None))
         | None =>
             bind (Logger_Debug c "Sending request for method")
               (fun _ => loop env c fuel req0 (Request_ req0) 0 None None)
         end)) s0 = Ok x s').
  { intros s0. apply bind_returns.
    assert (H1 : exists r1 s1,
      match RequestModifier_ (cfg c) with
      | Some modify => call EvRequestModifier (modify (Some req))
      | None => ret (Some req)
      end s0 = Ok (Some r1) s1 /\ body_returns r1).
    { destruct (RequestModifier_ (cfg c)) as [modify|] eqn:Em.
      - destruct (polite_RequestModifier c Hc modify Em req) as [Hr Hp].
        destruct (Hr (world s0)) as (r1 & w1 & E1).
        destruct (Hp _ _ _ E1 Hb) as (q & -> & Hq).
        unfold call. rewrite E1. eexists; eexists. split; [reflexivity|].
        exact Hq.
      - simpl. eauto. }
    destruct H1 as (r1 & s1 & E1 & Hb1). exists (Some r1), s1.
    split; [exact E1|].
    apply bind_returns. exists r1, s1. split; [reflexivity|].
    destruct (NewChildSpanFromContext _ _ _) as [span|].
    - apply defer_returns.
      apply (Hl _ s1 (WithContext_body_returns r1
               (CtxWithValue (ReqContext (Request_ r1)) "span" span) Hb1)).
    - apply Hl. exact Hb1. }
  unfold Do. destruct (metrics c).
  - apply bind_returns. eexists; eexists. split; [reflexivity|].
    apply bind_returns. eexists; eexists. split; [reflexivity|].
    apply defer_returns. apply Hk.
  - apply Hk.
Qed.

End DoReturns.

Lemma Bench_ctx_now ctx w : ctx_now Bench.env ctx w = {| ctx_Err := None |}.
Proof. induction ctx; simpl; auto. Qed.

Lemma Bench_polite code retryMax handler :
  (forall h, handler = Some h -> forall r e n, returns (h r e n)) ->
  polite (Bench.client code retryMax handler).
Proof.
  intros Hh. constructor; simpl.
  - eexists. reflexivity.
  - exists (Bench.always code). split; [reflexivity|].
    intros h w. unfold Bench.always. eauto.
  - eexists. split; [reflexivity|].
    intros client h w r e w' Hcl E w1. inversion Hcl; subst.
    unfold Bench.always in E. inversion E; subst.
    unfold DefaultRetryPolicy_cb, DefaultRetryPolicy.
    rewrite Bench_ctx_now. simpl.
    destruct ((code =? 0) || (500 <=? code) && negb (code =? 501)); eauto.
  - eexists. split; [reflexivity|]. intros min max i r w.
    unfold DefaultBackoff_cb, pure_call. eauto.
  - intros hook H. discriminate.
  - intros hook H. discriminate.
  - intros modify H. discriminate.
  - intros h H. apply Hh. assumption.
Qed.

Lemma X1_witness :
  body_returns Bench.get /\
  0 <= RetryMax (cfg (Bench.client 503 2 None)) <= Int64.max_int /\
  (Z.to_nat (RetryMax (cfg (Bench.client 503 2 None))) + 1 <= 3)%nat /\
  exists r s',
    Do Bench.env (Bench.client 503 2 None) 3 (Some Bench.get) (Bench.start 0)
    = Ok r s'.
Proof.
  assert (H0 : body_returns Bench.get) by (intros f Hf; discriminate Hf).
  assert (H1 : 0 <= RetryMax (cfg (Bench.client 503 2 None)) <= Int64.max_int)
    by (vm_compute; split; discriminate).
  assert (H2 : (Z.to_nat (RetryMax (cfg (Bench.client 503 2 None))) + 1 <= 3)%nat)
    by (vm_compute; lia).
  refine (conj H0 (conj H1 (conj H2 _))).
  exact (X1_Do_returns Bench.env (Bench.client 503 2 None)
           (Bench_polite 503 2 None ltac:(intros h H; discriminate H))
           3 Bench.get (Bench.start 0) H0 H1 H2).
Defined.

(** ** Construction *)

Section NewFacts.

Context {W : Type} (env : Env W).

(** X2: [Config.init] is idempotent: the defaults it puts in are values
    it leaves alone, so initialising a configuration twice changes
    nothing more. *)
Theorem X2_init_idempotent (c : Config W) :
  Config_init env (Config_init env c) = Config_init env c.
Proof.
  unfold Config_init; simpl.
  destruct (Logger_ c), (HttpClient_ c), (CheckRetry_ c), (Backoff_ c);
    destruct (Z.leb_spec (RetryMax c) 0), (Z.leb_spec (RetryWaitMax c) 0);
    simpl;
    repeat match goal with
           | |- context [?x <=? 0] =>
               destruct (Z.leb_spec x 0);
               [ unfold defaultRetryMax, defaultRetryWaitMax, Second in *; lia |]
           end;
    reflexivity.
Qed.


End NewFacts.

(** ** Waiting between attempts *)

Ltac adds_tac :=
  lazymatch goal with
  | |- adds _ _ (ret _) => apply adds_ret
  | |- adds _ _ panic => apply adds_panic
  | |- adds _ _ (deref _) => apply adds_deref
  | |- adds _ _ (emit _) =>
      apply adds_emit; simpl; intros; first [discriminate | lia]
  | |- adds _ _ (call _ _) =>
      apply adds_call; simpl; intros; first [discriminate | lia]
  | |- adds _ _ (effect _ _) =>
      apply adds_effect; simpl; intros; first [discriminate | lia]
  | |- adds _ _ (when _ _) => apply adds_when; adds_tac
  | |- adds ?p ?n (defer _ _) =>
      apply (adds_defer p n n); [adds_tac | simpl; lia]
  | |- adds ?p ?n (defer_effect _ _ _) =>
      apply (adds_defer_effect p n n); [adds_tac | simpl; lia]
  | |- adds ?p ?n (bind _ _) =>
      first
        [ solve [apply (adds_bind p 0 n n); [adds_tac | intros; adds_tac | lia]]
        | solve [apply (adds_bind p n 0 n); [adds_tac | intros; adds_tac | lia]] ]
  | |- adds _ _ (match ?x with _ => _ end) => destruct x; adds_tac
  | |- adds _ _ (Logger_Debug _ _) => unfold Logger_Debug; adds_tac
  | |- adds _ _ (Logger_Error _ _) => unfold Logger_Error; adds_tac
  | |- adds _ _ (observe_retryTimer _) => unfold observe_retryTimer; adds_tac
  | |- adds _ _ (drainBody _ _ _) => unfold drainBody; adds_tac
  end.

Section Waiting.

Context {W : Type} (env : Env W) (c : Client W).

Lemma post_weaken {A} (m : M W A) (Q Q' : option A -> list event -> Prop) :
  post m Q -> (forall r new, Q r new -> Q' r new) -> post m Q'.
Proof.
  intros H HQ s. specialize (H s).
  destruct (m s); simpl in *; try done;
    destruct H as (new & ? & ?); exists new; (split; [done | auto]).
Qed.

Lemma post_bind {A B} (m : M W A) (k : A -> M W B)
    (Q1 : option A -> list event -> Prop)
    (Q2 : A -> option B -> list event -> Prop)
    (Q : option B -> list event -> Prop) :
  post m Q1 ->
  (forall a, post (k a) (Q2 a)) ->
  (forall n1, Q1 None n1 -> Q None n1) ->
  (forall a n1 r n2, Q1 (Some a) n1 -> Q2 a r n2 -> Q r (n1 ++ n2)) ->
  post (bind m k) Q.
Proof.
  intros Hm Hk Hp Hq s. unfold bind. specialize (Hm s).
  destruct (m s) as [a s1|s1|]; simpl in *; try done.
  - destruct Hm as (n1 & E1 & H1). specialize (Hk a s1).
    destruct (k a s1) as [b s2|s2|]; simpl in *; try done;
      destruct Hk as (n2 & E2 & H2); exists (n1 ++ n2);
      (split; [unfold extends in *; rewrite E2, E1, app_assoc; done
              | eapply Hq; eassumption]).
  - destruct Hm as (n1 & E1 & H1). exists n1. split; [done | auto].
Qed.

Lemma adds_post {A} p q n k (m : M W A) :
  adds p n m -> adds q k m ->
  post m (fun _ new => (count p new <= n)%nat /\ (count q new <= k)%nat).
Proof.
  intros Hp Hq s. specialize (Hp s). specialize (Hq s).
  destruct (m s) as [a s1|s1|]; simpl in *; try done;
    destruct Hp as (n1 & E1 & H1); destruct Hq as (n2 & E2 & H2);
    unfold extends in *; rewrite E1 in E2; apply app_inv_head in E2; subst n2;
    exists n1; auto.
Qed.

Lemma still_nil : still [].
Proof. split; reflexivity. Qed.

Lemma still_app n1 n2 : still n1 -> still n2 -> still (n1 ++ n2).
Proof.
  intros [H1 H2] [H3 H4]. split; rewrite count_app; lia.
Qed.

Lemma adds_still {A} (m : M W A) :
  adds is_transport 0 m -> adds is_sleep 0 m -> post m (fun _ new => still new).
Proof.
  intros H1 H2. eapply post_weaken; [apply (adds_post _ _ _ _ _ H1 H2)|].
  intros r new [? ?]. split; lia.
Qed.

(** A turn that decides: no transport call, and one sleep exactly when it
    goes round again. *)
Lemma decide_post i hreq resp err ok ce :
  post (decide env c i hreq resp err ok ce)
    (fun r new => count is_transport new = 0%nat /\
                  count is_sleep new = continues r).
Proof.
  unfold decide. destruct ok; simpl.
  - destruct (Int64.sub (RetryMax (cfg c)) i <=? 0).
    + intros s. unfold bind, when, emit, ret.
      destruct (metrics c && (if err is Some _ then true else false)); simpl;
        eexists; (split; [unfold extends; simpl; try reflexivity;
                          by rewrite app_nil_r|]); split; reflexivity.
    + set (Q := fun (r : option control) new =>
                  count is_transport new = 0%nat /\
                  count is_sleep new = continues r).
      assert (Hs : forall {A} (m : M W A) (k : A -> M W control),
                adds is_transport 0 m -> adds is_sleep 0 m ->
                (forall a, post (k a) Q) -> post (bind m k) Q).
      { intros A m k H1 H2 Hk.
        apply (post_bind m k (fun _ new => still new) (fun _ => Q) Q);
          [apply adds_still; assumption | exact Hk | |].
        - intros n1 [? ?]. split; [assumption | simpl; assumption].
        - intros a n1 r n2 [? ?] [? ?]. split; rewrite count_app; lia. }
      apply Hs; [adds_tac | adds_tac | intros _].
      apply Hs; [adds_tac | adds_tac | intros backoff].
      apply Hs; [adds_tac | adds_tac | intros wait].
      apply Hs; [adds_tac | adds_tac | intros _].
      intros s. unfold bind, effect, ret. simpl.
      exists [EvSleep wait]. split; [reflexivity|]. split; reflexivity.
  - intros s. unfold bind, when, emit, ret.
    destruct (metrics c); simpl;
      eexists; (split; [unfold extends; simpl; try reflexivity;
                        by rewrite app_nil_r|]); split; reflexivity.
Qed.

Lemma exchange_adds_sleep req hreq i t :
  adds is_sleep 0 (exchange c req hreq i t).
Proof. unfold exchange. adds_tac. Qed.

Lemma exhausted_adds_sleep hreq resp err :
  adds is_sleep 0 (exhausted env c hreq resp err).
Proof. unfold exhausted. adds_tac. Qed.

(** One turn: at most one transport call, and one sleep exactly when the
    loop goes on. *)
Lemma turn_post req hreq i resp t :
  post (turn env c req hreq i resp t)
    (fun r new => (count is_transport new <= 1)%nat /\
                  count is_sleep new = continues r).
Proof.
  unfold turn.
  eapply (post_bind _ _
            (fun _ new => (count is_transport new <= 1)%nat /\
                          (count is_sleep new <= 0)%nat)
            (fun _ r new => count is_transport new = 0%nat /\
                            count is_sleep new = continues r)).
  - apply adds_post; [apply exchange_adds_transport | apply exchange_adds_sleep].
  - intros [e|h r e ok ce].
    + intros s. simpl. exists []. split; [unfold extends; by rewrite app_nil_r|].
      split; reflexivity.
    + apply decide_post.
  - intros n1 [? ?]. split; [assumption | simpl; lia].
  - intros a n1 r n2 [? ?] [? ?]. split; rewrite count_app; lia.
Qed.

Lemma loop_waits fuel : forall req hreq i resp err,
  0 <= i <= RetryMax (cfg c) -> RetryMax (cfg c) <= Int64.max_int ->
  (Z.to_nat (RetryMax (cfg c) - i) + 1 <= fuel)%nat ->
  post (loop env c fuel req hreq i resp err)
    (fun _ new =>
       (count is_sleep new <= Z.to_nat (RetryMax (cfg c) - i))%nat /\
       (count is_transport new <= count is_sleep new + 1)%nat).
Proof.
  induction fuel as [|fuel IH]; intros req hreq i resp err Hi Hm Hf; [lia|].
  intros s. simpl. unfold bind.
  pose proof (turn_post req hreq i resp false s) as Ht.
  destruct (turn env c req hreq i resp false s) as [r s1|s1|] eqn:Et;
    simpl in Ht; [| |done].
  - destruct Ht as (n1 & E1 & T1 & S1). destruct r as [r e|r e|h r e];
      simpl in S1.
    + simpl. exists n1. split; [done|lia].
    + pose proof (adds_post _ _ _ _ _ (exhausted_adds_transport env c hreq r e)
                    (exhausted_adds_sleep hreq r e) s1) as Hx.
      destruct (exhausted env c hreq r e s1) as [x s2|s2|]; simpl in Hx;
        [| |done]; destruct Hx as (n2 & E2 & T2 & S2); exists (n1 ++ n2);
        (split; [unfold extends in *; rewrite E2, E1, app_assoc; done
                | rewrite !count_app; lia]).
    + apply turn_Continue in Et.
      assert (Hs : Int64.sub (RetryMax (cfg c)) i = RetryMax (cfg c) - i).
      { apply wrap_small.
        unfold Int64.in_range, Int64.min_int, Int64.max_int in *. lia. }
      rewrite Hs in Et.
      assert (Ha : Int64.add i 1 = i + 1).
      { apply wrap_small.
        unfold Int64.in_range, Int64.min_int, Int64.max_int in *. lia. }
      rewrite Ha.
      assert (Hn : Z.to_nat (RetryMax (cfg c) - i)
                   = S (Z.to_nat (RetryMax (cfg c) - (i + 1)))) by lia.
      specialize (IH req h (i + 1) r e ltac:(lia) Hm ltac:(lia) s1).
      destruct (loop env c fuel req h (i + 1) r e s1) as [x s2|s2|];
        simpl in IH; [| |done]; destruct IH as (n2 & E2 & S2 & T2);
        exists (n1 ++ n2);
        (split; [unfold extends in *; rewrite E2, E1, app_assoc; done
                | rewrite !count_app; lia]).
  - destruct Ht as (n1 & E1 & T1 & S1). simpl in S1.
    exists n1. split; [done|lia].
Qed.

Lemma post_defer {A} e (m : M W A) (Q : option A -> list event -> Prop) :
  post m (fun r new => Q r (new ++ [e])) -> post (defer e m) Q.
Proof.
  intros H s. unfold defer. specialize (H s).
  destruct (m s) as [a s1|s1|]; simpl in *; try done;
    destruct H as (new & E & HQ); exists (new ++ [e]);
    (split; [unfold extends in *; simpl; rewrite E, app_assoc; done | done]).
Qed.

Lemma wrapped_suffix {A} (Q : option A -> list event -> Prop) r new e :
  is_core e = false -> wrapped Q r new -> wrapped Q r (new ++ [e]).
Proof.
  intros He (pre & mid & suf & -> & Hp & Hs & HQ).
  exists pre, mid, (suf ++ [e]). split; [by rewrite <- !app_assoc|].
  split; [assumption|]. split; [|assumption].
  rewrite count_app, count_one, He. lia.
Qed.

Lemma wrapped_prefix {A} (Q : option A -> list event -> Prop) r n1 new :
  count is_core n1 = 0%nat -> wrapped Q r new -> wrapped Q r (n1 ++ new).
Proof.
  intros H1 (pre & mid & suf & -> & Hp & Hs & HQ).
  exists (n1 ++ pre), mid, suf. split; [by rewrite <- !app_assoc|].
  split; [rewrite count_app; lia|]. auto.
Qed.

Lemma wrapped_panic {A} (Q : option A -> list event -> Prop) n1 :
  count is_core n1 = 0%nat -> wrapped Q None n1.
Proof.
  intros H1. exists n1, [], []. split; [by rewrite !app_nil_r|].
  split; [assumption|]. split; [reflexivity|]. right. auto.
Qed.

Lemma post_wrapper_then {A B} (m : M W A) (k : A -> M W B)
    (Q : option B -> list event -> Prop) :
  adds is_core 0 m -> (forall a, post (k a) (wrapped Q)) ->
  post (bind m k) (wrapped Q).
Proof.
  intros Hm Hk.
  apply (post_bind m k (fun _ new => count is_core new = 0%nat)
           (fun _ => wrapped Q)).
  - eapply post_weaken; [apply (adds_post _ _ _ _ _ Hm Hm)|].
    intros r new [? _]. lia.
  - exact Hk.
  - intros n1 H1. apply wrapped_panic. assumption.
  - intros a n1 r n2 H1 H2. apply wrapped_prefix; assumption.
Qed.

(** [Do] is its loop inside events of the wrapper: metrics, the span,
    the debug line and the request modifier. *)
Lemma Do_wraps fuel req (Q : option (option Response * option error)
                              -> list event -> Prop) :
  (forall r h, post (loop env c fuel r h 0 None None) Q) ->
  post (Do env c fuel req) (wrapped Q).
Proof.
  intros Hl.
  assert (Hk : forall r, post
      (bind (Logger_Debug c "Sending request for method")
         (fun _ => loop env c fuel r (Request_ r) 0 None None)) (wrapped Q)).
  { intros r. apply post_wrapper_then; [adds_tac|]. intros _.
    eapply post_weaken; [apply Hl|]. intros x new HQ.
    exists [], new, []. rewrite app_nil_r. auto. }
  assert (Hb : post
    (bind (match RequestModifier_ (cfg c) with
           | Some modify => call EvRequestModifier (modify req)
           | None => ret req
           end)
       (fun req1 =>
          bind (deref req1) (fun req0 =>
          match NewChildSpanFromContext env (ReqContext (Request_ req0))
                  "HttpClient.Do" with
          | Some span =>
              defer (EvSpanFinish span)
                (bind (Logger_Debug c "Sending request for method")
                   (fun _ =>
                      loop env c fuel
                        (WithContext req0
                           (CtxWithValue (ReqContext (Request_ req0)) "span" span))
                        (Request_
                           (WithContext req0
                              (CtxWithValue (ReqContext (Request_ req0)) "span" span)))
                        0 None None))
          | None =>
              bind (Logger_Debug c "Sending request for method")
                (fun _ => loop env c fuel req0 (Request_ req0) 0 None None)
          end))) (wrapped Q)).
  { apply post_wrapper_then; [adds_tac|]. intros r1.
    apply post_wrapper_then; [adds_tac|]. intros r.
    destruct (NewChildSpanFromContext _ _ _).
    - apply post_defer. eapply post_weaken; [apply Hk|].
      intros x new Hw. apply wrapped_suffix; [reflexivity | assumption].
    - apply Hk. }
  unfold Do. destruct (metrics c).
  - apply post_wrapper_then; [adds_tac|]. intros _.
    apply post_wrapper_then; [adds_tac|]. intros _.
    apply post_defer. eapply post_weaken; [apply Hb|].
    intros x new Hw. apply wrapped_suffix; [reflexivity | assumption].
  - apply Hb.
Qed.

Lemma count_core_0 p l :
  (forall e, p e = true -> is_core e = true) ->
  count is_core l = 0%nat -> count p l = 0%nat.
Proof.
  intros Hp. induction l as [|e l IH]; [reflexivity|].
  change (e :: l) with ([e] ++ l). rewrite !count_app, !count_one.
  destruct (is_core e) eqn:Ec; [lia|].
  destruct (p e) eqn:Ep; [apply Hp in Ep; congruence|]. simpl. auto.
Qed.

(** X4: [Do] never tries again without having slept: among the events
    of a call there are at most [RetryMax] sleeps, and the transport
    calls are at most one more than the sleeps. *)
Theorem X4_sleep_between_attempts (fuel : nat) (req : option (Request W))
    (s : State W) :
  0 <= RetryMax (cfg c) <= Int64.max_int ->
  (Z.to_nat (RetryMax (cfg c)) + 1 <= fuel)%nat ->
  match Do env c fuel req s with
  | Ok _ s' | Panicked s' =>
      exists new, extends s s' new /\
        (count is_sleep new <= Z.to_nat (RetryMax (cfg c)))%nat /\
        (count is_transport new <= count is_sleep new + 1)%nat
  | OutOfFuel => False
  end.
Proof.
  intros Hm Hf.
  pose proof (Do_wraps fuel req
    (fun _ new =>
       (count is_sleep new <= Z.to_nat (RetryMax (cfg c)))%nat /\
       (count is_transport new <= count is_sleep new + 1)%nat)) as H.
  assert (Hl : forall r h, post (loop env c fuel r h 0 None None)
    (fun _ new =>
       (count is_sleep new <= Z.to_nat (RetryMax (cfg c)))%nat /\
       (count is_transport new <= count is_sleep new + 1)%nat)).
  { intros r h. pose proof (loop_waits fuel r h 0 None None) as Hw.
    rewrite Z.sub_0_r in Hw. apply Hw; lia. }
  specialize (H Hl s).
  assert (Hfin : forall (r : option (option Response * option error)) new,
    wrapped (fun _ new =>
       (count is_sleep new <= Z.to_nat (RetryMax (cfg c)))%nat /\
       (count is_transport new <= count is_sleep new + 1)%nat) r new ->
    (count is_sleep new <= Z.to_nat (RetryMax (cfg c)))%nat /\
    (count is_transport new <= count is_sleep new + 1)%nat).
  { intros r new (pre & mid & suf & -> & Hp & Hs & HQ).
    rewrite !count_app.
    rewrite (count_core_0 is_sleep pre), (count_core_0 is_sleep suf),
      (count_core_0 is_transport pre), (count_core_0 is_transport suf);
      try assumption; try (intros [] He; (discriminate He || reflexivity)).
    destruct HQ as [[? ?]|[_ ->]]; simpl; lia. }
  destruct (Do env c fuel req s) as [x s'|s'|]; simpl in *; [| |done];
    destruct H as (new & E & Hw); exists new; (split; [done|]);
    eapply Hfin; eassumption.
Qed.

End Waiting.

Lemma X4_witness :
  0 <= RetryMax (cfg (Bench.client 503 2 None)) <= Int64.max_int /\
  (Z.to_nat (RetryMax (cfg (Bench.client 503 2 None))) + 1 <= 3)%nat /\
  match Do Bench.env (Bench.client 503 2 None) 3 (Some Bench.get) (Bench.start 0) with
  | Ok _ s' | Panicked s' =>
      exists new, extends (Bench.start 0) s' new /\
        (count is_sleep new
         <= Z.to_nat (RetryMax (cfg (Bench.client 503 2 None))))%nat /\
        (count is_transport new <= count is_sleep new + 1)%nat
  | OutOfFuel => False
  end.
Proof.
  assert (H1 : 0 <= RetryMax (cfg (Bench.client 503 2 None)) <= Int64.max_int)
    by (vm_compute; split; discriminate).
  assert (H2 : (Z.to_nat (RetryMax (cfg (Bench.client 503 2 None))) + 1 <= 3)%nat)
    by (vm_compute; lia).
  split; [exact H1|]. split; [exact H2|].
  exact (X4_sleep_between_attempts Bench.env (Bench.client 503 2 None) 3
           (Some Bench.get) (Bench.start 0) H1 H2).
Defined.

(** ** The ends of the loop *)

Section Ends.

Context {W : Type} (env : Env W) (c : Client W).

(** X5: [drainBody] does not depend on the client being complete: it
    returns even without a logger.  It asks the body for at most
    [respReadLimit] bytes once, logs a read error when there is a
    logger, and then closes the body, in the world the read has left,
    whether or not the read failed. *)
Theorem X5_drainBody_always_closes (b : loc) (s : State W) :
  exists mid,
    drainBody env c b s
    = Ok tt {| world := body_Close env b
                          (snd (body_discard env b respReadLimit (world s)));
               trace := trace s ++ [EvDiscard b 4096] ++ mid ++ [EvClose b] |} /\
    match fst (body_discard env b respReadLimit (world s)), Logger_ (cfg c) with
    | Some e, Some _ => mid = [EvError (Error e)]
    | _, _ => mid = []
    end.
Proof.
  unfold drainBody, defer_effect, bind, effect, respReadLimit.
  destruct (body_discard env b 4096 (world s)) as [[e|] w]; simpl;
    [destruct (Logger_ (cfg c))|]; simpl; eexists;
    (split; [|reflexivity]); simpl; rewrite <- ?app_assoc; reflexivity.
Qed.

(** X6: with [PassthroughErrorHandler] a loop that runs out of budget
    returns the last response and the last error as they are, and the
    body of that response is not closed. *)
Theorem X6_passthrough_keeps_body_open (n : nat) (req : Request W)
    (hreq hreq' : HttpRequest) (i : Z) (resp0 resp : option Response)
    (err0 err checkErr : option error) (s0 s1 : State W) :
  ErrorHandler_ (cfg c) = Some PassthroughErrorHandler ->
  exchange c req hreq i false s0
    = Ok (Exchanged hreq' resp err true checkErr) s1 ->
  Int64.sub (RetryMax (cfg c)) i <= 0 ->
  exists s2 new,
    loop env c (S n) req hreq i resp0 err0 s0 = Ok (resp, err) s2 /\
    world s2 = world s1 /\ extends s1 s2 new /\
    count is_close new = 0%nat /\ count is_handler new = 1%nat.
Proof.
  intros Hh Hx Hr.
  rewrite (loop_breaks env c n req hreq hreq' i resp0 resp err0 err checkErr
             s0 s1 Hx Hr).
  unfold exhausted. rewrite Hh.
  unfold call, PassthroughErrorHandler, pure_call. simpl.
  eexists; eexists. split; [reflexivity|]. split; [reflexivity|].
  split; [unfold extends; simpl; rewrite <- app_assoc; reflexivity|].
  destruct (metrics c), err; split; reflexivity.
Qed.

(** X7: with metrics on and no error handler, giving up after a
    transport error counts the failure twice, once on leaving the loop
    and once after it; giving up after a response counts it once. *)
Theorem X7_doFailure_counted_twice (n : nat) (req : Request W)
    (hreq hreq' : HttpRequest) (i : Z) (resp0 resp : option Response)
    (err0 err checkErr : option error) (s0 s1 : State W) :
  metrics c = true ->
  ErrorHandler_ (cfg c) = None ->
  exchange c req hreq i false s0
    = Ok (Exchanged hreq' resp err true checkErr) s1 ->
  Int64.sub (RetryMax (cfg c)) i <= 0 ->
  exists r s2 new,
    loop env c (S n) req hreq i resp0 err0 s0 = Ok r s2 /\
    extends s1 s2 new /\
    count is_doFailure new = if err is Some _ then 2%nat else 1%nat.
Proof.
  intros Hm Hh Hx Hr.
  rewrite (loop_breaks env c n req hreq hreq' i resp0 resp err0 err checkErr
             s0 s1 Hx Hr).
  unfold exhausted. rewrite Hh, Hm.
  unfold bind, effect, when, emit, ret.
  destruct resp, err; simpl; eexists; eexists; eexists;
    (split; [reflexivity|]);
    (split; [unfold extends; simpl; rewrite <- ?app_assoc; simpl;
             reflexivity|]); reflexivity.
Qed.

End Ends.

Lemma X6_witness :
  ErrorHandler_ (cfg (Bench.client 503 1 (Some PassthroughErrorHandler)))
    = Some PassthroughErrorHandler /\
  exchange (Bench.client 503 1 (Some PassthroughErrorHandler)) Bench.get
    Bench.get_x 1 false (Bench.start 1)
    = Ok (Exchanged Bench.get_x (Bench.answer 503 2) None true None)
        {| world := 2%nat; trace := [EvTransport 1; EvCheckRetry 1] |} /\
  Int64.sub 1 1 <= 0 /\
  exists s2 new,
    loop Bench.env (Bench.client 503 1 (Some PassthroughErrorHandler)) 1
      Bench.get Bench.get_x 1 None None (Bench.start 1)
      = Ok (Bench.answer 503 2, None) s2 /\
    world s2 = 2%nat /\
    extends {| world := 2%nat; trace := [EvTransport 1; EvCheckRetry 1] |}
      s2 new /\
    count is_close new = 0%nat /\ count is_handler new = 1%nat.
Proof.
  assert (H1 : Int64.sub 1 1 <= 0) by (vm_compute; discriminate).
  split; [reflexivity|]. split; [reflexivity|]. split; [exact H1|].
  exact (X6_passthrough_keeps_body_open Bench.env
           (Bench.client 503 1 (Some PassthroughErrorHandler)) 0 Bench.get
           Bench.get_x Bench.get_x 1 None (Bench.answer 503 2) None None None
           (Bench.start 1)
           {| world := 2%nat; trace := [EvTransport 1; EvCheckRetry 1] |}
           eq_refl eq_refl H1).
Defined.

Lemma X7_witness :
  metrics Bench2.down = true /\
  ErrorHandler_ (cfg Bench2.down) = None /\
  exchange Bench2.down Bench.get Bench.get_x 1 false (Bench.start 1)
    = Ok (Exchanged Bench.get_x None (Some (Err "connection refused")) true
            (Some (Err "connection refused")))
        Bench2.after_second_refusal /\
  Int64.sub 1 1 <= 0 /\
  exists r s2 new,
    loop Bench.env Bench2.down 1 Bench.get Bench.get_x 1 None None
      (Bench.start 1) = Ok r s2 /\
    extends Bench2.after_second_refusal s2 new /\
    count is_doFailure new = 2%nat.
Proof.
  assert (H1 : Int64.sub 1 1 <= 0) by (vm_compute; discriminate).
  split; [reflexivity|]. split; [reflexivity|]. split; [reflexivity|].
  split; [exact H1|].
  exact (X7_doFailure_counted_twice Bench.env Bench2.down 0 Bench.get
           Bench.get_x Bench.get_x 1 None None None
           (Some (Err "connection refused"))
           (Some (Err "connection refused"))
           (Bench.start 1) Bench2.after_second_refusal
           eq_refl eq_refl eq_refl H1).
Defined.

(** ** Replayable bodies *)

Section Replay.

Lemma replays_invariant (f : ReaderFunc heap) (own : loc -> Prop) h0 c
    (I : heap -> list Reader -> Prop) :
  I h0 [] ->
  (forall h rs h' rs', I h rs -> step f own (h, rs) (h', rs') -> I h' rs') ->
  (forall h rs, I h rs ->
     exists r h', f h = (Val (Some r, None), h') /\ Store.content h' r = c) ->
  replays f own h0 c.
Proof.
  intros H0 Hstep Hcall h rs Hr.
  apply (Hcall h rs).
  assert (Hall : forall z, rtc (step f own) (h0, []) z -> I z.1 z.2).
  { apply rtc_ind_r.
    - exact H0.
    - intros [hy rsy] [hz rsz] _ Hs HI. simpl in *.
      eapply Hstep; eassumption. }
  exact (Hall (h, rs) Hr).
Qed.

Lemma fresh_not_in (h : gmap nat obj) (l : nat) :
  is_Some (h !! l) -> fresh (dom h) <> l.
Proof.
  intros Hl E. apply elem_of_dom in Hl. rewrite <- E in Hl.
  exact (is_fresh (dom h) Hl).
Qed.

Lemma advance_other (l l' : nat) n (h : gmap nat obj) :
  l <> l' -> Store.advance l n h !! l' = h !! l'.
Proof.
  intros Hne. unfold Store.advance. unfold heap, loc in *.
  destruct (h !! l) as [[d|b off|s i|g]|]; try reflexivity.
  - by rewrite lookup_insert_ne.
  - by rewrite lookup_insert_ne.
  - destruct (s_closed g); [reflexivity|]. by rewrite lookup_insert_ne.
Qed.

Lemma Read_other r n (h : gmap nat obj) (l' : nat) :
  Store.target r <> Some l' -> Store.Read r n h !! l' = h !! l'.
Proof.
  unfold Store.Read. destruct (Store.target r) as [l|]; [|reflexivity].
  intros Hne. apply advance_other. intros ->. by apply Hne.
Qed.

Lemma Close_other r (h : gmap nat obj) (l' : nat) :
  Store.target r <> Some l' -> Store.Close r h !! l' = h !! l'.
Proof.
  unfold Store.Close. destruct r as [l k| |]; try reflexivity. simpl.
  unfold heap, loc in *.
  intros Hne. destruct (h !! l) as [[d|b off|s i|g]|]; try reflexivity.
  destruct (is_Closer k); [|reflexivity].
  rewrite lookup_insert_ne; [reflexivity | intros ->; by apply Hne].
Qed.

Lemma slice_bytes_same (h h' : gmap nat obj) s :
  h' !! base s = h !! base s -> Store.slice_bytes h' s = Store.slice_bytes h s.
Proof.
  intros E. unfold Store.slice_bytes, Store.storage. unfold heap, loc in *.
  rewrite E. reflexivity.
Qed.

Lemma slice_bytes_length h s :
  slice_ok h s -> length (Store.slice_bytes h s) = len s.
Proof.
  intros (d & Hd & Hlen). unfold Store.slice_bytes, Store.storage.
  unfold heap, loc in *. rewrite Hd. rewrite length_take, length_drop. lia.
Qed.

(** A body function over a slice of a stored array keeps delivering the
    bytes of the slice, whatever is done with the readers it handed out
    and with any object other than the array. *)
Lemma body_of_slice_replays (buf : slice) (own : loc -> Prop) (h0 : heap) :
  slice_ok h0 buf -> ~ own (base buf) ->
  replays (body_of_slice buf) own h0 (Store.slice_bytes h0 buf, None).
Proof.
  intros (d & Hd & Hlen) Hown.
  apply (replays_invariant _ _ _ _
           (fun h rs => h !! base buf = h0 !! base buf /\
                        forall r, r ∈ rs -> Store.target r <> Some (base buf))).
  - split; [reflexivity|]. intros r Hr. inversion Hr.
  - intros h rs h' rs' [Hb Hrs] Hs.
    inversion Hs as [h1 r h1' rs1 Hf|h1 rs1 r n Hin|h1 rs1 r Hin|h1 rs1 l o Ho];
      subst.
    + unfold body_of_slice, Store.bytes_NewReader, Store.alloc in Hf.
      inversion Hf; subst. clear Hf.
      assert (Hne : fresh (dom h) <> base buf).
      { apply fresh_not_in. unfold heap, loc in *. rewrite Hb, Hd.
        eexists. reflexivity. }
      split.
      * unfold heap, loc in *. rewrite lookup_insert_ne; assumption.
      * intros r Hr. apply elem_of_cons in Hr as [->|Hr]; [|auto].
        simpl. congruence.
    + split; [|assumption]. rewrite Read_other; auto.
    + split; [|assumption]. rewrite Close_other; auto.
    + split; [|assumption].
      assert (l <> base buf) by (intros ->; contradiction).
      unfold heap, loc in *. rewrite lookup_insert_ne; assumption.
  - intros h rs [Hb Hrs].
    unfold body_of_slice, Store.bytes_NewReader, Store.alloc.
    eexists; eexists. split; [reflexivity|].
    unfold Store.content, Store.remaining. simpl.
    unfold heap, loc in *. rewrite lookup_insert_eq. rewrite drop_0.
    f_equal. apply slice_bytes_same.
    assert (Hne : fresh (dom h) <> base buf).
    { apply fresh_not_in. rewrite Hb, Hd. eexists. reflexivity. }
    rewrite lookup_insert_ne; assumption.
Qed.

Variable http_NewRequest : string -> string -> HttpRequest + error.

Lemma NewRequest_inl method url rawBody (h : heap) req h1 :
  NewRequest http_NewRequest method url rawBody h = (Val (inl req), h1) ->
  exists hr, http_NewRequest method url = inl hr /\
    classify rawBody h
      = (Val (inl (body req, ContentLength (Request_ req))), h1).
Proof.
  unfold NewRequest.
  destruct (classify rawBody h) as [[[[b n]|e]|] h']; try discriminate.
  destruct (http_NewRequest method url) as [hr|e]; try discriminate.
  intros H. inversion H; subst. simpl. eauto.
Qed.

(** X8: a request built over a byte slice sends the bytes of the slice on
    every attempt: each call of its body function gives a fresh reader
    delivering exactly those bytes, however far earlier readers were
    read, as long as the array itself is left alone; the content length
    is their number, and building the request changes nothing in the
    store. *)
Theorem X8_bytes_body_replays method url (buf : slice) (own : loc -> Prop)
    (h0 h1 : heap) (req : Request heap) :
  slice_ok h0 buf -> ~ own (base buf) ->
  NewRequest http_NewRequest method url (Some (PBytes buf)) h0
    = (Val (inl req), h1) ->
  h1 = h0 /\
  ContentLength (Request_ req)
    = Z.of_nat (length (Store.slice_bytes h0 buf)) /\
  exists f, body req = Some f /\
    replays f own h0 (Store.slice_bytes h0 buf, None).
Proof.
  intros Hok Hown H. apply NewRequest_inl in H as (hr & _ & Hc).
  simpl in Hc. inversion Hc; subst.
  split; [reflexivity|]. split.
  - rewrite slice_bytes_length; [congruence | assumption].
  - exists (body_of_slice buf). split; [congruence|].
    apply body_of_slice_replays; assumption.
Qed.

Lemma ReadAll_Val l (h : heap) out h' :
  Store.ReadAll l h = (Val out, h') ->
  out = Store.remaining h l /\
  h' = Store.advance l (length (fst (Store.remaining h l))) h /\
  is_Some (h !! l).
Proof.
  unfold Store.ReadAll. unfold heap, loc in *.
  destruct (h !! l) as [[d|b off|s i|g]|] eqn:E; try discriminate;
    intros H; inversion H; subst; (split; [reflexivity|]);
    (split; [reflexivity|]); eexists; reflexivity.
Qed.

Lemma drop_all_length {A} (xs : list A) i :
  drop (Nat.min (i + length (drop i xs)) (length xs)) xs = [].
Proof.
  apply drop_ge. rewrite length_drop. lia.
Qed.

(** Reading to the end leaves nothing to read. *)
Lemma advance_drains l (h : gmap nat obj) :
  fst (Store.remaining
         (Store.advance l (length (fst (Store.remaining h l))) h) l) = [].
Proof.
  unfold Store.remaining at 2. unfold Store.advance. unfold heap, loc in *.
  destruct (h !! l) as [[d|b off|s i|g]|] eqn:E; simpl.
  - unfold Store.remaining. unfold heap, loc in *. rewrite E. reflexivity.
  - unfold Store.remaining. unfold heap, loc in *.
    rewrite lookup_insert_eq. simpl. apply drop_all_length.
  - unfold Store.remaining. unfold heap, loc in *.
    rewrite lookup_insert_eq. simpl.
    assert (Hs : Store.slice_bytes (<[l:=OBytesReader s
                    (Nat.min (i + length (drop i (Store.slice_bytes h s))) (len s))]> h) s
                 = Store.slice_bytes h s).
    { unfold Store.slice_bytes, Store.storage. unfold heap, loc in *.
      destruct (Nat.eq_dec (base s) l) as [->|Hne].
      - rewrite lookup_insert_eq, E. reflexivity.
      - rewrite lookup_insert_ne by done. reflexivity. }
    rewrite Hs. apply drop_ge.
    assert (length (Store.slice_bytes h s) <= len s)%nat.
    { unfold Store.slice_bytes. rewrite length_take. lia. }
    rewrite length_drop. lia.
  - destruct (s_closed g) eqn:Ec; simpl.
    + unfold Store.remaining. unfold heap, loc in *. rewrite E, Ec. reflexivity.
    + unfold Store.remaining. unfold heap, loc in *.
      rewrite lookup_insert_eq. simpl. apply drop_all_length.
  - unfold Store.remaining. unfold heap, loc in *. rewrite E. reflexivity.
Qed.

(** Allocating a fresh array keeps a drained reader drained. *)
Lemma remaining_alloc_nil (h : gmap nat obj) (a l : nat) data :
  h !! a = None -> a <> l ->
  (forall s i, h !! l = Some (OBytesReader s i) -> base s = a -> data = []) ->
  fst (Store.remaining h l) = [] ->
  fst (Store.remaining (<[a:=OArray data]> h) l) = [].
Proof.
  intros Ha Hne Hd. unfold Store.remaining. unfold heap, loc in *.
  rewrite lookup_insert_ne by done.
  destruct (h !! l) as [[d|b off|s i|g]|] eqn:E; simpl; try done.
  unfold Store.slice_bytes, Store.storage. unfold heap, loc in *.
  destruct (Nat.eq_dec (base s) a) as [Hb|Hb].
  - rewrite (Hd s i eq_refl Hb).
    rewrite Hb, lookup_insert_eq, Ha. intros _.
    by rewrite drop_nil, take_nil, drop_nil.
  - rewrite lookup_insert_ne by done. auto.
Qed.

Lemma advance_BytesReader_inv (h : gmap nat obj) (l : nat) n s i' :
  Store.advance l n h !! l = Some (OBytesReader s i') ->
  exists i, h !! l = Some (OBytesReader s i).
Proof.
  unfold Store.advance. unfold heap, loc in *.
  destruct (h !! l) as [[d|b off|s0 i|g]|] eqn:E; try congruence.
  - rewrite lookup_insert_eq. discriminate.
  - rewrite lookup_insert_eq. intros H. inversion H; subst. eauto.
  - destruct (s_closed g); [congruence|].
    rewrite lookup_insert_eq. discriminate.
Qed.

(** Reading a one-shot payload to its end and keeping the bytes in a
    fresh array: the reader is left drained, and a body function over the
    array replays the bytes whatever happens to any other object. *)
Lemma buffer_all_copy (l : loc) (h0 h1 : heap) (buf : slice) :
  buffer_all l h0 = (Val (inl buf), h1) ->
  exists data a,
    Store.remaining h0 l = (data, None) /\
    fst (Store.remaining h1 l) = [] /\
    len buf = length data /\
    h0 !! a = None /\
    replays (body_of_slice buf) (fun x => x <> a) h1 (data, None).
Proof.
  intros Hb. unfold buffer_all in Hb.
  destruct (Store.ReadAll l h0) as [[[data [e|]]|] h'] eqn:Er;
    try discriminate.
  apply ReadAll_Val in Er as (Hout & Hh' & Hl). simpl in Hb.
  unfold Store.alloc in Hb. inversion Hb; subst buf h1. clear Hb.
  set (a := fresh (dom h')) in *.
  assert (Ha' : h' !! a = None).
  { apply not_elem_of_dom. apply is_fresh. }
  assert (Hla : a <> l).
  { subst a. apply fresh_not_in. subst h'.
    unfold Store.advance. unfold heap, loc in *.
    destruct Hl as [o Hl]. rewrite Hl.
    destruct o as [d|b off|s i|g]; try (rewrite lookup_insert_eq; by eexists);
      [by eexists|].
    destruct (s_closed g); [by eexists | rewrite lookup_insert_eq; by eexists]. }
  assert (Ha0 : h0 !! a = None).
  { rewrite <- Ha'. subst h'. symmetry. apply advance_other. auto. }
  exists data, a.
  assert (Hrem : Store.remaining h0 l = (data, None)) by (symmetry; exact Hout).
  split; [exact Hrem|]. split.
  - pose proof (advance_drains l h0) as Hd.
    rewrite <- Hh' in Hd.
    apply remaining_alloc_nil; try assumption.
    intros s i' Hs Hbs. rewrite Hh' in Hs.
    apply advance_BytesReader_inv in Hs as (i & Hs).
    unfold Store.remaining in Hrem. unfold heap, loc in *.
    rewrite Hs in Hrem. inversion Hrem as [Hdata].
    unfold Store.slice_bytes, Store.storage. unfold heap, loc in *.
    rewrite Hbs, Ha0. by rewrite drop_nil, take_nil, drop_nil.
  - split; [reflexivity|]. split; [exact Ha0|].
    assert (Hc : Store.slice_bytes (<[a:=OArray data]> h')
                   {| base := a; lo := 0; len := length data |} = data).
    { unfold Store.slice_bytes, Store.storage. simpl. unfold heap, loc in *.
      rewrite lookup_insert_eq. rewrite drop_0. apply take_ge. lia. }
    assert (Hok : slice_ok (<[a:=OArray data]> h')
                    {| base := a; lo := 0; len := length data |}).
    { exists data. simpl. unfold heap, loc in *.
      rewrite lookup_insert_eq. split; [reflexivity | lia]. }
    pose proof (body_of_slice_replays
                  {| base := a; lo := 0; len := length data |}
                  (fun x => x <> a) (<[a:=OArray data]> h') Hok
                  (fun Hx => Hx eq_refl)) as Hrep.
    rewrite Hc in Hrep. exact Hrep.
Qed.

(** The type switch sends both kinds of one-shot reader through
    [buffer_all]. *)
Lemma classify_reader (p : payload) (l : loc) (k : caps) (h0 h1 : heap)
    (body : option (ReaderFunc heap)) (n : Z) :
  p = PReader l k \/ p = PBytesReader l ->
  classify (Some p) h0 = (Val (inl (body, n)), h1) ->
  exists buf,
    buffer_all l h0 = (Val (inl buf), h1) /\
    body = Some (body_of_slice buf) /\ n = Z.of_nat (len buf).
Proof.
  intros Hp Hc.
  destruct Hp as [-> | ->]; simpl in Hc;
    destruct (buffer_all l h0) as [[[buf|e]|] h'];
    inversion Hc; subst; eauto.
Qed.

(** X9: a request built over a one-shot reader (or a [bytes.Reader])
    holds a private copy of what the reader had left: building it reads
    the reader to its end, the content length is the number of bytes
    read, and every call of the body function delivers those bytes
    whatever the caller later does to the reader or to any other object
    that existed before. *)
Theorem X9_reader_body_is_a_copy method url (p : payload) (l : loc)
    (k : caps) (h0 h1 : heap) (req : Request heap) :
  p = PReader l k \/ p = PBytesReader l ->
  NewRequest http_NewRequest method url (Some p) h0 = (Val (inl req), h1) ->
  exists data a f,
    Store.remaining h0 l = (data, None) /\
    fst (Store.remaining h1 l) = [] /\
    ContentLength (Request_ req) = Z.of_nat (length data) /\
    h0 !! a = None /\
    body req = Some f /\
    replays f (fun x => x <> a) h1 (data, None).
Proof.
  intros Hp H. apply NewRequest_inl in H as (hr & _ & Hc).
  destruct (classify_reader p l k h0 h1 _ _ Hp Hc) as (buf & Hb & Hbody & Hlen).
  destruct (buffer_all_copy l h0 h1 buf Hb)
    as (data & a & Hrem & Hdr & Hl & Ha & Hrep).
  exists data, a, (body_of_slice buf). rewrite Hl in Hlen.
  split; [exact Hrem|]. split; [exact Hdr|]. split; [exact Hlen|].
  split; [exact Ha|]. split; [exact Hbody|]. exact Hrep.
Qed.

(** The body function over a stream on which [Seek] works delivers the
    whole stream on every call, wherever reads have left the position,
    while nobody else touches the stream. *)
Lemma body_of_ReadSeeker_replays (raw : loc) (k : caps) (g : stream)
    (h0 : heap) :
  h0 !! raw = Some (OStream g) ->
  s_seekable g = true -> s_closed g = false ->
  replays (body_of_ReadSeeker raw k) (fun x => x <> raw) h0
    (s_data g, s_err g).
Proof.
  intros Hg Hseek Hopen.
  apply (replays_invariant _ _ _ _
           (fun (h : heap) rs =>
              (exists pos, h !! raw = Some (OStream
                 {| s_data := s_data g; s_pos := pos; s_err := s_err g;
                    s_seekable := true; s_closed := false |})) /\
              forall r, r ∈ rs -> r = NopCloser (Direct raw k))).
  - split.
    + exists (s_pos g). rewrite Hg. destruct g; simpl in *.
      subst. reflexivity.
    + intros r Hr. inversion Hr.
  - intros h rs h' rs' [[pos Hraw] Hrs] Hs.
    inversion Hs as [h2 r h2' rs2 Hf|h2 rs2 r n Hin|h2 rs2 r Hin|h2 rs2 l o Ho];
      subst.
    + unfold body_of_ReadSeeker, Store.Seek0 in Hf. unfold heap, loc in *.
      rewrite Hraw in Hf. simpl in Hf. inversion Hf; subst. split.
      * exists 0%nat. by rewrite lookup_insert_eq.
      * intros r Hr. apply elem_of_cons in Hr as [->|Hr]; auto.
    + split; [|assumption]. rewrite (Hrs r Hin).
      unfold Store.Read, Store.advance. simpl. unfold heap, loc in *.
      rewrite Hraw. simpl. eexists. by rewrite lookup_insert_eq.
    + split; [|assumption]. rewrite (Hrs r Hin). simpl. eauto.
    + split; [|assumption]. exists pos. unfold heap, loc in *.
      rewrite lookup_insert_ne by done. assumption.
  - intros h rs [[pos Hraw] Hrs].
    unfold body_of_ReadSeeker, Store.Seek0. unfold heap, loc in *.
    rewrite Hraw. simpl. eexists; eexists. split; [reflexivity|].
    unfold Store.content, Store.remaining. simpl. unfold heap, loc in *.
    rewrite lookup_insert_eq. simpl. rewrite drop_0. reflexivity.
Qed.

(** X10: a request built over a seekable stream rewinds it on every
    call: each reader delivers the whole stream from its first byte,
    wherever earlier reads left the position (closing a reader handed
    out does not close the stream), as long as nobody else touches the
    stream.  The content length, taken when the request is built, counts
    only the bytes then unread. *)
Theorem X10_ReadSeeker_body_rewinds method url (raw : loc) (k : caps)
    (g : stream) (h0 h1 : heap) (req : Request heap) :
  h0 !! raw = Some (OStream g) ->
  s_seekable g = true -> s_closed g = false ->
  NewRequest http_NewRequest method url (Some (PReadSeeker raw k)) h0
    = (Val (inl req), h1) ->
  h1 = h0 /\
  ContentLength (Request_ req)
    = (if is_LenReader k
       then Z.of_nat (length (drop (s_pos g) (s_data g))) else 0) /\
  exists f, body req = Some f /\
    replays f (fun x => x <> raw) h0 (s_data g, s_err g).
Proof.
  intros Hg Hseek Hopen H. apply NewRequest_inl in H as (hr & _ & Hc).
  simpl in Hc. inversion Hc as [[Hb Hn]]. subst h1.
  split; [reflexivity|]. split.
  - rewrite <- ?Hn. destruct (is_LenReader k); [|reflexivity].
    unfold Store.Len, Store.remaining. unfold heap, loc in *.
    rewrite Hg, Hopen. reflexivity.
  - exists (body_of_ReadSeeker raw k). split; [congruence|].
    apply body_of_ReadSeeker_replays; assumption.
Qed.

(** X11: the result of [Seek] is dropped.  Over a stream that cannot
    seek, a call of the body function leaves the position where it is:
    the reader delivers only what is still unread, and once a first
    reader was read to the end every later one delivers nothing. *)
Theorem X11_ReadSeeker_seek_failure_ignored (raw : loc) (k : caps)
    (g : stream) (h : heap) (n : nat) :
  h !! raw = Some (OStream g) ->
  s_seekable g = false -> s_closed g = false ->
  let r := NopCloser (Direct raw k) in
  body_of_ReadSeeker raw k h = (Val (Some r, None), h) /\
  Store.content h r = (drop (s_pos g) (s_data g), s_err g) /\
  ((length (s_data g) <= s_pos g + n)%nat ->
   body_of_ReadSeeker raw k (Store.Read r n h)
     = (Val (Some r, None), Store.Read r n h) /\
   fst (Store.content (Store.Read r n h) r) = []).
Proof.
  intros Hg Hseek Hopen r.
  assert (Hno : forall (h' : gmap nat obj) g',
            h' !! raw = Some (OStream g') -> s_seekable g' = false ->
            body_of_ReadSeeker raw k h' = (Val (Some r, None), h')).
  { intros h' g' Hg' Hs'. unfold body_of_ReadSeeker, Store.Seek0.
    unfold heap, loc in *. rewrite Hg', Hs'. reflexivity. }
  split; [eapply Hno; eassumption|]. split.
  - unfold Store.content, Store.remaining. simpl. unfold heap, loc in *.
    rewrite Hg, Hopen. reflexivity.
  - intros Hn.
    assert (Hr : Store.Read r n h !! raw = Some (OStream
              {| s_data := s_data g;
                 s_pos := Nat.min (s_pos g + n) (length (s_data g));
                 s_err := s_err g; s_seekable := s_seekable g;
                 s_closed := false |})).
    { unfold Store.Read, Store.advance. simpl. unfold heap, loc in *.
      rewrite Hg, Hopen. by rewrite lookup_insert_eq. }
    split; [eapply Hno; [exact Hr | exact Hseek]|].
    unfold Store.content, Store.remaining. simpl. unfold heap, loc in *.
    rewrite Hr. simpl. apply drop_ge. lia.
Qed.

(** A call of the body function over a buffer: a fresh reader over
    what the buffer holds unread at that moment. *)
Lemma body_of_Buffer_call (l : loc) (b : list byte) (h : gmap nat obj)
    (o : nat) :
  h !! l = Some (OBuffer b o) ->
  exists r h', body_of_Buffer l h = (Val (Some r, None), h') /\
    Store.content h' r = (drop o b, None) /\
    h' = <[fresh (dom h) := OBytesReader
             {| base := l; lo := o; len := length b - o |} 0]> h /\
    r = Direct (fresh (dom h)) Store.bytesReaderCaps.
Proof.
  intros Ho. unfold body_of_Buffer, Store.Buffer_Bytes.
  unfold heap, loc in *. rewrite Ho.
  unfold Store.bytes_NewReader, Store.alloc.
  eexists; eexists. split; [reflexivity|]. split; [|split; reflexivity].
  unfold Store.content, Store.remaining. simpl. unfold heap, loc in *.
  rewrite lookup_insert_eq. rewrite drop_0.
  unfold Store.slice_bytes, Store.storage. simpl. unfold heap, loc in *.
  assert (Hne : fresh (dom h) <> l).
  { apply fresh_not_in. rewrite Ho. by eexists. }
  rewrite lookup_insert_ne by done. rewrite Ho.
  f_equal. apply take_ge. rewrite length_drop. lia.
Qed.

(** Left alone, the buffer gives the same bytes on every call. *)
Lemma body_of_Buffer_replays (l : loc) (b : list byte) (off : nat)
    (h0 : heap) :
  h0 !! l = Some (OBuffer b off) ->
  replays (body_of_Buffer l) (fun x => x <> l) h0 (drop off b, None).
Proof.
  intros Hl.
  apply (replays_invariant _ _ _ _
           (fun (h : heap) rs =>
              h !! l = Some (OBuffer b off) /\
              forall r, r ∈ rs -> Store.target r <> Some l)).
  - split; [assumption|]. intros r Hr. inversion Hr.
  - intros h rs h' rs' [Hb' Hrs] Hs.
    inversion Hs as [h2 r h2' rs2 Hf|h2 rs2 r n Hin|h2 rs2 r Hin|h2 rs2 x o Ho];
      subst.
    + destruct (body_of_Buffer_call l b h off Hb')
        as (r0 & h0' & E & _ & -> & ->).
      rewrite E in Hf. inversion Hf; subst.
      assert (Hne : fresh (dom h) <> l).
      { apply fresh_not_in. unfold heap, loc in *. rewrite Hb'. by eexists. }
      split.
      * unfold heap, loc in *. by rewrite lookup_insert_ne.
      * intros r Hr. apply elem_of_cons in Hr as [->|Hr]; [|auto].
        simpl. intros Heq. inversion Heq. contradiction.
    + split; [|assumption]. rewrite Read_other; auto.
    + split; [|assumption]. rewrite Close_other; auto.
    + split; [|assumption]. unfold heap, loc in *.
      by rewrite lookup_insert_ne.
  - intros h rs [Hb' Hrs].
    destruct (body_of_Buffer_call l b h off Hb') as (r0 & h0' & E & Hcont & _).
    eauto.
Qed.

(** X12: a request built over a [bytes.Buffer] does not copy it: every
    call of the body function delivers what the buffer holds unread at
    that moment.  Left alone the buffer gives the same bytes each time,
    [ContentLength] of them; after the caller has read [n] bytes from
    the buffer the body is that much shorter, the content length is
    not. *)
Theorem X12_Buffer_body_aliases method url (l : loc) (b : list byte)
    (off : nat) (h0 h1 : heap) (req : Request heap) :
  h0 !! l = Some (OBuffer b off) ->
  NewRequest http_NewRequest method url (Some (PBuffer l)) h0
    = (Val (inl req), h1) ->
  h1 = h0 /\
  ContentLength (Request_ req) = Z.of_nat (length (drop off b)) /\
  exists f, body req = Some f /\
    replays f (fun x => x <> l) h0 (drop off b, None) /\
    forall n, exists r h',
      f (Store.advance l n h0) = (Val (Some r, None), h') /\
      Store.content h' r = (drop (Nat.min (off + n) (length b)) b, None).
Proof.
  intros Hl H. apply NewRequest_inl in H as (hr & _ & Hc).
  simpl in Hc. unfold Store.Buffer_Bytes in Hc. unfold heap, loc in *.
  rewrite Hl in Hc. simpl in Hc. inversion Hc as [[Hb Hn]]. subst h1.
  split; [reflexivity|]. split; [rewrite <- ?Hn, length_drop; reflexivity|].
  exists (body_of_Buffer l). split; [congruence|].
  split; [apply body_of_Buffer_replays; assumption|].
  intros n.
  assert (Ha : Store.advance l n h0 !! l
               = Some (OBuffer b (Nat.min (off + n) (length b)))).
  { unfold Store.advance. unfold heap, loc in *. rewrite Hl.
    by rewrite lookup_insert_eq. }
  destruct (body_of_Buffer_call l b _ _ Ha) as (r0 & h0' & E & Hcont & _).
  eauto.
Qed.


Lemma replays_mono (f : ReaderFunc heap) (own own' : loc -> Prop)
    (h0 : heap) (c : list byte * option error) :
  (forall x, own x -> own' x) ->
  replays f own' h0 c -> replays f own h0 c.
Proof.
  intros Hsub Hrep h rs Hr. apply (Hrep h rs).
  eapply (rtc_subrel (step f own)); [|exact Hr].
  intros z z' Hs.
  inversion Hs as [h2 r h2' rs2 Hf|h2 rs2 r n Hin|h2 rs2 r Hin|h2 rs2 x o Ho];
    subst; [apply step_obtain | apply step_read | apply step_close
            | apply step_caller]; auto.
Qed.

(** C9, amended: whatever payload a request was built from, its body
    function delivers the same bytes on every call, however the readers
    it hands out are read and closed in between, as long as the storage
    of a slice, of a buffer or of a seekable stream is left alone and
    [Seek] on the stream succeeds; a one-shot reader was copied, so the
    caller may do anything to what existed before; and a function of
    the caller's is stored as it is, so it replays when the function
    itself does. *)
Theorem C9_bodies_replay method url (p : payload) (own : loc -> Prop)
    (h0 h1 : heap) (req : Request heap) :
  NewRequest http_NewRequest method url (Some p) h0 = (Val (inl req), h1) ->
  left_alone p own h0 h1 ->
  exists f c, body req = Some f /\ replays f own h1 c.
Proof.
  intros H Hp. apply NewRequest_inl in H as (hr & _ & Hc).
  destruct p as [f|f|buf|l|l|raw k|l k|ty].
  - simpl in Hc, Hp. destruct Hp as [c Hrep].
    destruct (probe f h0) as [[[n|e]|] h'] eqn:E; inversion Hc; subst.
    exists f, c. split; [congruence | exact Hrep].
  - simpl in Hc, Hp. destruct Hp as [c Hrep].
    destruct (probe f h0) as [[[n|e]|] h'] eqn:E; inversion Hc; subst.
    exists f, c. split; [congruence | exact Hrep].
  - simpl in Hc, Hp. destruct Hp as [Hok Hown]. inversion Hc; subst.
    exists (body_of_slice buf), (Store.slice_bytes h1 buf, None).
    split; [congruence|]. apply body_of_slice_replays; assumption.
  - simpl in Hc, Hp. unfold Store.Buffer_Bytes in Hc. unfold heap, loc in *.
    destruct (h0 !! l) as [[d|b off|s i|g]|] eqn:El; inversion Hc; subst.
    exists (body_of_Buffer l), (drop off b, None).
    split; [congruence|].
    apply (replays_mono _ own (fun x => x <> l)).
    + intros x Hx ->. contradiction.
    + apply body_of_Buffer_replays. exact El.
  - destruct (classify_reader (PBytesReader l) l
                {| is_Closer := false; is_LenReader := false |} h0 h1 _ _
                (or_intror eq_refl) Hc) as (buf & Hb & Hbody & _).
    destruct (buffer_all_copy l h0 h1 buf Hb)
      as (data & a & _ & _ & _ & Ha & Hrep).
    exists (body_of_slice buf), (data, None). split; [exact Hbody|].
    apply (replays_mono _ own (fun x => x <> a)); [|exact Hrep].
    intros x Hx ->. simpl in Hp. destruct (Hp a Hx) as [o Ho].
    unfold heap, loc in *. congruence.
  - simpl in Hc, Hp. destruct Hp as (Hown & g & Hg & Hseek & Hopen).
    inversion Hc; subst.
    exists (body_of_ReadSeeker raw k), (s_data g, s_err g).
    split; [congruence|].
    apply (replays_mono _ own (fun x => x <> raw)).
    + intros x Hx ->. contradiction.
    + apply body_of_ReadSeeker_replays; assumption.
  - destruct (classify_reader (PReader l k) l k h0 h1 _ _
                (or_introl eq_refl) Hc) as (buf & Hb & Hbody & _).
    destruct (buffer_all_copy l h0 h1 buf Hb)
      as (data & a & _ & _ & _ & Ha & Hrep).
    exists (body_of_slice buf), (data, None). split; [exact Hbody|].
    apply (replays_mono _ own (fun x => x <> a)); [|exact Hrep].
    intros x Hx ->. simpl in Hp. destruct (Hp a Hx) as [o Ho].
    unfold heap, loc in *. congruence.
  - simpl in Hc. discriminate.
Qed.

End Replay.

(** ** The payloads of the bench *)

Lemma with_array_ok : slice_ok Payloads.with_array Payloads.whole.
Proof. exists Payloads.hi. split; [reflexivity | simpl; lia]. Qed.

Lemma X8_witness :
  slice_ok Payloads.with_array Payloads.whole /\
  ~ (fun x : loc => x <> 0%nat) (base Payloads.whole) /\
  NewRequest Payloads.http "POST" "http://x/" (Some (PBytes Payloads.whole))
    Payloads.with_array
    = (Val (inl {| body := Some (body_of_slice Payloads.whole);
                   Request_ :=
                     {| Method := "POST"; URL := "http://x/";
                        ReqContext := context_Background; Body := None;
                        ContentLength := 2 |} |}),
       Payloads.with_array) /\
  Payloads.with_array = Payloads.with_array /\
  2 = Z.of_nat (length (Store.slice_bytes Payloads.with_array Payloads.whole)) /\
  exists f,
    Some (body_of_slice Payloads.whole) = Some f /\
    replays f (fun x => x <> 0%nat) Payloads.with_array
      (Store.slice_bytes Payloads.with_array Payloads.whole, None).
Proof.
  assert (H2 : ~ (fun x : loc => x <> 0%nat) (base Payloads.whole))
    by (intros H; apply H; reflexivity).
  split; [exact with_array_ok|]. split; [exact H2|]. split; [reflexivity|].
  exact (X8_bytes_body_replays Payloads.http "POST" "http://x/"
           Payloads.whole (fun x => x <> 0%nat) Payloads.with_array
           Payloads.with_array _ with_array_ok H2 eq_refl).
Defined.

Lemma X9_witness :
  (PReader 0%nat Payloads.plain = PReader 0%nat Payloads.plain \/
   PReader 0%nat Payloads.plain = PBytesReader 0%nat) /\
  exists req h1,
    NewRequest Payloads.http "POST" "http://x/"
      (Some (PReader 0%nat Payloads.plain)) (Payloads.with_stream false)
      = (Val (inl req), h1) /\
    exists data a f,
      Store.remaining (Payloads.with_stream false) 0%nat = (data, None) /\
      fst (Store.remaining h1 0%nat) = [] /\
      ContentLength (Request_ req) = Z.of_nat (length data) /\
      Payloads.with_stream false !! a = None /\
      body req = Some f /\
      replays f (fun x => x <> a) h1 (data, None).
Proof.
  split; [left; reflexivity|].
  eexists; eexists. split; [reflexivity|].
  exact (X9_reader_body_is_a_copy Payloads.http "POST" "http://x/"
           (PReader 0%nat Payloads.plain) 0%nat Payloads.plain
           (Payloads.with_stream false) _ _ (or_introl eq_refl) eq_refl).
Defined.

Lemma X10_witness :
  Payloads.with_stream true !! 0%nat = Some (OStream (Payloads.half_read true)) /\
  s_seekable (Payloads.half_read true) = true /\
  s_closed (Payloads.half_read true) = false /\
  exists req,
    NewRequest Payloads.http "POST" "http://x/"
      (Some (PReadSeeker 0%nat Store.bytesReaderCaps))
      (Payloads.with_stream true)
      = (Val (inl req), Payloads.with_stream true) /\
    ContentLength (Request_ req) = 1 /\
    exists f, body req = Some f /\
      replays f (fun x => x <> 0%nat) (Payloads.with_stream true)
        (Payloads.hi, None).
Proof.
  split; [reflexivity|]. split; [reflexivity|]. split; [reflexivity|].
  eexists. split; [reflexivity|].
  exact (proj2 (X10_ReadSeeker_body_rewinds Payloads.http "POST" "http://x/"
                  0%nat Store.bytesReaderCaps (Payloads.half_read true)
                  (Payloads.with_stream true) (Payloads.with_stream true) _
                  eq_refl eq_refl eq_refl eq_refl)).
Defined.

Lemma X11_witness :
  Payloads.with_stream false !! 0%nat
    = Some (OStream (Payloads.half_read false)) /\
  s_seekable (Payloads.half_read false) = false /\
  s_closed (Payloads.half_read false) = false /\
  let r := NopCloser (Direct 0%nat Payloads.plain) in
  body_of_ReadSeeker 0%nat Payloads.plain (Payloads.with_stream false)
    = (Val (Some r, None), Payloads.with_stream false) /\
  Store.content (Payloads.with_stream false) r = ([Byte.x69], None) /\
  ((length Payloads.hi <= 1 + 1)%nat ->
   body_of_ReadSeeker 0%nat Payloads.plain
     (Store.Read r 1 (Payloads.with_stream false))
     = (Val (Some r, None), Store.Read r 1 (Payloads.with_stream false)) /\
   fst (Store.content (Store.Read r 1 (Payloads.with_stream false)) r) = []).
Proof.
  split; [reflexivity|]. split; [reflexivity|]. split; [reflexivity|].
  exact (X11_ReadSeeker_seek_failure_ignored 0%nat Payloads.plain
           (Payloads.half_read false) (Payloads.with_stream false) 1
           eq_refl eq_refl eq_refl).
Defined.

Lemma X12_witness :
  Payloads.with_buffer !! 0%nat = Some (OBuffer Payloads.hi 0) /\
  exists req,
    NewRequest Payloads.http "POST" "http://x/" (Some (PBuffer 0%nat))
      Payloads.with_buffer = (Val (inl req), Payloads.with_buffer) /\
    ContentLength (Request_ req) = 2 /\
    exists f, body req = Some f /\
      replays f (fun x => x <> 0%nat) Payloads.with_buffer
        (Payloads.hi, None) /\
      forall n, exists r h',
        f (Store.advance 0%nat n Payloads.with_buffer)
          = (Val (Some r, None), h') /\
        Store.content h' r
          = (drop (Nat.min (0 + n) (length Payloads.hi)) Payloads.hi, None).
Proof.
  split; [reflexivity|]. eexists. split; [reflexivity|].
  exact (proj2 (X12_Buffer_body_aliases Payloads.http "POST" "http://x/"
                  0%nat Payloads.hi 0%nat Payloads.with_buffer
                  Payloads.with_buffer _ eq_refl eq_refl)).
Defined.


(** C9, as stated, fails for two of the payloads that [NewRequest]
    accepts, with nobody touching them from outside.  A function of the
    caller's that hands out the same one-shot stream every time, and a
    seekable payload on which [Seek] fails (its result is dropped): in
    both the first reader delivers the byte that was unread, and once it
    has been read the second reader delivers nothing. *)
Lemma C9_counterexample :
  (exists req r1 r2,
     NewRequest Payloads.http "POST" "http://x/"
       (Some (PFunc Payloads.shared)) (Payloads.with_stream false)
       = (Val (inl req), Payloads.with_stream false) /\
     body req = Some Payloads.shared /\
     Payloads.shared (Payloads.with_stream false)
       = (Val (Some r1, None), Payloads.with_stream false) /\
     Store.content (Payloads.with_stream false) r1 = ([Byte.x69], None) /\
     Payloads.shared (Store.Read r1 1 (Payloads.with_stream false))
       = (Val (Some r2, None), Store.Read r1 1 (Payloads.with_stream false)) /\
     Store.content (Store.Read r1 1 (Payloads.with_stream false)) r2
       = ([], None)) /\
  (exists req f r1 r2,
     NewRequest Payloads.http "POST" "http://x/"
       (Some (PReadSeeker 0%nat Payloads.plain)) (Payloads.with_stream false)
       = (Val (inl req), Payloads.with_stream false) /\
     body req = Some f /\
     f (Payloads.with_stream false)
       = (Val (Some r1, None), Payloads.with_stream false) /\
     Store.content (Payloads.with_stream false) r1 = ([Byte.x69], None) /\
     f (Store.Read r1 1 (Payloads.with_stream false))
       = (Val (Some r2, None), Store.Read r1 1 (Payloads.with_stream false)) /\
     Store.content (Store.Read r1 1 (Payloads.with_stream false)) r2
       = ([], None)).
Proof.
  split.
  - eexists; eexists; eexists. repeat split; reflexivity.
  - eexists; eexists; eexists; eexists. repeat split; reflexivity.
Qed.

Lemma C9_witness :
  exists req,
    NewRequest Payloads.http "POST" "http://x/"
      (Some (PReadSeeker 0%nat Payloads.plain)) (Payloads.with_stream true)
      = (Val (inl req), Payloads.with_stream true) /\
    left_alone (PReadSeeker 0%nat Payloads.plain) (fun x => x <> 0%nat)
      (Payloads.with_stream true) (Payloads.with_stream true) /\
    exists f c, body req = Some f /\
      replays f (fun x => x <> 0%nat) (Payloads.with_stream true) c.
Proof.
  assert (Hl : left_alone (PReadSeeker 0%nat Payloads.plain)
                 (fun x => x <> 0%nat)
                 (Payloads.with_stream true) (Payloads.with_stream true)).
  { split; [intros H; exact (H eq_refl)|].
    exists (Payloads.half_read true). repeat split; reflexivity. }
  eexists. split; [reflexivity|]. split; [exact Hl|].
  exact (C9_bodies_replay Payloads.http "POST" "http://x/"
           (PReadSeeker 0%nat Payloads.plain) (fun x => x <> 0%nat)
           (Payloads.with_stream true) (Payloads.with_stream true) _
           eq_refl Hl).
Defined.

(** ** Backoff arithmetic *)

Section BackoffFacts.

Import F64.

(** X14: whatever the arguments and the platform, [DefaultBackoff] does
    not return more than [max]: the result is [max] itself or a value
    that passed the test against it. *)
Theorem X14_DefaultBackoff_at_most_max (oor : float64 -> Z)
    (min max n : Z) (resp : option Response) :
  DefaultBackoff oor min max n resp <= max.
Proof.
  unfold DefaultBackoff.
  destruct (negb _ || (max <? _)) eqn:E; [lia|].
  apply orb_false_elim in E as [_ E]. apply Z.ltb_ge in E. exact E.
Qed.

Lemma round64_exact m e :
  m <> 0 -> Z.log2 (Z.abs m) <= 52 -> -1074 <= e ->
  round64 m e
  = if Z.log2 (Z.abs m) + e <? 1024 then FFin m e else FInf (m <? 0).
Proof.
  intros Hm Hd He. unfold round64.
  destruct (Z.eqb_spec m 0); [contradiction|].
  destruct (Z.leb_spec (Z.max (Z.log2 (Z.abs m) + e - 52) (-1074)) e);
    [reflexivity | lia].
Qed.

Lemma log2_lt_53 z : z <> 0 -> Z.abs z < 2 ^ 53 -> Z.log2 (Z.abs z) <= 52.
Proof.
  intros Hz Hlt.
  assert (Z.log2 (Z.abs z) < 53); [|lia].
  apply Z.log2_lt_pow2; lia.
Qed.

(** [float64] of an integer of at most 53 bits is that integer. *)
Lemma of_int_small z :
  Z.abs z < 2 ^ 53 -> of_int z = FFin z 0.
Proof.
  intros Hlt. unfold of_int.
  destruct (Z.eq_dec z 0) as [->|Hz]; [reflexivity|].
  rewrite round64_exact; [|assumption|apply log2_lt_53; assumption|lia].
  pose proof (log2_lt_53 z Hz Hlt).
  destruct (Z.ltb_spec (Z.log2 (Z.abs z) + 0) 1024); [reflexivity | lia].
Qed.

(** [math.Pow(2, n)] for an attempt number below 1024 is [2^n]. *)
Lemma pow2_of_int n : 0 <= n < 1024 -> pow2 (of_int n) = FFin 1 n.
Proof.
  intros Hn. rewrite of_int_small by lia. unfold pow2. simpl.
  rewrite Z.mul_1_r. rewrite round64_exact; simpl; try lia.
  destruct (Z.ltb_spec (0 + n) 1024); [reflexivity | lia].
Qed.

Lemma log2_abs_bounds z :
  z <> 0 -> 2 ^ Z.log2 (Z.abs z) <= Z.abs z < 2 ^ (Z.log2 (Z.abs z) + 1).
Proof.
  intros Hz. pose proof (Z.log2_spec (Z.abs z) ltac:(lia)) as H.
  rewrite <- Z.add_1_r in H. exact H.
Qed.

(** Rounding an integer of 54 bits or more: the result is infinite or has
    a mantissa of at least [2^52] over a positive exponent. *)
Lemma of_int_large z :
  2 ^ 53 <= z ->
  of_int z = FInf false \/
  exists q u, of_int z = FFin q u /\ 2 ^ 52 <= q /\ 1 <= u.
Proof.
  intros Hz. unfold of_int, round64.
  destruct (Z.eqb_spec z 0); [lia|].
  rewrite Z.abs_eq by lia.
  assert (Hd : 53 <= Z.log2 z) by (apply Z.log2_le_pow2; lia).
  rewrite Z.add_0_r.
  rewrite (Z.max_l (Z.log2 z - 52) (-1074)) by lia.
  destruct (Z.leb_spec (Z.log2 z - 52) 0); [lia|].
  rewrite Z.sub_0_r.
  set (k := Z.log2 z - 52) in *.
  set (q := z / 2 ^ k).
  assert (Hq : 2 ^ 52 <= q).
  { unfold q. apply Z.div_le_lower_bound; [lia|].
    rewrite <- Z.pow_add_r by lia.
    replace (k + 52) with (Z.log2 z) by lia.
    apply Z.log2_spec. lia. }
  set (q' := if (2 ^ (k - 1) <? z mod 2 ^ k)
                || (z mod 2 ^ k =? 2 ^ (k - 1)) && Z.odd q
             then q + 1 else q).
  assert (Hq' : 2 ^ 52 <= q') by (unfold q'; destruct (_ || _); lia).
  destruct (Z.eqb_spec q' 0); [lia|].
  replace (z <? 0) with false by (symmetry; apply Z.ltb_ge; lia).
  destruct (1024 <=? Z.log2 q' + k); [left; reflexivity|].
  right. exists q', k. rewrite Z.sgn_pos by lia. rewrite Z.mul_1_l.
  split; [reflexivity|]. split; [assumption | lia].
Qed.

(** [math.Pow(2, n)] overflows from attempt number 1024 on. *)
Lemma pow2_of_int_large n : 1024 <= n -> pow2 (of_int n) = FInf false.
Proof.
  intros Hn.
  assert (Hbig : forall E, 1024 <= E -> round64 1 E = FInf false).
  { intros E HE. rewrite round64_exact; simpl; try lia.
    destruct (Z.ltb_spec (0 + E) 1024); [lia | reflexivity]. }
  destruct (Z.lt_ge_cases n (2 ^ 53)) as [Hlt|Hge].
  - rewrite of_int_small by lia. unfold pow2. simpl. rewrite Z.mul_1_r.
    apply Hbig. assumption.
  - destruct (of_int_large n Hge) as [->|(q & u & -> & Hq & Hu)];
      [reflexivity|].
    unfold pow2. destruct (Z.leb_spec 0 u); [|lia].
    apply Hbig.
    assert (2 ^ 1 <= 2 ^ u) by (apply Z.pow_le_mono_r; lia).
    change (2 ^ 1) with 2 in *. change (2 ^ 52) with 4503599627370496 in *.
    nia.
Qed.

(** Finite values with non-negative exponents compare as integers. *)
Lemma eqb_value m1 e1 m2 e2 :
  0 <= e1 -> 0 <= e2 ->
  eqb (FFin m1 e1) (FFin m2 e2) = (m1 * 2 ^ e1 =? m2 * 2 ^ e2).
Proof.
  intros H1 H2. unfold eqb.
  set (c := Z.min e1 e2).
  assert (Hc : 0 <= c <= e1 /\ c <= e2) by (unfold c; lia).
  replace (m1 * 2 ^ e1) with (m1 * 2 ^ (e1 - c) * 2 ^ c).
  2: { rewrite <- Z.mul_assoc, <- Z.pow_add_r by lia. do 2 f_equal. lia. }
  replace (m2 * 2 ^ e2) with (m2 * 2 ^ (e2 - c) * 2 ^ c).
  2: { rewrite <- Z.mul_assoc, <- Z.pow_add_r by lia. do 2 f_equal. lia. }
  assert (0 < 2 ^ c) by (apply Z.pow_pos_nonneg; lia).
  destruct (Z.eqb_spec (m1 * 2 ^ (e1 - c)) (m2 * 2 ^ (e2 - c))) as [E|E];
    symmetry.
  - apply Z.eqb_eq. rewrite E. reflexivity.
  - apply Z.eqb_neq. intros E'. apply E. nia.
Qed.

(** Converting to float64 an integer that has at most 53 significant
    bits loses nothing. *)
Lemma of_int_dyadic m e :
  m <> 0 -> Z.log2 (Z.abs m) <= 52 -> 0 <= e ->
  Z.log2 (Z.abs m) + e < 1024 ->
  exists m' e', of_int (m * 2 ^ e) = FFin m' e' /\ 0 <= e' /\
                m' * 2 ^ e' = m * 2 ^ e.
Proof.
  intros Hm Hd He Hfin.
  assert (Hpe : 0 < 2 ^ e) by (apply Z.pow_pos_nonneg; lia).
  assert (Habs : Z.abs (m * 2 ^ e) = Z.abs m * 2 ^ e).
  { rewrite Z.abs_mul. rewrite (Z.abs_eq (2 ^ e)) by lia. reflexivity. }
  assert (Hlog : Z.log2 (Z.abs (m * 2 ^ e)) = Z.log2 (Z.abs m) + e).
  { rewrite Habs. rewrite Z.log2_mul_pow2 by lia. lia. }
  unfold of_int, round64.
  destruct (Z.eqb_spec (m * 2 ^ e) 0) as [E0|_]; [nia|].
  rewrite Hlog, Z.add_0_r.
  set (d := Z.log2 (Z.abs m) + e) in *.
  destruct (Z.leb_spec (Z.max (d - 52) (-1074)) 0) as [Hu|Hu].
  - destruct (Z.ltb_spec d 1024); [|lia].
    exists (m * 2 ^ e), 0. split; [reflexivity|]. split; [lia|].
    rewrite Z.pow_0_r. lia.
  - rewrite Z.max_l in * by lia. rewrite Z.sub_0_r.
    set (k := d - 52) in *.
    assert (Hk : 0 < k <= e) by (unfold k, d; lia).
    assert (Hsplit : Z.abs (m * 2 ^ e) = (Z.abs m * 2 ^ (e - k)) * 2 ^ k).
    { rewrite Habs, <- Z.mul_assoc, <- Z.pow_add_r by lia.
      do 2 f_equal. lia. }
    assert (Hpk : 0 < 2 ^ k) by (apply Z.pow_pos_nonneg; lia).
    assert (Hq : Z.abs (m * 2 ^ e) / 2 ^ k = Z.abs m * 2 ^ (e - k)).
    { rewrite Hsplit. apply Z.div_mul. lia. }
    assert (Hr : Z.abs (m * 2 ^ e) mod 2 ^ k = 0).
    { rewrite Hsplit. apply Z.mod_mul. lia. }
    rewrite Hq, Hr.
    assert (Hh : 0 < 2 ^ (k - 1)) by (apply Z.pow_pos_nonneg; lia).
    destruct (Z.ltb_spec (2 ^ (k - 1)) 0); [lia|].
    destruct (Z.eqb_spec 0 (2 ^ (k - 1))); [lia|]. simpl.
    assert (Hpek : 0 < 2 ^ (e - k)) by (apply Z.pow_pos_nonneg; lia).
    destruct (Z.eqb_spec (Z.abs m * 2 ^ (e - k)) 0); [nia|].
    assert (Hlq : Z.log2 (Z.abs m * 2 ^ (e - k)) + k = d).
    { rewrite Z.log2_mul_pow2 by lia. unfold d. lia. }
    rewrite Hlq.
    destruct (Z.leb_spec 1024 d); [lia|].
    eexists; eexists. split; [reflexivity|]. split; [lia|].
    rewrite <- (Z.mul_assoc (Z.sgn (m * 2 ^ e))), <- Z.mul_assoc.
    rewrite <- Z.pow_add_r by lia.
    replace (e - k + k) with e by lia.
    rewrite <- Habs. rewrite Z.mul_comm.
    apply Z.abs_sgn.
Qed.

Lemma of_int_53 z :
  Z.abs z <= 2 ^ 53 ->
  exists m e, of_int z = FFin m e /\ 0 <= e <= 1 /\ m * 2 ^ e = z /\
              (m <> 0 -> Z.log2 (Z.abs m) <= 52).
Proof.
  intros Hz.
  destruct (Z.lt_ge_cases (Z.abs z) (2 ^ 53)) as [Hlt|Hge].
  - exists z, 0. rewrite of_int_small by assumption.
    split; [reflexivity|]. split; [lia|]. split; [rewrite Z.pow_0_r; lia|].
    intros Hne. apply log2_lt_53; assumption.
  - assert (Hc : z = 2 ^ 53 \/ z = - 2 ^ 53) by lia.
    destruct Hc as [-> | ->].
    + exists (2 ^ 52), 1. split; [vm_compute; reflexivity|].
      split; [lia|]. split; [reflexivity|]. intros _. vm_compute. discriminate.
    + exists (- 2 ^ 52), 1. split; [vm_compute; reflexivity|].
      split; [lia|]. split; [reflexivity|]. intros _. vm_compute. discriminate.
Qed.

(** The three values a platform may give, as float64. *)
Lemma of_int_oor (oor : float64 -> Z) x :
  platform_oor oor ->
  exists m e, of_int (oor x) = FFin m e /\ 0 <= e /\
    (m * 2 ^ e = - 2 ^ 63 \/ m * 2 ^ e = 0 \/
     (m * 2 ^ e = 2 ^ 63 /\ oor x = Int64.max_int)).
Proof.
  intros H. destruct (H x) as [-> | [-> | E]].
  - exists (- 2 ^ 52), 11. split; [vm_compute; reflexivity|].
    split; [lia|]. left. reflexivity.
  - exists 0, 0. split; [vm_compute; reflexivity|].
    split; [lia|]. right. left. reflexivity.
  - rewrite E. exists (2 ^ 53), 10. split; [vm_compute; reflexivity|].
    split; [lia|]. right. right. split; reflexivity.
Qed.

Lemma in_rangeb_true z :
  Int64.in_rangeb z = true <-> - 2 ^ 63 <= z <= 2 ^ 63 - 1.
Proof.
  unfold Int64.in_rangeb, Int64.min_int, Int64.max_int.
  rewrite andb_true_iff, !Z.leb_le. reflexivity.
Qed.

(** The float64 computation of [DefaultBackoff] is exact while [min]
    has at most 53 significant bits. *)
Lemma DefaultBackoff_exponential (oor : float64 -> Z) (min max n : Z)
    (resp : option Response) :
  platform_oor oor ->
  0 <= n -> Z.abs min <= 2 ^ 53 -> max <= Int64.max_int ->
  DefaultBackoff oor min max n resp = exponential min max n.
Proof.
  intros Hoor Hn Hmin Hmax. unfold DefaultBackoff, exponential.
  destruct (of_int_53 min Hmin) as (m & e & Hrep & He & Hval & Hlog).
  rewrite Hrep.
  assert (Hclamp : forall mult,
            (forall m1 e1, eqb (FFin m1 e1) mult = false) ->
            (if negb (eqb (of_int (to_int64 oor mult)) mult)
                || (max <? to_int64 oor mult)
             then max else to_int64 oor mult) = max).
  { intros mult Hne.
    assert (Hs : exists x, to_int64 oor mult = oor x).
    { unfold to_int64. destruct mult as [| |m1 e1]; eauto.
      specialize (Hne m1 e1). unfold eqb in Hne.
      rewrite Z.eqb_refl in Hne. discriminate. }
    destruct Hs as (x & ->).
    destruct (of_int_oor oor x Hoor) as (m1 & e1 & -> & _).
    rewrite Hne. reflexivity. }
  destruct (Z.ltb_spec n 1024) as [Hlt|Hge]; simpl.
  2: { rewrite pow2_of_int_large by assumption. simpl.
       destruct (m =? 0); apply Hclamp; reflexivity. }
  rewrite pow2_of_int by lia. unfold mul. rewrite Z.mul_1_l.
  assert (Hp : 0 < 2 ^ n) by (apply Z.pow_pos_nonneg; lia).
  assert (HP : m * 2 ^ (n + e) = min * 2 ^ n).
  { rewrite Z.pow_add_r by lia. rewrite <- Hval. lia. }
  destruct (Z.eq_dec m 0) as [->|Hm].
  - assert (min = 0) by lia. subst min. simpl.
    unfold to_int64, trunc. simpl. rewrite ?Z.mul_0_l.
    destruct (Z.ltb_spec max 0); lia.
  - specialize (Hlog Hm).
    rewrite round64_exact by lia.
    destruct (Z.ltb_spec (Z.log2 (Z.abs m) + (n + e)) 1024) as [Hfin|Hinf].
    + unfold to_int64, trunc.
      destruct (Z.leb_spec 0 (n + e)); [|lia].
      rewrite HP.
      destruct (Int64.in_rangeb (min * 2 ^ n)) eqn:Hr.
      * destruct (of_int_dyadic m (n + e) Hm Hlog ltac:(lia) Hfin)
          as (m' & e' & Hof & He' & Hv').
        rewrite HP in Hof, Hv'. rewrite Hof.
        rewrite eqb_value by lia. rewrite Hv', HP, Z.eqb_refl. simpl.
        destruct (Z.ltb_spec max (min * 2 ^ n)); lia.
      * assert (Hout : ~ (- 2 ^ 63 <= min * 2 ^ n <= 2 ^ 63 - 1)).
        { intros Hin. apply in_rangeb_true in Hin. congruence. }
        destruct (of_int_oor oor (FFin m (n + e)) Hoor)
          as (m1 & e1 & -> & He1 & Hv1).
        rewrite eqb_value by lia. rewrite HP.
        destruct (Z.eqb_spec (m1 * 2 ^ e1) (min * 2 ^ n)) as [Eq|Ne];
          simpl; [|reflexivity].
        destruct Hv1 as [Hv1 | [Hv1 | [Hv1 Hs]]]; try lia.
        rewrite Hs. destruct (Z.ltb_spec max Int64.max_int); lia.
    + assert (Hbig : 2 ^ 1024 <= Z.abs (min * 2 ^ n)).
      { rewrite <- HP, Z.abs_mul.
        assert (0 < 2 ^ (n + e)) by (apply Z.pow_pos_nonneg; lia).
        rewrite (Z.abs_eq (2 ^ (n + e))) by lia.
        pose proof (log2_abs_bounds m Hm) as [Hlo _].
        assert (Hle : 2 ^ 1024 <= 2 ^ (Z.log2 (Z.abs m) + (n + e)))
          by (apply Z.pow_le_mono_r; lia).
        rewrite Z.pow_add_r in Hle by (try apply Z.log2_nonneg; lia).
        etransitivity; [exact Hle|].
        apply Z.mul_le_mono_nonneg_r; lia. }
      assert (Hr : Int64.in_rangeb (min * 2 ^ n) = false).
      { apply not_true_is_false. intros Hin. apply in_rangeb_true in Hin.
        assert (2 ^ 63 < 2 ^ 1024) by (apply Z.pow_lt_mono_r; lia).
        lia. }
      rewrite Hr. apply Hclamp. reflexivity.
Qed.

(** X15: for a minimum wait of at most [2^53] nanoseconds (104 days) in
    absolute value and an attempt number [n >= 0], on any of the
    platforms, [DefaultBackoff] is exponential backoff in exact
    arithmetic: [min * 2^n] cut off at [max] while [n < 1024] and the
    product fits an int64, and [max] otherwise. *)
Theorem X15_DefaultBackoff_exact (oor : float64 -> Z) (min max n : Z)
    (resp : option Response) :
  platform_oor oor ->
  0 <= n -> Z.abs min <= 2 ^ 53 -> max <= Int64.max_int ->
  DefaultBackoff oor min max n resp = exponential min max n.
Proof. apply DefaultBackoff_exponential. Qed.

(** C7, amended: for a minimum wait of at most [2^53] nanoseconds in
    absolute value and [n >= 0], [DefaultBackoff] returns
    [min(min * 2^n, max)] when [n < 1024] and the product fits an int64,
    and [max] when the power or the product overflows; with one second
    and thirty seconds it gives 1s, 16s and 30s at attempts 0, 4 and
    10. *)
Theorem C7_DefaultBackoff (oor : float64 -> Z) (min max n : Z)
    (resp : option Response) :
  platform_oor oor ->
  0 <= n -> Z.abs min <= 2 ^ 53 -> max <= Int64.max_int ->
  DefaultBackoff oor min max n resp
    = (if (n <? 1024) && Int64.in_rangeb (min * 2 ^ n)
       then spec_exponential min max n else max) /\
  DefaultBackoff oor Second (30 * Second) 0 resp = Second /\
  DefaultBackoff oor Second (30 * Second) 4 resp = 16 * Second /\
  DefaultBackoff oor Second (30 * Second) 10 resp = 30 * Second.
Proof.
  intros Hoor Hn Hmin Hmax.
  split; [apply DefaultBackoff_exponential; assumption|].
  assert (Hs : Z.abs Second <= 2 ^ 53) by (unfold Second; lia).
  assert (Hm : 30 * Second <= Int64.max_int)
    by (unfold Second, Int64.max_int; lia).
  rewrite !(DefaultBackoff_exponential oor Second (30 * Second)) by
    (assumption || lia).
  repeat split.
Qed.

(** *** Rounding of the jitter *)

Lemma pow2_pos a : 0 <= a -> 0 < 2 ^ a.
Proof. intros. apply Z.pow_pos_nonneg; lia. Qed.

Lemma pow2_split a b : 0 <= b <= a -> 2 ^ a = 2 ^ (a - b) * 2 ^ b.
Proof. intros. rewrite <- Z.pow_add_r by lia. f_equal. lia. Qed.

(** The rounding step on integers: [q'] is [M / 2^k] rounded to nearest,
    ties to even. *)
Lemma nearest_even_bounds M k T :
  0 <= M -> 0 < k ->
  let q := M / 2 ^ k in
  let r := M mod 2 ^ k in
  let q' := if (2 ^ (k - 1) <? r) || ((r =? 2 ^ (k - 1)) && Z.odd q)
            then q + 1 else q in
  (M <= T * 2 ^ k -> q' <= T) /\
  (2 * M + 2 ^ k < 2 * T * 2 ^ k -> q' <= T - 1) /\
  q <= q' <= q + 1.
Proof.
  intros HM Hk q r q'.
  assert (Hh : 0 < 2 ^ (k - 1)) by (apply pow2_pos; lia).
  assert (H2 : 2 ^ k = 2 * 2 ^ (k - 1)).
  { replace k with (1 + (k - 1)) at 1 by lia. rewrite Z.pow_add_r by lia.
    reflexivity. }
  assert (Hdiv : M = 2 ^ k * q + r) by (apply Z.div_mod; lia).
  assert (Hr : 0 <= r < 2 ^ k) by (apply Z.mod_pos_bound; lia).
  set (h := 2 ^ (k - 1)) in *. rewrite H2 in *.
  assert (Hq' : q <= q' <= q + 1) by (unfold q'; destruct (_ || _); lia).
  split; [|split; [|assumption]].
  - intros HT.
    assert (q <= T) by nia.
    unfold q'. destruct ((h <? r) || ((r =? h) && Z.odd q)) eqn:E; [|lia].
    assert (0 < r).
    { apply orb_true_iff in E as [E|E].
      - apply Z.ltb_lt in E. lia.
      - apply andb_true_iff in E as [E _]. apply Z.eqb_eq in E. lia. }
    assert (q < T) by nia. lia.
  - intros HT.
    assert (q <= T - 1) by nia.
    unfold q'. destruct ((h <? r) || ((r =? h) && Z.odd q)) eqn:E; [|lia].
    assert (h <= r).
    { apply orb_true_iff in E as [E|E].
      - apply Z.ltb_lt in E. lia.
      - apply andb_true_iff in E as [E _]. apply Z.eqb_eq in E. lia. }
    assert (q < T - 1) by nia. lia.
Qed.

(** What [round64] does to a positive dyadic [M * 2^E] that is not too
    large, with values scaled by [2^1074] so that they are integers: the
    result [Y] lies on the grid [G] of the binade of the argument [X], no
    further from [X] than the next grid point, on the near side of every
    half-way point. *)
Lemma round64_sem M E :
  0 < M -> -1074 <= E -> Z.log2 M + E < 1023 ->
  let X := M * 2 ^ (E + 1074) in
  let G := 2 ^ (Z.max (Z.log2 M + E - 52) (-1074) + 1074) in
  exists m' e',
    round64 M E = FFin m' e' /\ 0 <= m' <= 2 ^ 53 /\ -1074 <= e' /\
    let Y := m' * 2 ^ (e' + 1074) in
    (forall T, X <= T * G -> Y <= T * G) /\
    (forall T, 2 * X + G < 2 * T * G -> Y <= (T - 1) * G) /\
    (-1074 <= Z.log2 M + E - 52 -> 2 ^ (Z.log2 M + E + 1074) <= Y).
Proof.
  intros HM HE Hfin X G.
  pose proof (Z.log2_spec M HM) as [Hlo Hhi]. rewrite <- Z.add_1_r in Hhi.
  pose proof (Z.log2_nonneg M) as Hd.
  set (d := Z.log2 M) in *.
  set (u := Z.max (d + E - 52) (-1074)) in *.
  assert (HG : 0 < G) by (apply pow2_pos; lia).
  unfold round64. destruct (Z.eqb_spec M 0); [lia|].
  rewrite (Z.abs_eq M) by lia. fold d. fold u.
  destruct (Z.leb_spec u E) as [Hu|Hu].
  - (* exact *)
    destruct (Z.ltb_spec (d + E) 1024); [|lia].
    exists M, E. split; [reflexivity|].
    assert (HM53 : M < 2 ^ 53).
    { eapply Z.lt_le_trans; [exact Hhi|]. apply Z.pow_le_mono_r; lia. }
    split; [lia|]. split; [lia|]. simpl.
    assert (HX : X = M * 2 ^ (E - u) * G).
    { unfold X, G. rewrite <- Z.mul_assoc, <- Z.pow_add_r by lia.
      do 2 f_equal. lia. }
    split; [auto|]. split.
    + intros T HT. fold X. rewrite HX in *.
      assert (M * 2 ^ (E - u) <= T - 1) by nia.
      apply Z.mul_le_mono_nonneg_r; lia.
    + intros _. fold X. unfold X.
      replace (d + E + 1074) with (d + (E + 1074)) by lia.
      rewrite (Z.pow_add_r 2 d) by lia.
      assert (0 < 2 ^ (E + 1074)) by (apply pow2_pos; lia).
      apply Z.mul_le_mono_nonneg_r; lia.
  - (* rounded *)
    set (k := u - E) in *.
    assert (Hk : 0 < k) by (unfold k; lia).
    pose proof (nearest_even_bounds M k) as Hne. simpl in Hne.
    set (q := M / 2 ^ k) in *. set (r := M mod 2 ^ k) in *.
    set (q' := if (2 ^ (k - 1) <? r) || (r =? 2 ^ (k - 1)) && Z.odd q
               then q + 1 else q) in *.
    assert (Hpk : 0 < 2 ^ k) by (apply pow2_pos; lia).
    assert (Hq0 : 0 <= q) by (apply Z.div_pos; lia).
    assert (Hq53 : q < 2 ^ 53).
    { apply Z.div_lt_upper_bound; [lia|].
      eapply Z.lt_le_trans; [exact Hhi|].
      rewrite <- Z.pow_add_r by lia. apply Z.pow_le_mono_r; lia. }
    destruct (Hne 0 ltac:(lia) Hk) as (_ & _ & Hqq).
    assert (HGk : G = 2 ^ k * 2 ^ (E + 1074)).
    { unfold G. rewrite <- Z.pow_add_r by lia. f_equal. lia. }
    assert (HpE : 0 < 2 ^ (E + 1074)) by (apply pow2_pos; lia).
    assert (P1 : forall T, X <= T * G -> q' <= T).
    { intros T HT. apply (Hne T); [lia | assumption|].
      unfold X in HT. rewrite HGk in HT. nia. }
    assert (P2 : forall T, 2 * X + G < 2 * T * G -> q' <= T - 1).
    { intros T HT. apply (Hne T); [lia | assumption|].
      unfold X in HT. rewrite HGk in HT. nia. }
    destruct (Z.eqb_spec q' 0) as [Hz|Hz].
    + exists 0, 0. split; [reflexivity|]. split; [lia|]. split; [lia|]. simpl.
      split; [|split].
      * intros T HT. assert (0 < X) by (unfold X; nia). nia.
      * intros T HT. assert (0 < X) by (unfold X; nia).
        assert (0 < T) by nia. nia.
      * intros Hn. exfalso.
        assert (u = d + E - 52) by (unfold u; lia).
        assert (2 ^ 52 <= q); [|lia].
        apply Z.div_le_lower_bound; [lia|].
        rewrite <- Z.pow_add_r by lia.
        replace (k + 52) with d by lia. exact Hlo.
    + assert (Hlq : Z.log2 q' <= 53).
      { transitivity (Z.log2 (2 ^ 53));
          [apply Z.log2_le_mono; lia | rewrite Z.log2_pow2; lia]. }
      destruct (Z.leb_spec 1024 (Z.log2 q' + u)) as [Hov|_].
      { exfalso. unfold u in Hov. lia. }
      exists (Z.sgn M * q'), u. rewrite Z.sgn_pos by lia. rewrite Z.mul_1_l.
      split; [reflexivity|]. split; [lia|]. split; [unfold u; lia|]. simpl.
      fold G.
      split; [|split].
      * intros T HT. apply Z.mul_le_mono_nonneg_r; [lia | auto].
      * intros T HT. apply Z.mul_le_mono_nonneg_r; [lia | auto].
      * intros Hn.
        assert (Hu' : u = d + E - 52) by (unfold u; lia).
        assert (2 ^ 52 <= q).
        { apply Z.div_le_lower_bound; [lia|].
          rewrite <- Z.pow_add_r by lia.
          replace (k + 52) with d by lia. exact Hlo. }
        replace (d + E + 1074) with (52 + (u + 1074)) by lia.
        rewrite Z.pow_add_r by lia. fold G.
        apply Z.mul_le_mono_nonneg_r; lia.
Qed.

(** A float64 value of at least [2^(b+52)] is a multiple of [2^b]. *)
Lemma grid_divides q w b :
  0 <= q <= 2 ^ 53 -> 0 <= w -> 0 <= b ->
  2 ^ (b + 52) <= q * 2 ^ w ->
  exists T, q * 2 ^ w = T * 2 ^ b.
Proof.
  intros Hq Hw Hb Hle.
  destruct (Z.le_gt_cases b w) as [Hbw|Hbw].
  - exists (q * 2 ^ (w - b)). rewrite <- Z.mul_assoc, <- Z.pow_add_r by lia.
    do 2 f_equal. lia.
  - assert (Hpw : 0 < 2 ^ w) by (apply pow2_pos; lia).
    replace (b + 52) with ((b - w + 52) + w) in Hle by lia.
    rewrite Z.pow_add_r in Hle by lia.
    assert (Hq' : 2 ^ (b - w + 52) <= q) by nia.
    assert (H53 : 2 ^ 53 <= 2 ^ (b - w + 52))
      by (apply Z.pow_le_mono_r; lia).
    assert (q = 2 ^ 53) by lia. subst q.
    assert (b - w + 52 <= 53).
    { apply (Z.pow_le_mono_r_iff 2); lia. }
    assert (b = w + 1) by lia. subst b.
    exists (2 ^ 52). rewrite (Z.pow_add_r 2 w 1) by lia.
    change (2 ^ 53) with (2 ^ 52 * 2 ^ 1). lia.
Qed.

(** Rounding cannot bring [(1 - 2^-53) * F] up to [F], for a float64
    [F >= 1]. *)
Lemma below_stays_below Fs X G Y :
  (exists q w, Fs = q * 2 ^ w /\ 0 <= q <= 2 ^ 53 /\ 0 <= w) ->
  2 ^ 1074 <= Fs -> 0 < X ->
  2 ^ 53 * X <= (2 ^ 53 - 1) * Fs ->
  G = 2 ^ (Z.max (Z.log2 X - 52) 0) ->
  (forall T, X <= T * G -> Y <= T * G) ->
  (forall T, 2 * X + G < 2 * T * G -> Y <= (T - 1) * G) ->
  Y < Fs.
Proof.
  intros (q & w & HF & Hq & Hw) H1 HX Hle HG P1 P2.
  assert (HFs : 0 < Fs) by (pose proof (pow2_pos 1074); lia).
  pose proof (Z.log2_spec Fs HFs) as [HLlo HLhi]. rewrite <- Z.add_1_r in HLhi.
  pose proof (Z.log2_spec X HX) as [HXlo HXhi]. rewrite <- Z.add_1_r in HXhi.
  assert (HL : 1074 <= Z.log2 Fs).
  { apply Z.log2_le_pow2; lia. }
  assert (HXF : X < Fs) by lia.
  assert (HLX : Z.log2 X <= Z.log2 Fs) by (apply Z.log2_le_mono; lia).
  pose proof (Z.log2_nonneg X) as HLX0.
  set (L := Z.log2 Fs) in *. set (LX := Z.log2 X) in *.
  assert (HG0 : 0 < G) by (subst G; apply pow2_pos; lia).
  destruct (Z.eq_dec LX L) as [Heq|Hneq].
  - (* same binade *)
    assert (Hg : G = 2 ^ (L - 52)) by (subst G; f_equal; lia).
    destruct (grid_divides q w (L - 52) Hq Hw ltac:(lia)) as (t & Ht).
    { replace (L - 52 + 52) with L by lia. rewrite <- HF. exact HLlo. }
    rewrite <- HF, <- Hg in Ht.
    assert (H2L : 2 ^ L = 2 ^ 52 * G).
    { rewrite Hg, <- Z.pow_add_r by lia. f_equal. lia. }
    rewrite Heq in HXlo. rewrite H2L in *.
    assert (Ht52 : 2 ^ 52 < t) by nia.
    assert (Hstrict : 2 * X + G < 2 * t * G).
    { rewrite Ht in Hle.
      assert (Ha : (2 ^ 52 + 1) * G <= t * G)
        by (apply Z.mul_le_mono_nonneg_r; lia).
      change (2 ^ 53) with 9007199254740992 in *.
      change (2 ^ 52) with 4503599627370496 in *. lia. }
    specialize (P2 t Hstrict). rewrite Ht. nia.
  - (* a lower binade *)
    assert (Hlt : LX <= L - 1) by lia.
    assert (Hgx : 0 <= Z.max (LX - 52) 0 <= L - 53) by lia.
    set (gx := Z.max (LX - 52) 0) in *.
    destruct (Z.eq_dec Fs (2 ^ L)) as [Hpow|Hnp].
    + assert (HGp : X <= (2 ^ 53 - 1) * 2 ^ (L - 53 - gx) * G).
      { rewrite <- Z.mul_assoc. subst G. rewrite <- Z.pow_add_r by lia.
        replace (L - 53 - gx + gx) with (L - 53) by lia.
        rewrite Hpow in Hle.
        rewrite (pow2_split L 53) in Hle by lia.
        assert (0 < 2 ^ (L - 53)) by (apply pow2_pos; lia).
        change (2 ^ 53) with 9007199254740992 in *. nia. }
      specialize (P1 _ HGp).
      rewrite <- Z.mul_assoc in P1. subst G.
      rewrite <- Z.pow_add_r in P1 by lia.
      replace (L - 53 - gx + gx) with (L - 53) in P1 by lia.
      rewrite Hpow. rewrite (pow2_split L 53) by lia.
      assert (0 < 2 ^ (L - 53)) by (apply pow2_pos; lia).
      change (2 ^ 53) with 9007199254740992 in *. nia.
    + assert (HB : X <= 2 ^ (L - gx) * G).
      { subst G. rewrite <- Z.pow_add_r by lia.
        replace (L - gx + gx) with L by lia.
        assert (2 ^ (LX + 1) <= 2 ^ L) by (apply Z.pow_le_mono_r; lia).
        lia. }
      specialize (P1 _ HB). subst G.
      rewrite <- Z.pow_add_r in P1 by lia.
      replace (L - gx + gx) with L in P1 by lia. lia.
Qed.

Lemma of_int_exponent z m e : of_int z = FFin m e -> 0 <= e.
Proof.
  unfold of_int, round64.
  destruct (z =? 0); [intros [= _ <-]; lia|].
  destruct (Z.leb_spec (Z.max (Z.log2 (Z.abs z) + 0 - 52) (-1074)) 0).
  - destruct (_ <? 1024); [intros [= _ <-]; lia | discriminate].
  - destruct (_ =? 0); [intros [= _ <-]; lia|].
    destruct (1024 <=? _); [discriminate|]. intros [= _ <-]. lia.
Qed.

(** A draw below one is at most [1 - 2^-53]. *)
Lemma unit_draw_gap m e :
  0 <= m < 2 ^ 53 -> -1074 <= e -> m * 2 ^ (e + 1074) < 2 ^ 1074 ->
  2 ^ 53 * (m * 2 ^ (e + 1074)) <= (2 ^ 53 - 1) * 2 ^ 1074.
Proof.
  intros Hm He Hlt.
  destruct (Z.eq_dec m 0) as [->|Hm0].
  { rewrite Z.mul_0_l, Z.mul_0_r. pose proof (pow2_pos 1074). lia. }
  assert (Hneg : e < 0).
  { destruct (Z.lt_ge_cases e 0); [assumption|].
    assert (2 ^ 1074 <= 2 ^ (e + 1074)) by (apply Z.pow_le_mono_r; lia).
    nia. }
  assert (Hp : 0 < 2 ^ (e + 1074)) by (apply pow2_pos; lia).
  rewrite (pow2_split 1074 (e + 1074)) in * by lia.
  replace (1074 - (e + 1074)) with (- e) in * by lia.
  set (P := 2 ^ (e + 1074)) in *.
  assert (Hma : m < 2 ^ (- e)) by nia.
  destruct (Z.le_gt_cases (- e) 53) as [Hs|Hs].
  - (* m <= 2^-e - 1, and 2^53 = 2^(53+e) * 2^-e *)
    assert (H53 : 2 ^ 53 = 2 ^ (53 + e) * 2 ^ (- e)).
    { rewrite <- Z.pow_add_r by lia. f_equal. lia. }
    assert (0 < 2 ^ (53 + e)) by (apply pow2_pos; lia).
    assert (0 < 2 ^ (- e)) by (apply pow2_pos; lia).
    rewrite H53. set (A := 2 ^ (- e)) in *. set (B := 2 ^ (53 + e)) in *.
    assert (m <= A - 1) by lia.
    assert (B * A * (m * P) <= B * A * ((A - 1) * P)).
    { apply Z.mul_le_mono_nonneg_l; [nia|].
      apply Z.mul_le_mono_nonneg_r; lia. }
    assert ((B * A) * ((A - 1) * P) <= (B * A - 1) * (A * P)).
    { assert (1 <= B) by lia. nia. }
    lia.
  - assert (HA : 2 ^ 54 <= 2 ^ (- e)) by (apply Z.pow_le_mono_r; lia).
    set (A := 2 ^ (- e)) in *.
    assert (2 ^ 53 * (m * P) <= 2 ^ 53 * (2 ^ 53 * P)).
    { apply Z.mul_le_mono_nonneg_l; [lia|].
      apply Z.mul_le_mono_nonneg_r; lia. }
    assert (2 ^ 53 * (2 ^ 53 * P) <= (2 ^ 53 - 1) * (A * P)).
    { rewrite !Z.mul_assoc. apply Z.mul_le_mono_nonneg_r; [lia|].
      change (2 ^ 54) with 18014398509481984 in HA.
      change (2 ^ 53) with 9007199254740992. lia. }
    lia.
Qed.

(** The jitter of [LinearJitterBackoff]: a draw below one times the
    float64 of a positive int64 [D] truncates to an integer below [D]. *)
Lemma jitter_offset (oor : float64 -> Z) rnd D :
  unit_draw rnd = true -> 0 < D <= Int64.max_int ->
  0 <= to_int64 oor (mul rnd (of_int D)) < D.
Proof.
  intros Hu HD. unfold Int64.max_int in HD.
  destruct rnd as [| |mr er]; try discriminate. simpl in Hu.
  rewrite !andb_true_iff in Hu. destruct Hu as [[[H0 H53] He] Hlt].
  apply Z.leb_le in H0, He. apply Z.ltb_lt in H53, Hlt.
  (* the float64 of D *)
  pose proof (Z.log2_nonneg D) as HlD0.
  assert (HlD : Z.log2 D < 63).
  { apply Z.log2_lt_pow2; lia. }
  destruct (round64_sem D 0 ltac:(lia) ltac:(lia) ltac:(lia))
    as (mD & eD & HofD & HmD & _ & P1D & _ & P3D).
  fold (of_int D) in HofD.
  pose proof (of_int_exponent _ _ _ HofD) as HeD.
  rewrite Z.add_0_r in *. simpl Z.add in P1D.
  replace (Z.max (Z.log2 D - 52) (-1074) + 1074) with (Z.log2 D + 1022)
    in P1D by lia.
  specialize (P3D ltac:(lia)).
  set (Fs := mD * 2 ^ (eD + 1074)) in *.
  set (GD := 2 ^ (Z.log2 D + 1022)) in *.
  assert (HF1 : 2 ^ 1074 <= Fs).
  { etransitivity; [|exact P3D]. apply Z.pow_le_mono_r; lia. }
  assert (HFhi : Fs <= 2 ^ 1137).
  { assert (HG : 2 ^ 1137 = 2 ^ (115 - Z.log2 D) * GD).
    { unfold GD. rewrite <- Z.pow_add_r by lia. f_equal. lia. }
    rewrite HG. apply P1D. rewrite <- HG.
    change (2 ^ 1137) with (2 ^ 63 * 2 ^ 1074).
    apply Z.mul_le_mono_nonneg_r; lia. }
  rewrite HofD. unfold mul.
  destruct (Z.eq_dec mr 0) as [->|Hmr].
  { rewrite Z.mul_0_l. unfold round64, to_int64, trunc. simpl. lia. }
  assert (HmD0 : 0 < mD).
  { pose proof (pow2_pos 1074). pose proof (pow2_pos (eD + 1074)).
    unfold Fs in HF1. nia. }
  set (M := mr * mD). set (E := er + eD).
  assert (HM : 0 < M) by (unfold M; nia).
  set (X := M * 2 ^ (E + 1074)).
  set (R := mr * 2 ^ (er + 1074)) in *.
  assert (HXR : X * 2 ^ 1074 = R * Fs).
  { unfold X, R, Fs, M, E.
    replace (er + eD + 1074) with ((er + 1074) + eD) by lia.
    rewrite (Z.pow_add_r 2 eD 1074), (Z.pow_add_r 2 (er + 1074) eD) by lia.
    ring. }
  pose proof (unit_draw_gap mr er ltac:(lia) He Hlt) as Hgap. fold R in Hgap.
  assert (HP : 0 < 2 ^ 1074) by (apply pow2_pos; lia).
  assert (HX0 : 0 < X) by (unfold X; pose proof (pow2_pos (E + 1074)); unfold E in *; nia).
  assert (Hle : 2 ^ 53 * X <= (2 ^ 53 - 1) * Fs).
  { apply (Z.mul_le_mono_pos_r _ _ (2 ^ 1074)); [exact HP|].
    rewrite <- Z.mul_assoc, HXR.
    assert (2 ^ 53 * R * Fs <= (2 ^ 53 - 1) * 2 ^ 1074 * Fs).
    { apply Z.mul_le_mono_nonneg_r; lia. }
    lia. }
  assert (HlX : Z.log2 X = Z.log2 M + (E + 1074)).
  { unfold X. rewrite Z.log2_mul_pow2 by (unfold E; lia). lia. }
  assert (HXF : X < Fs).
  { change (2 ^ 53) with 9007199254740992 in Hle. lia. }
  assert (HlXhi : Z.log2 X <= 1137).
  { transitivity (Z.log2 (2 ^ 1137)); [apply Z.log2_le_mono; lia|].
    rewrite Z.log2_pow2; lia. }
  destruct (round64_sem M E HM ltac:(unfold E; lia) ltac:(lia))
    as (mj & ej & -> & Hmj & Hej & P1 & P2 & _).
  fold X in P1, P2.
  set (Y := mj * 2 ^ (ej + 1074)) in *.
  assert (HYF : Y < Fs).
  { eapply (below_stays_below Fs X _ Y);
      [exists mD, (eD + 1074); repeat split; lia
      | exact HF1 | exact HX0 | exact Hle | | exact P1 | exact P2].
    f_equal. rewrite HlX. lia. }
  (* the product stays below D *)
  assert (HYD : Y < D * 2 ^ 1074).
  { destruct (Z.lt_ge_cases Y (D * 2 ^ 1074)) as [|Hge]; [assumption|].
    exfalso.
    pose proof (Z.log2_spec D ltac:(lia)) as [HDlo _].
    destruct (grid_divides mj (ej + 1074) (Z.log2 D + 1022))
      as (T & HT); try lia.
    { fold Y. etransitivity; [|exact Hge].
      replace (Z.log2 D + 1022 + 52) with (Z.log2 D + 1074) by lia.
      rewrite Z.pow_add_r by lia.
      apply Z.mul_le_mono_nonneg_r; lia. }
    fold Y in HT. fold GD in HT.
    specialize (P1D T ltac:(lia)). lia. }
  unfold to_int64.
  assert (Ht : 0 <= trunc mj ej < D).
  { unfold trunc. destruct (Z.leb_spec 0 ej) as [Hp|Hn].
    - unfold Y in HYD. rewrite Z.pow_add_r, Z.mul_assoc in HYD by lia.
      pose proof (pow2_pos ej Hp). nia.
    - assert (Hq : 0 < 2 ^ (- ej)) by (apply pow2_pos; lia).
      rewrite Z.quot_div_nonneg by lia.
      split; [apply Z.div_pos; lia|].
      apply Z.div_lt_upper_bound; [lia|].
      unfold Y in HYD.
      rewrite (pow2_split 1074 (ej + 1074)) in HYD by lia.
      replace (1074 - (ej + 1074)) with (- ej) in HYD by lia.
      pose proof (pow2_pos (ej + 1074) ltac:(lia)). nia. }
  assert (Hin : Int64.in_rangeb (trunc mj ej) = true).
  { unfold Int64.in_rangeb, Int64.min_int, Int64.max_int.
    apply andb_true_iff. split; apply Z.leb_le; lia. }
  rewrite Hin. exact Ht.
Qed.

(** The jitter branch of [LinearJitterBackoff] while nothing
    overflows. *)
Lemma LinearJitterBackoff_jitter (oor : float64 -> Z) (rnd : float64)
    (min max n : Z) (resp : option Response) :
  unit_draw rnd = true ->
  min < max -> max - min <= Int64.max_int ->
  0 <= n -> Int64.in_range (n + 1) ->
  Int64.in_range (min * (n + 1)) -> Int64.in_range (max * (n + 1)) ->
  exists offset,
    0 <= offset < max - min /\
    LinearJitterBackoff oor rnd min max n resp = (min + offset) * (n + 1).
Proof.
  intros Hu Hlt Hd Hn Hn1 Hlo Hhi. unfold LinearJitterBackoff.
  rewrite (proj2 (Z.leb_gt max min) Hlt).
  assert (Ha : Int64.add n 1 = n + 1) by (apply wrap_small; exact Hn1).
  assert (Hs : Int64.sub max min = max - min).
  { apply wrap_small.
    unfold Int64.in_range, Int64.min_int, Int64.max_int in *. lia. }
  rewrite Ha, Hs.
  pose proof (jitter_offset oor rnd (max - min) Hu ltac:(lia)) as Ho.
  set (offset := to_int64 oor (mul rnd (of_int (max - min)))) in *.
  exists offset. split; [exact Ho|].
  unfold Int64.in_range, Int64.min_int, Int64.max_int in *.
  assert (Hj : Int64.add offset min = min + offset).
  { unfold Int64.add. rewrite Z.add_comm. apply wrap_small.
    unfold Int64.in_range, Int64.min_int, Int64.max_int. nia. }
  rewrite Hj. apply wrap_small.
  unfold Int64.in_range, Int64.min_int, Int64.max_int. nia.
Qed.

(** X16: with [min < max] (their difference an int64), a draw in
    [[0, 1)] and an attempt number [n >= 0] for which neither
    [min * (n + 1)] nor [max * (n + 1)] overflows, on every platform
    [LinearJitterBackoff] returns [(min + offset) * (n + 1)] for some
    [0 <= offset < max - min]: float64 rounding never brings the jitter
    up to [max - min], so the wait lies in
    [[min * (n + 1), max * (n + 1))]. *)
Theorem X16_LinearJitterBackoff_range (oor : float64 -> Z) (rnd : float64)
    (min max n : Z) (resp : option Response) :
  unit_draw rnd = true ->
  min < max -> max - min <= Int64.max_int ->
  0 <= n -> Int64.in_range (n + 1) ->
  Int64.in_range (min * (n + 1)) -> Int64.in_range (max * (n + 1)) ->
  exists offset,
    0 <= offset < max - min /\
    LinearJitterBackoff oor rnd min max n resp = (min + offset) * (n + 1).
Proof. apply LinearJitterBackoff_jitter. Qed.

(** C8, amended: while [n + 1] and [min * (n + 1)] fit an int64,
    [LinearJitterBackoff] returns exactly [min * (n + 1)] when
    [max <= min]; otherwise, when [max - min] and [max * (n + 1)] fit as
    well, for every draw in [[0, 1)] it returns
    [(min + offset) * (n + 1)] with [0 <= offset < max - min], a value
    from [min * (n + 1)] up to, not including, [max * (n + 1)]; one
    second for both bounds gives three seconds at attempt 2. *)
Theorem C8_LinearJitterBackoff (oor : float64 -> Z) (rnd : float64)
    (min max n : Z) (resp : option Response) :
  0 <= n -> Int64.in_range (n + 1) -> Int64.in_range (min * (n + 1)) ->
  (min < max ->
   max - min <= Int64.max_int /\ Int64.in_range (max * (n + 1)) /\
   unit_draw rnd = true) ->
  (if max <=? min
   then LinearJitterBackoff oor rnd min max n resp = min * (n + 1)
   else exists offset,
     0 <= offset < max - min /\
     LinearJitterBackoff oor rnd min max n resp = (min + offset) * (n + 1) /\
     min * (n + 1) <= LinearJitterBackoff oor rnd min max n resp
       < max * (n + 1)) /\
  LinearJitterBackoff oor rnd Second Second 2 resp = 3 * Second.
Proof.
  intros Hn Hn1 Hlo Hj.
  assert (Ha : Int64.add n 1 = n + 1) by (apply wrap_small; exact Hn1).
  split; [|reflexivity].
  destruct (Z.leb_spec max min) as [Hle|Hlt].
  - unfold LinearJitterBackoff.
    rewrite (proj2 (Z.leb_le max min) Hle), Ha.
    apply wrap_small. exact Hlo.
  - destruct (Hj Hlt) as (Hd & Hhi & Hu).
    destruct (LinearJitterBackoff_jitter oor rnd min max n resp
                Hu Hlt Hd Hn Hn1 Hlo Hhi) as (offset & Ho & E).
    exists offset. split; [exact Ho|]. split; [exact E|].
    rewrite E. nia.
Qed.

End BackoffFacts.

(** C7, as stated, fails for a minimum wait that float64 cannot hold:
    [2^53 + 1] nanoseconds become [2^53] on the way through
    [float64(min)], so attempt 0 waits [2^53] and not
    [min(min * 2^0, max)]. *)
Lemma C7_counterexample :
  DefaultBackoff F64.oor_amd64 (2 ^ 53 + 1) (2 ^ 62) 0 None = 2 ^ 53 /\
  spec_exponential (2 ^ 53 + 1) (2 ^ 62) 0 = 2 ^ 53 + 1.
Proof. split; vm_compute; reflexivity. Qed.

(** C8, as stated, fails when the product leaves int64: with both
    bounds at [2^62] nanoseconds attempt 1 returns [-2^63], not
    [2^62 * 2]. *)
Lemma C8_counterexample :
  LinearJitterBackoff F64.oor_amd64 (FFin 0 0) (2 ^ 62) (2 ^ 62) 1 None
    = - 2 ^ 63 /\
  LinearJitterBackoff F64.oor_amd64 (FFin 0 0) (2 ^ 62) (2 ^ 62) 1 None
    <> 2 ^ 62 * (1 + 1).
Proof. split; [vm_compute; reflexivity | vm_compute; discriminate]. Qed.

Lemma amd64_platform : platform_oor F64.oor_amd64.
Proof. intros x. left. reflexivity. Qed.

Lemma arm64_platform : platform_oor F64.oor_arm64.
Proof.
  intros [|[]|m e]; simpl; auto. destruct (m <? 0); auto.
Qed.

Lemma X15_witness :
  DefaultBackoff F64.oor_amd64 Second (30 * Second) 4 None
  = exponential Second (30 * Second) 4.
Proof.
  apply (X15_DefaultBackoff_exact F64.oor_amd64 Second (30 * Second) 4 None).
  - exact amd64_platform.
  - lia.
  - unfold Second. lia.
  - unfold Second, Int64.max_int. lia.
Defined.

Lemma X16_witness :
  exists offset,
    0 <= offset < 3 * Second - Second /\
    LinearJitterBackoff F64.oor_arm64 (FFin 1 (-1)) Second (3 * Second) 2 None
    = (Second + offset) * (2 + 1).
Proof.
  apply (X16_LinearJitterBackoff_range F64.oor_arm64 (FFin 1 (-1))
           Second (3 * Second) 2 None).
  - reflexivity.
  - unfold Second. lia.
  - unfold Second, Int64.max_int. lia.
  - lia.
  - unfold Int64.in_range, Int64.min_int, Int64.max_int. lia.
  - unfold Int64.in_range, Int64.min_int, Int64.max_int, Second. lia.
  - unfold Int64.in_range, Int64.min_int, Int64.max_int, Second. lia.
Defined.

Lemma C7_witness :
  DefaultBackoff F64.oor_arm64 Millisecond (30 * Second) 3 None
    = (if (3 <? 1024) && Int64.in_rangeb (Millisecond * 2 ^ 3)
       then spec_exponential Millisecond (30 * Second) 3 else 30 * Second) /\
  DefaultBackoff F64.oor_arm64 Second (30 * Second) 0 None = Second /\
  DefaultBackoff F64.oor_arm64 Second (30 * Second) 4 None = 16 * Second /\
  DefaultBackoff F64.oor_arm64 Second (30 * Second) 10 None = 30 * Second.
Proof.
  apply (C7_DefaultBackoff F64.oor_arm64 Millisecond (30 * Second) 3 None).
  - exact arm64_platform.
  - lia.
  - unfold Millisecond. lia.
  - unfold Second, Int64.max_int. lia.
Defined.

Lemma C8_witness :
  (exists offset,
     0 <= offset < 3 * Second - Second /\
     LinearJitterBackoff F64.oor_amd64 (FFin 3 (-2)) Second (3 * Second) 2 None
       = (Second + offset) * (2 + 1) /\
     Second * (2 + 1)
       <= LinearJitterBackoff F64.oor_amd64 (FFin 3 (-2)) Second (3 * Second)
            2 None
       < 3 * Second * (2 + 1)) /\
  LinearJitterBackoff F64.oor_amd64 (FFin 3 (-2)) Second Second 2 None
    = 3 * Second.
Proof.
  apply (C8_LinearJitterBackoff F64.oor_amd64 (FFin 3 (-2)) Second
           (3 * Second) 2 None).
  - lia.
  - unfold Int64.in_range, Int64.min_int, Int64.max_int. lia.
  - unfold Int64.in_range, Int64.min_int, Int64.max_int, Second. lia.
  - intros _. split; [unfold Second, Int64.max_int; lia|].
    split; [|reflexivity].
    unfold Int64.in_range, Int64.min_int, Int64.max_int, Second. lia.
Defined.

(** ** Failures *)

Section Failures.

Variable http_NewRequest : string -> string -> HttpRequest + error.

(** X17: [NewRequest] reads a one-shot reader before it validates the
    method and the URL.  Over an open stream, when the read fails or
    [http.NewRequest] rejects its arguments, [NewRequest] returns that
    error (the read error first) and no request, and the stream has been
    read to its end all the same: the payload is gone. *)
Theorem X17_failed_NewRequest_consumes_reader method url (l : loc)
    (k : caps) (g : stream) (h0 : heap) :
  h0 !! l = Some (OStream g) -> s_closed g = false ->
  is_Some (s_err g) \/ (exists e, http_NewRequest method url = inr e) ->
  exists e h1,
    NewRequest http_NewRequest method url (Some (PReader l k)) h0
      = (Val (inr e), h1) /\
    (match s_err g with
     | Some e' => e = e'
     | None => http_NewRequest method url = inr e
     end) /\
    fst (Store.remaining h1 l) = [].
Proof.
  intros Hg Hopen Hfail.
  assert (Hrem : Store.remaining h0 l = (drop (s_pos g) (s_data g), s_err g)).
  { unfold Store.remaining. unfold heap, loc in *. by rewrite Hg, Hopen. }
  assert (Hread : Store.ReadAll l h0
                  = (Val (Store.remaining h0 l),
                     Store.advance l (length (fst (Store.remaining h0 l))) h0)).
  { unfold Store.ReadAll. unfold heap, loc in *. by rewrite Hg. }
  pose proof (advance_drains l h0) as Hdr.
  set (h' := Store.advance l (length (fst (Store.remaining h0 l))) h0) in *.
  unfold NewRequest, classify, buffer_all. rewrite Hread, Hrem.
  destruct (s_err g) as [e'|] eqn:Ee.
  - exists e', h'. auto.
  - destruct Hfail as [[? [=]]|[e He]].
    simpl. unfold Store.alloc. rewrite He.
    eexists; eexists. split; [reflexivity|]. split; [reflexivity|].
    assert (Hin : is_Some (h' !! l)).
    { unfold h', Store.advance. unfold heap, loc in *.
      rewrite Hg, Hopen, lookup_insert_eq. eauto. }
    apply remaining_alloc_nil.
    + apply not_elem_of_dom, is_fresh.
    + apply fresh_not_in. exact Hin.
    + intros s i Hs _. unfold h', Store.advance in Hs. unfold heap, loc in *.
      rewrite Hg, Hopen, lookup_insert_eq in Hs. discriminate.
    + exact Hdr.
Qed.

End Failures.

Lemma X17_witness :
  exists e h1,
    NewRequest Payloads.bad_url "POST" "http://x/"
      (Some (PReader 0%nat Payloads.plain)) (Payloads.with_stream false)
      = (Val (inr e), h1) /\
    (match s_err (Payloads.half_read false) with
     | Some e' => e = e'
     | None => Payloads.bad_url "POST" "http://x/" = inr e
     end) /\
    fst (Store.remaining h1 0%nat) = [].
Proof.
  exact (X17_failed_NewRequest_consumes_reader Payloads.bad_url
           "POST" "http://x/" 0%nat Payloads.plain (Payloads.half_read false)
           (Payloads.with_stream false) eq_refl eq_refl
           (or_intror (ex_intro _ (Err "parse error") eq_refl))).
Defined.

Section Uncounted.

Context {W : Type} (env : Env W) (c : Client W).

(** X18: in the retry loop, a client with an error handler that gives
    up after a response (no transport error) counts no outcome: after
    the last exchange the loop calls the handler, once, and increments
    neither [doSuccess] nor [doFailure], whether the handler returns or
    panics. *)
Theorem X18_handler_outcome_uncounted (n : nat) (req : Request W)
    (hreq hreq' : HttpRequest) (i : Z) (resp0 resp : option Response)
    (err0 checkErr : option error) (s0 s1 : State W)
    (handler : ErrorHandler W) :
  ErrorHandler_ (cfg c) = Some handler ->
  exchange c req hreq i false s0
    = Ok (Exchanged hreq' resp None true checkErr) s1 ->
  Int64.sub (RetryMax (cfg c)) i <= 0 ->
  match loop env c (S n) req hreq i resp0 err0 s0 with
  | Ok _ s2 | Panicked s2 =>
      exists new, extends s1 s2 new /\
        count is_outcome new = 0%nat /\ count is_handler new = 1%nat
  | OutOfFuel => False
  end.
Proof.
  intros Hh Hx Hr.
  rewrite (loop_breaks env c n req hreq hreq' i resp0 resp err0 None checkErr
             s0 s1 Hx Hr).
  unfold exhausted. rewrite Hh. rewrite andb_false_r.
  unfold call. simpl.
  destruct (handler resp None _ (world s1)) as [[out|] w]; simpl;
    eexists; (split; [unfold extends; simpl; rewrite <- app_assoc; reflexivity|]);
    split; reflexivity.
Qed.

End Uncounted.

Lemma X18_witness :
  match loop Bench.env Bench2.busy 1 Bench.get Bench.get_x 1 None None
          (Bench.start 1) with
  | Ok _ s2 | Panicked s2 =>
      exists new, extends Bench2.after_second_503 s2 new /\
        count is_outcome new = 0%nat /\ count is_handler new = 1%nat
  | OutOfFuel => False
  end.
Proof.
  assert (H1 : Int64.sub (RetryMax (cfg Bench2.busy)) 1 <= 0)
    by (vm_compute; discriminate).
  exact (X18_handler_outcome_uncounted Bench.env Bench2.busy 0 Bench.get
           Bench.get_x Bench.get_x 1 None (Bench.answer 503 2) None None
           (Bench.start 1) Bench2.after_second_503 PassthroughErrorHandler
           eq_refl eq_refl H1).
Defined.

(** The whole call on that bench: the wrapper of [Do] counts the call
    and observes its duration after the handler has run, and no outcome
    is counted. *)
Example Do_busy_uncounted :
  Do Bench.env Bench2.busy 2 (Some Bench.get) (Bench.start 0)
  = Ok (Bench.answer 503 2, None)
      {| world := 2%nat;
         trace :=
           [EvInc doTotal; EvNewTimer doDuration;
            EvDebug "Sending request for method";
            EvTransport 0; EvCheckRetry 0; EvDiscard 1%nat 4096;
            EvClose 1%nat; EvBackoff 0; EvDebug "retrying http request";
            EvSleep 0;
            EvNewTimer doRetryDuration; EvInc doRetries; EvTransport 1;
            EvCheckRetry 1; EvObserveDuration doRetryDuration;
            EvErrorHandler 2; EvObserveDuration doDuration] |}.
Proof. vm_compute. reflexivity. Qed.

(** ** A nil request *)

Section NilRequest.

Context {W : Type} (env : Env W) (c : Client W).

(** X19: [Do] does not guard its request.  Handed nil with no modifier
    configured, or when the modifier returns nil, it panics at
    [req.Context()]: before the body function is called and before any
    attempt, and the error handler is not asked. *)
Theorem X19_nil_request_panics (fuel : nat) (req : option (Request W))
    (s : State W) :
  match RequestModifier_ (cfg c) with
  | Some modify => exists w', modify req (world s) = (Val None, w')
  | None => req = None
  end ->
  exists s' new,
    Do env c fuel req s = Panicked s' /\ extends s s' new /\
    count is_body new = 0%nat /\ quiet new.
Proof.
  intros H. unfold Do.
  destruct (RequestModifier_ (cfg c)) as [modify|].
  - destruct H as [w' H].
    destruct (metrics c); unfold bind, emit, defer, call, deref, panic; simpl;
      rewrite H; simpl; eexists; eexists; (split; [reflexivity|]);
      (split; [unfold extends; simpl; rewrite <- ?app_assoc; simpl;
               reflexivity|]); repeat split.
  - subst req.
    destruct (metrics c); unfold bind, emit, defer, ret, deref, panic; simpl;
      eexists; eexists; (split; [reflexivity|]);
      (split; [unfold extends; simpl; rewrite <- ?app_assoc; simpl;
               try reflexivity; by rewrite app_nil_r|]); repeat split.
Qed.

End NilRequest.

Lemma X19_witness :
  exists s' new,
    Do Bench.env (Bench.client 200 2 None) 3 None (Bench.start 0)
      = Panicked s' /\
    extends (Bench.start 0) s' new /\
    count is_body new = 0%nat /\ quiet new.
Proof.
  exact (X19_nil_request_panics Bench.env (Bench.client 200 2 None) 3 None
           (Bench.start 0) eq_refl).
Defined.
